(** * RGGB demosaic and colour pipeline kernels: a shallow embedding

    The two CUDA translation units
      - [src/cuda/kernels/debayer_rggb_bilinear.cu] (which holds two
        generations of [debayer16_to_xyz]: the FMA / reciprocal one and the
        plain modulo / division one), and
      - [src/cuda/kernels/color_pipeline.cu] ([apply_color_pipeline])
    are embedded as pure functions of one thread's coordinates.  A thread
    returns the list of stores it performs; a launch is the concatenation of
    the stores of every thread of the grid.

    Single-precision arithmetic is the IEEE-754 binary32 instance of the
    Standard Library's [SpecFloat] (precision 24, [emax] 128, round to nearest
    even).  The kernels themselves are written once over an interface of
    arithmetic operations, so that the same text can also be read over exact
    rationals when a statement is about the real-number function computed. *)

From Stdlib Require Import ZArith Lia Bool List QArith Qcanon Qabs Field Lqa.
From Stdlib Require Import SpecFloat.
From stdpp Require Import gmap.

Open Scope Z_scope.

(* ===================================================================== *)
(** * Machine integers *)
(* ===================================================================== *)

(** [int] is a 32-bit two's complement integer; arithmetic wraps. *)
Definition INT_MIN : Z := - 2 ^ 31.
Definition INT_MAX : Z := 2 ^ 31 - 1.
Definition UINT16_MAX : Z := 65535.

Definition wrap32 (z : Z) : Z := (z + 2 ^ 31) mod 2 ^ 32 - 2 ^ 31.

Definition int_range (z : Z) : Prop := INT_MIN <= z <= INT_MAX.
Definition u16_range (z : Z) : Prop := 0 <= z <= UINT16_MAX.

Definition iadd (a b : Z) : Z := wrap32 (a + b).
Definition isub (a b : Z) : Z := wrap32 (a - b).
Definition imul (a b : Z) : Z := wrap32 (a * b).

(** C's [%] truncates towards zero. *)
Definition irem (a b : Z) : Z := Z.rem a b.

(* ===================================================================== *)
(** * IEEE-754 binary32 *)
(* ===================================================================== *)

Module Binary32.

Definition prec : Z := 24.
Definition emax : Z := 128.

Abbreviation float := spec_float.

Definition valid (x : float) : bool := valid_binary prec emax x.

Definition pzero : float := S754_zero false.
Definition nzero : float := S754_zero true.
Definition pinf : float := S754_infinity false.
Definition ninf : float := S754_infinity true.
Definition nan : float := S754_nan.

(** [(float)v] for an [int] [v]: round to nearest even. *)
Definition of_int (v : Z) : float := binary_normalize prec emax v 0 false.

Definition mul : float -> float -> float := SFmul prec emax.
Definition add : float -> float -> float := SFadd prec emax.
Definition sub : float -> float -> float := SFsub prec emax.
Definition div : float -> float -> float := SFdiv prec emax.

Definition leb : float -> float -> bool := SFleb.
Definition ltb : float -> float -> bool := SFltb.

(** A decimal literal [n / d] written in the source with an [f] suffix.
    Numerator and denominator of every literal of the kernels convert
    exactly, so the correctly rounded quotient is the literal's value. *)
Definition lit (n : Z) (d : positive) : float := div (of_int n) (of_int (Zpos d)).

(** The integer [n] converts without rounding: the float holds [n]. *)
Definition converts_exactly (n : Z) : bool :=
  match of_int n with
  | S754_zero _ => n =? 0
  | S754_finite s m e =>
      (if 0 <=? e then Z.abs n =? Zpos m * 2 ^ e
       else Z.abs n * 2 ^ (- e) =? Zpos m)
      && Bool.eqb s (n <? 0)
  | _ => false
  end.

Definition is_nan (x : float) : bool :=
  match x with S754_nan => true | _ => false end.

(** [__fmaf_rn(x, y, z)]: [x * y + z] with a single rounding to nearest
    even.  The exact product is aligned with the addend and the exact sum
    is rounded once. *)
Definition fma_sign_zero (sxy sz : bool) : bool :=
  if Bool.eqb sxy sz then sxy else false.

Definition fma (x y z : float) : float :=
  match x, y with
  | S754_nan, _ | _, S754_nan => S754_nan
  | S754_infinity _, S754_zero _ | S754_zero _, S754_infinity _ => S754_nan
  | S754_infinity sx, S754_infinity sy
  | S754_infinity sx, S754_finite sy _ _
  | S754_finite sx _ _, S754_infinity sy =>
      let s := xorb sx sy in
      match z with
      | S754_nan => S754_nan
      | S754_infinity sz => if Bool.eqb s sz then z else S754_nan
      | _ => S754_infinity s
      end
  | S754_finite sx _ _, S754_zero sy
  | S754_zero sx, S754_finite sy _ _
  | S754_zero sx, S754_zero sy =>
      match z with
      | S754_nan => S754_nan
      | S754_zero sz => S754_zero (fma_sign_zero (xorb sx sy) sz)
      | _ => z
      end
  | S754_finite sx mx ex, S754_finite sy my ey =>
      let s := xorb sx sy in
      let mp := (mx * my)%positive in
      let ep := ex + ey in
      match z with
      | S754_nan => S754_nan
      | S754_infinity _ => z
      | S754_zero _ => binary_normalize prec emax (cond_Zopp s (Zpos mp)) ep false
      | S754_finite sz mz ez =>
          let e := Z.min ep ez in
          binary_normalize prec emax
            (cond_Zopp s (Zpos (fst (shl_align mp ep e)))
             + cond_Zopp sz (Zpos (fst (shl_align mz ez e))))
            e false
      end
  end.

(** [fmaxf] / [fminf] as the device implements them: a NaN argument is
    treated as missing data, and [+0] is greater than [-0]. *)
Definition fmaxf (a b : float) : float :=
  match a, b with
  | S754_nan, _ => b
  | _, S754_nan => a
  | S754_zero sa, S754_zero sb => S754_zero (sa && sb)
  | _, _ => if SFltb a b then b else a
  end.

Definition fminf (a b : float) : float :=
  match a, b with
  | S754_nan, _ => b
  | _, S754_nan => a
  | S754_zero sa, S754_zero sb => S754_zero (sa || sb)
  | _, _ => if SFltb b a then b else a
  end.

Definition one : float := of_int 1.

End Binary32.

(* ===================================================================== *)
(** * The arithmetic the kernels are written over *)
(* ===================================================================== *)

(** The [float] operations a kernel uses.  [f_lit n d] is the literal [n/d]
    (so [f_lit 35 10] is [3.5f] and [f_lit (-15371385) 10000000] is
    [-1.5371385f]); [f_fma] is [__fmaf_rn]. *)
Class FloatOps (F : Type) : Type := {
  f_of_int : Z -> F;
  f_lit : Z -> positive -> F;
  f_mul : F -> F -> F;
  f_add : F -> F -> F;
  f_sub : F -> F -> F;
  f_div : F -> F -> F;
  f_fma : F -> F -> F -> F;
  f_max : F -> F -> F;
  f_min : F -> F -> F
}.

Declare Scope fl_scope.
Delimit Scope fl_scope with fl.
Infix "*" := f_mul : fl_scope.
Infix "+" := f_add : fl_scope.
Infix "-" := f_sub : fl_scope.
Infix "/" := f_div : fl_scope.

(** The machine instance. *)
#[export] Instance binary32_ops : FloatOps Binary32.float := {
  f_of_int := Binary32.of_int;
  f_lit := Binary32.lit;
  f_mul := Binary32.mul;
  f_add := Binary32.add;
  f_sub := Binary32.sub;
  f_div := Binary32.div;
  f_fma := Binary32.fma;
  f_max := Binary32.fmaxf;
  f_min := Binary32.fminf
}.

(** The exact instance: every operation is the rational operation it
    approximates.  Division by zero is [0], as in [Qc]. *)
Module Exact.

Definition of_int (v : Z) : Qc := Q2Qc (inject_Z v).
Definition lit (n : Z) (d : positive) : Qc := Q2Qc (n # d).
Definition fma (x y z : Qc) : Qc := (x * y + z)%Qc.
Definition max (a b : Qc) : Qc := if Qclt_le_dec a b then b else a.
Definition min (a b : Qc) : Qc := if Qclt_le_dec b a then b else a.

End Exact.

#[export] Instance exact_ops : FloatOps Qc := {
  f_of_int := Exact.of_int;
  f_lit := Exact.lit;
  f_mul := Qcmult;
  f_add := Qcplus;
  f_sub := Qcminus;
  f_div := Qcdiv;
  f_fma := Exact.fma;
  f_max := Exact.max;
  f_min := Exact.min
}.

(* ===================================================================== *)
(** * Buffers, parameters, stores *)
(* ===================================================================== *)

(** A [const uint16_t*] buffer.  Reading outside the allocation is undefined
    in the source; the model returns 0 there. *)
Definition load16 (buf : list Z) (i : Z) : Z :=
  if i <? 0 then 0 else nth (Z.to_nat i) buf 0.

(** [#define PIX(in, x, y, w) in[(x) + (y) * (w)]] *)
Definition PIX (inp : list Z) (x y w : Z) : Z :=
  load16 inp (iadd x (imul y w)).

(** A store [out[i] = v]. *)
Definition store (F : Type) : Type := (Z * F)%type.

(** The scalar and matrix arguments shared by the three kernels. *)
Record params (F : Type) : Type := {
  width : Z;
  height : Z;
  wb_r : F;
  wb_g : F;
  wb_b : F;
  black_level : Z;
  white_level : Z;
  cam_to_xyz : list F   (* 3x4, row-major *)
}.
Arguments width {F} _.
Arguments height {F} _.
Arguments wb_r {F} _.
Arguments wb_g {F} _.
Arguments wb_b {F} _.
Arguments black_level {F} _.
Arguments white_level {F} _.
Arguments cam_to_xyz {F} _.

Section Kernels.

Context {F : Type} `{FloatOps F}.

Local Open Scope fl_scope.

(** [cam_to_xyz[i]] *)
Definition mat (m : list F) (i : nat) : F := nth i m (f_lit 0 1).

(** The clamp every kernel applies before a store:
    [fminf(fmaxf(v, 0.0f), 1.0f)]. *)
Definition clamp01 (v : F) : F := f_min (f_max v (f_lit 0 1)) (f_lit 1 1).

End Kernels.

(* ===================================================================== *)
(** * debayer_rggb_bilinear.cu, lines 1-122: FMA / reciprocal variant *)
(* ===================================================================== *)

Module Fma.
Section Fma.

Context {F : Type} `{FloatOps F}.

Local Open Scope fl_scope.

Definition normalize_pixel (val : Z) (black : Z) (inv_range : F) : F :=
let v := isub val black in
f_max (f_of_int v * inv_range) (f_lit 0 1).

Definition get_red (inp : list Z) (x y w black : Z) (inv_range : F) : F :=
let x_odd := Z.land x 1 in
let y_odd := Z.land y 1 in
if (x_odd =? 0) && (y_odd =? 0) then
  normalize_pixel (PIX inp x y w) black inv_range
else if negb (x_odd =? 0) && (y_odd =? 0) then
  (normalize_pixel (PIX inp (isub x 1) y w) black inv_range +
   normalize_pixel (PIX inp (iadd x 1) y w) black inv_range) * f_lit 5 10
else if (x_odd =? 0) && negb (y_odd =? 0) then
  (normalize_pixel (PIX inp x (isub y 1) w) black inv_range +
   normalize_pixel (PIX inp x (iadd y 1) w) black inv_range) * f_lit 5 10
else
  (normalize_pixel (PIX inp (isub x 1) (isub y 1) w) black inv_range +
   normalize_pixel (PIX inp (iadd x 1) (isub y 1) w) black inv_range +
   normalize_pixel (PIX inp (isub x 1) (iadd y 1) w) black inv_range +
   normalize_pixel (PIX inp (iadd x 1) (iadd y 1) w) black inv_range) * f_lit 25 100.

Definition get_green (inp : list Z) (x y w black : Z) (inv_range : F) : F :=
if negb (Z.land (iadd x y) 1 =? 0) then
  normalize_pixel (PIX inp x y w) black inv_range
else
  (normalize_pixel (PIX inp (isub x 1) y w) black inv_range +
   normalize_pixel (PIX inp (iadd x 1) y w) black inv_range +
   normalize_pixel (PIX inp x (isub y 1) w) black inv_range +
   normalize_pixel (PIX inp x (iadd y 1) w) black inv_range) * f_lit 25 100.

Definition get_blue (inp : list Z) (x y w black : Z) (inv_range : F) : F :=
let x_odd := Z.land x 1 in
let y_odd := Z.land y 1 in
if negb (x_odd =? 0) && negb (y_odd =? 0) then
  normalize_pixel (PIX inp x y w) black inv_range
else if (x_odd =? 0) && negb (y_odd =? 0) then
  (normalize_pixel (PIX inp (isub x 1) y w) black inv_range +
   normalize_pixel (PIX inp (iadd x 1) y w) black inv_range) * f_lit 5 10
else if negb (x_odd =? 0) && (y_odd =? 0) then
  (normalize_pixel (PIX inp x (isub y 1) w) black inv_range +
   normalize_pixel (PIX inp x (iadd y 1) w) black inv_range) * f_lit 5 10
else
  (normalize_pixel (PIX inp (isub x 1) (isub y 1) w) black inv_range +
   normalize_pixel (PIX inp (iadd x 1) (isub y 1) w) black inv_range +
   normalize_pixel (PIX inp (isub x 1) (iadd y 1) w) black inv_range +
   normalize_pixel (PIX inp (iadd x 1) (iadd y 1) w) black inv_range) * f_lit 25 100.

(** One thread of [debayer16_to_xyz] at coordinates [(x, y)]: the stores
  it performs, in program order. *)
Definition debayer16_to_xyz (inp : list Z) (p : params F) (x y : Z)
: list (store F) :=
if (x <? 1) || (x >=? isub (width p) 1) || (y <? 1) || (y >=? isub (height p) 1)
then []
else
  let inv_range :=
    f_lit 1 1 / f_of_int (isub (white_level p) (black_level p)) in
  let cam_r := get_red inp x y (width p) (black_level p) inv_range * wb_r p in
  let cam_g := get_green inp x y (width p) (black_level p) inv_range * wb_g p in
  let cam_b := get_blue inp x y (width p) (black_level p) inv_range * wb_b p in
  let m := mat (cam_to_xyz p) in
  let xyz_x := f_fma (m 0%nat) cam_r (f_fma (m 1%nat) cam_g (f_fma (m 2%nat) cam_b (m 3%nat))) in
  let xyz_y := f_fma (m 4%nat) cam_r (f_fma (m 5%nat) cam_g (f_fma (m 6%nat) cam_b (m 7%nat))) in
  let xyz_z := f_fma (m 8%nat) cam_r (f_fma (m 9%nat) cam_g (f_fma (m 10%nat) cam_b (m 11%nat))) in
  let exposure := f_lit 35 10 in
  let srgb_r :=
    f_fma (f_lit 32404542 10000000) xyz_x
      (f_fma (f_lit (-15371385) 10000000) xyz_y
         (f_lit (-4985314) 10000000 * xyz_z)) * exposure in
  let srgb_g :=
    f_fma (f_lit (-9692660) 10000000) xyz_x
      (f_fma (f_lit 18760108 10000000) xyz_y
         (f_lit 415560 10000000 * xyz_z)) * exposure in
  let srgb_b :=
    f_fma (f_lit 556434 10000000) xyz_x
      (f_fma (f_lit (-2040259) 10000000) xyz_y
         (f_lit 10572252 10000000 * xyz_z)) * exposure in
  let idx := imul (iadd (imul y (width p)) x) 3 in
  [ (idx, clamp01 srgb_r);
    (iadd idx 1, clamp01 srgb_g);
    (iadd idx 2, clamp01 srgb_b) ].

End Fma.
End Fma.

(* ===================================================================== *)
(** * debayer_rggb_bilinear.cu, lines 123-242: plain variant *)
(* ===================================================================== *)

Module Plain.
Section Plain.

Context {F : Type} `{FloatOps F}.

Local Open Scope fl_scope.

(** The closure [normalize = [black, range](uint16_t val) {...}] that each
  of the three channel helpers builds. *)
Definition normalize (black : Z) (range : F) (val : Z) : F :=
let v := isub val black in
let v := if v <? 0 then 0 else v in
f_of_int v / range.

Definition get_red (inp : list Z) (x y w black : Z) (range : F) : F :=
let normalize := normalize black range in
if (irem x 2 =? 0) && (irem y 2 =? 0) then
  normalize (PIX inp x y w)
else if (irem x 2 =? 1) && (irem y 2 =? 0) then
  (normalize (PIX inp (isub x 1) y w) + normalize (PIX inp (iadd x 1) y w))
  / f_lit 2 1
else if (irem x 2 =? 0) && (irem y 2 =? 1) then
  (normalize (PIX inp x (isub y 1) w) + normalize (PIX inp x (iadd y 1) w))
  / f_lit 2 1
else
  (normalize (PIX inp (isub x 1) (isub y 1) w) +
   normalize (PIX inp (iadd x 1) (isub y 1) w) +
   normalize (PIX inp (isub x 1) (iadd y 1) w) +
   normalize (PIX inp (iadd x 1) (iadd y 1) w)) / f_lit 4 1.

Definition get_green (inp : list Z) (x y w black : Z) (range : F) : F :=
let normalize := normalize black range in
if irem (iadd x y) 2 =? 1 then
  normalize (PIX inp x y w)
else
  (normalize (PIX inp (isub x 1) y w) + normalize (PIX inp (iadd x 1) y w) +
   normalize (PIX inp x (isub y 1) w) + normalize (PIX inp x (iadd y 1) w))
  / f_lit 4 1.

Definition get_blue (inp : list Z) (x y w black : Z) (range : F) : F :=
let normalize := normalize black range in
if (irem x 2 =? 1) && (irem y 2 =? 1) then
  normalize (PIX inp x y w)
else if (irem x 2 =? 0) && (irem y 2 =? 1) then
  (normalize (PIX inp (isub x 1) y w) + normalize (PIX inp (iadd x 1) y w))
  / f_lit 2 1
else if (irem x 2 =? 1) && (irem y 2 =? 0) then
  (normalize (PIX inp x (isub y 1) w) + normalize (PIX inp x (iadd y 1) w))
  / f_lit 2 1
else
  (normalize (PIX inp (isub x 1) (isub y 1) w) +
   normalize (PIX inp (iadd x 1) (isub y 1) w) +
   normalize (PIX inp (isub x 1) (iadd y 1) w) +
   normalize (PIX inp (iadd x 1) (iadd y 1) w)) / f_lit 4 1.

Definition debayer16_to_xyz (inp : list Z) (p : params F) (x y : Z)
: list (store F) :=
if (x <? 1) || (x >=? isub (width p) 1) || (y <? 1) || (y >=? isub (height p) 1)
then []
else
  let range := f_of_int (isub (white_level p) (black_level p)) in
  let cam_r := get_red inp x y (width p) (black_level p) range * wb_r p in
  let cam_g := get_green inp x y (width p) (black_level p) range * wb_g p in
  let cam_b := get_blue inp x y (width p) (black_level p) range * wb_b p in
  let m := mat (cam_to_xyz p) in
  let xyz_x := m 0%nat * cam_r + m 1%nat * cam_g + m 2%nat * cam_b + m 3%nat in
  let xyz_y := m 4%nat * cam_r + m 5%nat * cam_g + m 6%nat * cam_b + m 7%nat in
  let xyz_z := m 8%nat * cam_r + m 9%nat * cam_g + m 10%nat * cam_b + m 11%nat in
  let srgb_r :=
    f_lit 32404542 10000000 * xyz_x - f_lit 15371385 10000000 * xyz_y
    - f_lit 4985314 10000000 * xyz_z in
  let srgb_g :=
    f_lit (-9692660) 10000000 * xyz_x + f_lit 18760108 10000000 * xyz_y
    + f_lit 415560 10000000 * xyz_z in
  let srgb_b :=
    f_lit 556434 10000000 * xyz_x - f_lit 2040259 10000000 * xyz_y
    + f_lit 10572252 10000000 * xyz_z in
  let exposure := f_lit 35 10 in
  let srgb_r := srgb_r * exposure in
  let srgb_g := srgb_g * exposure in
  let srgb_b := srgb_b * exposure in
  let idx := imul (iadd (imul y (width p)) x) 3 in
  [ (idx, clamp01 srgb_r);
    (iadd idx 1, clamp01 srgb_g);
    (iadd idx 2, clamp01 srgb_b) ].

End Plain.
End Plain.

(* ===================================================================== *)
(** * color_pipeline.cu *)
(* ===================================================================== *)

Module Color.
Section Color.

Context {F : Type} `{FloatOps F}.

Local Open Scope fl_scope.

(** One thread of [apply_color_pipeline] at coordinates [(x, y)]. *)
Definition apply_color_pipeline (rgb_in : list Z) (p : params F) (x y : Z)
: list (store F) :=
if (x >=? width p) || (y >=? height p) then []
else
  let idx := imul (iadd (imul y (width p)) x) 3 in
  let inv_range :=
    f_lit 1 1 / f_of_int (isub (white_level p) (black_level p)) in
  let r_raw := load16 rgb_in idx in
  let g_raw := load16 rgb_in (iadd idx 1) in
  let b_raw := load16 rgb_in (iadd idx 2) in
  let r_norm := f_max (f_of_int (isub r_raw (black_level p)) * inv_range) (f_lit 0 1) in
  let g_norm := f_max (f_of_int (isub g_raw (black_level p)) * inv_range) (f_lit 0 1) in
  let b_norm := f_max (f_of_int (isub b_raw (black_level p)) * inv_range) (f_lit 0 1) in
  let cam_r := r_norm * wb_r p in
  let cam_g := g_norm * wb_g p in
  let cam_b := b_norm * wb_b p in
  let m := mat (cam_to_xyz p) in
  let xyz_x := f_fma (m 0%nat) cam_r (f_fma (m 1%nat) cam_g (f_fma (m 2%nat) cam_b (m 3%nat))) in
  let xyz_y := f_fma (m 4%nat) cam_r (f_fma (m 5%nat) cam_g (f_fma (m 6%nat) cam_b (m 7%nat))) in
  let xyz_z := f_fma (m 8%nat) cam_r (f_fma (m 9%nat) cam_g (f_fma (m 10%nat) cam_b (m 11%nat))) in
  let exposure := f_lit 35 10 in
  let srgb_r :=
    f_fma (f_lit 32404542 10000000) xyz_x
      (f_fma (f_lit (-15371385) 10000000) xyz_y
         (f_lit (-4985314) 10000000 * xyz_z)) * exposure in
  let srgb_g :=
    f_fma (f_lit (-9692660) 10000000) xyz_x
      (f_fma (f_lit 18760108 10000000) xyz_y
         (f_lit 415560 10000000 * xyz_z)) * exposure in
  let srgb_b :=
    f_fma (f_lit 556434 10000000) xyz_x
      (f_fma (f_lit (-2040259) 10000000) xyz_y
         (f_lit 10572252 10000000 * xyz_z)) * exposure in
  [ (idx, clamp01 srgb_r);
    (iadd idx 1, clamp01 srgb_g);
    (iadd idx 2, clamp01 srgb_b) ].

End Color.
End Color.

(* ===================================================================== *)
(** * Launching a kernel over a grid *)
(* ===================================================================== *)

Section Launch.

Context {F : Type}.

(** The threads of a launch have coordinates [0 <= x < gx], [0 <= y < gy]
    ([gx], [gy] are the grid extents in threads).  No thread reads what
    another writes, so the stores of a launch are those of its threads in
    any order; row-major order is used here. *)
Definition launch (kernel : Z -> Z -> list (store F)) (gx gy : Z)
  : list (store F) :=
  flat_map (fun y => flat_map (fun x => kernel x y) (seqZ 0 gx)) (seqZ 0 gy).

(** The output buffer after a list of stores. *)
Definition run_stores (out : gmap Z F) (log : list (store F)) : gmap Z F :=
  fold_left (fun m s => <[ fst s := snd s ]> m) log out.

(** How many stores of a log hit location [i]. *)
Definition writes_to (i : Z) (log : list (store F)) : nat :=
  length (filter (fun s => fst s = i) log).

End Launch.

(* ===================================================================== *)
(** * The specification's vocabulary *)
(* ===================================================================== *)

(** Definitions that follow the wording of the specification rather than the
    source text; the theorems below compare the kernels with them. *)
Module Spec.

(** Section 4.2: which same-coloured samples a channel is rebuilt from. *)
Inductive rule : Type :=
| Direct       (* the sample at the pixel itself *)
| Horizontal   (* mean of the left and right neighbours *)
| Vertical     (* mean of the upper and lower neighbours *)
| Diagonal     (* mean of the four diagonal neighbours *)
| Orthogonal.  (* mean of the four orthogonal neighbours *)

(** Red: direct at (even, even), left/right at (odd, even), up/down at
    (even, odd), diagonal at (odd, odd). *)
Definition red_rule (x_odd y_odd : bool) : rule :=
  match x_odd, y_odd with
  | false, false => Direct
  | true, false => Horizontal
  | false, true => Vertical
  | true, true => Diagonal
  end.

(** Green: direct when [x + y] is odd, four orthogonal neighbours
    otherwise. *)
Definition green_rule (x_odd y_odd : bool) : rule :=
  if xorb x_odd y_odd then Direct else Orthogonal.

(** Blue: the parity mirror of red. *)
Definition blue_rule (x_odd y_odd : bool) : rule :=
  red_rule (negb x_odd) (negb y_odd).

(** The coordinates a rule reads around [(x, y)]. *)
Definition neighbours (r : rule) (x y : Z) : list (Z * Z) :=
  match r with
  | Direct => [(x, y)]
  | Horizontal => [(x - 1, y); (x + 1, y)]
  | Vertical => [(x, y - 1); (x, y + 1)]
  | Diagonal => [(x - 1, y - 1); (x + 1, y - 1); (x - 1, y + 1); (x + 1, y + 1)]
  | Orthogonal => [(x - 1, y); (x + 1, y); (x, y - 1); (x, y + 1)]
  end.

(** A rule is one of three branch shapes. *)
Inductive shape : Type := DirectSample | TwoNeighbourMean | FourNeighbourMean.

Definition shape_of (r : rule) : shape :=
  match r with
  | Direct => DirectSample
  | Horizontal | Vertical => TwoNeighbourMean
  | Diagonal | Orthogonal => FourNeighbourMean
  end.

Definition interior (w h x y : Z) : Prop :=
  1 <= x < w - 1 /\ 1 <= y < h - 1.

Definition border (w h x y : Z) : Prop :=
  0 <= x < w /\ 0 <= y < h /\ (x = 0 \/ x = w - 1 \/ y = 0 \/ y = h - 1).

Definition interiorb (w h x y : Z) : bool :=
  (1 <=? x) && (x <? w - 1) && (1 <=? y) && (y <? h - 1).

(** The locations the demosaic thread at [(x, y)] stores to. *)
Definition offsets (w h x y : Z) : list Z :=
  if interiorb w h x y
  then [ (y * w + x) * 3; (y * w + x) * 3 + 1; (y * w + x) * 3 + 2 ]
  else [].

(** An image whose samples can be indexed by an [int]. *)
Definition addressable (w h : Z) : Prop := 0 < w /\ 0 < h /\ w * h <= INT_MAX.

(** Calibration levels the kernels can subtract without [int] overflow:
    [white_level > black_level], [white_level - black_level] fits an
    [int], and so does [(int)val - black_level] for every 16-bit [val]. *)
Definition levels (black white : Z) : Prop :=
  int_range black /\ int_range white /\ black < white /\
  white - black <= INT_MAX /\ UINT16_MAX - INT_MAX <= black.

(** An image whose interleaved three-channel buffer can be indexed by an
    [int]. *)
Definition sized (w h : Z) : Prop :=
  0 < w /\ 0 < h /\ 3 * (w * h) <= INT_MAX.

Section Arith.

Context {F : Type} `{FloatOps F}.

Local Open Scope fl_scope.

(** The value a rule yields, given the normalised sample [n] at each
    coordinate and the way two / four values are averaged. *)
Definition reconstruct (mean2 : F -> F -> F) (mean4 : F -> F -> F -> F -> F)
    (n : Z * Z -> F) (r : rule) (x y : Z) : F :=
  match neighbours r x y with
  | [a] => n a
  | [a; b] => mean2 (n a) (n b)
  | [a; b; c; d] => mean4 (n a) (n b) (n c) (n d)
  | _ => f_lit 0 1
  end.

(** Section 4.3, step 1: one row of the camera-to-XYZ 3x4 affine map,
    accumulated with fused multiply-adds. *)
Definition cam_to_xyz_row (m : list F) (i : nat) (r g b : F) : F :=
  f_fma (mat m (4 * i)) r
    (f_fma (mat m (4 * i + 1)) g
       (f_fma (mat m (4 * i + 2)) b (mat m (4 * i + 3)))).

(** Step 2: one row [c0 c1 c2] of the fixed XYZ-to-sRGB matrix. *)
Definition xyz_to_srgb_row (c0 c1 c2 : F) (xyz : F * F * F) : F :=
  let '(x, y, z) := xyz in f_fma c0 x (f_fma c1 y (c2 * z)).

Definition xyz_to_srgb (xyz : F * F * F) : F * F * F :=
  (xyz_to_srgb_row (f_lit 32404542 10000000) (f_lit (-15371385) 10000000)
     (f_lit (-4985314) 10000000) xyz,
   xyz_to_srgb_row (f_lit (-9692660) 10000000) (f_lit 18760108 10000000)
     (f_lit 415560 10000000) xyz,
   xyz_to_srgb_row (f_lit 556434 10000000) (f_lit (-2040259) 10000000)
     (f_lit 10572252 10000000) xyz).

Definition cam_to_xyz_affine (m : list F) (cam : F * F * F) : F * F * F :=
  let '(r, g, b) := cam in
  (cam_to_xyz_row m 0 r g b, cam_to_xyz_row m 1 r g b, cam_to_xyz_row m 2 r g b).

(** Step 3: the fixed exposure factor. *)
Definition exposure : F := f_lit 35 10.

Definition expose (c : F * F * F) : F * F * F :=
  let '(r, g, b) := c in (r * exposure, g * exposure, b * exposure).

(** Step 4: the per-channel clamp. *)
Definition clamp3 (c : F * F * F) : F * F * F :=
  let '(r, g, b) := c in (clamp01 r, clamp01 g, clamp01 b).

(** Steps 1 to 4 in order. *)
Definition color_transform (m : list F) (cam : F * F * F) : F * F * F :=
  clamp3 (expose (xyz_to_srgb (cam_to_xyz_affine m cam))).

(** How the FMA variant averages. *)
Definition fma_mean2 (a b : F) : F := (a + b) * f_lit 5 10.
Definition fma_mean4 (a b c d : F) : F := (a + b + c + d) * f_lit 25 100.

(** How the plain variant averages. *)
Definition plain_mean2 (a b : F) : F := (a + b) / f_lit 2 1.
Definition plain_mean4 (a b c d : F) : F := (a + b + c + d) / f_lit 4 1.

(** The normalised sample at a coordinate. *)
Definition fma_sample (inp : list Z) (w black : Z) (inv_range : F)
    (c : Z * Z) : F :=
  Fma.normalize_pixel (PIX inp (fst c) (snd c) w) black inv_range.

Definition plain_sample (inp : list Z) (w black : Z) (range : F)
    (c : Z * Z) : F :=
  Plain.normalize black range (PIX inp (fst c) (snd c) w).

(** The reciprocal of the sensor range, computed once per thread. *)
Definition inv_range (p : params F) : F :=
  f_lit 1 1 / f_of_int (isub (white_level p) (black_level p)).

(** Section 4.1: the Normalization helper as the FMA kernels call it,
    and as the plain kernel calls it. *)
Definition fma_norm (black white val : Z) : F :=
  Fma.normalize_pixel val black
    (f_lit 1 1 / f_of_int (isub white black)).

Definition plain_norm (black white val : Z) : F :=
  Plain.normalize black (f_of_int (isub white black)) val.

(** Section 4.2, output: the white-balanced camera-space triple the
    Demosaic component hands to the Color-Transform. *)
Definition demosaic_cam (inp : list Z) (p : params F) (x y : Z) : F * F * F :=
  (Fma.get_red inp x y (width p) (black_level p) (inv_range p) * wb_r p,
   Fma.get_green inp x y (width p) (black_level p) (inv_range p) * wb_g p,
   Fma.get_blue inp x y (width p) (black_level p) (inv_range p) * wb_b p).

(** The same triple for the Color-only pipeline: the three raw values of
    the pixel, normalised and white-balanced. *)
Definition color_cam (rgb_in : list Z) (p : params F) (x y : Z) : F * F * F :=
  let idx := ((y * width p + x) * 3)%Z in
  (Fma.normalize_pixel (load16 rgb_in idx) (black_level p) (inv_range p) * wb_r p,
   Fma.normalize_pixel (load16 rgb_in (idx + 1)%Z) (black_level p) (inv_range p) * wb_g p,
   Fma.normalize_pixel (load16 rgb_in (idx + 2)%Z) (black_level p) (inv_range p) * wb_b p).

(** A pre-demosaiced buffer holds, at pixel [(x, y)], exactly what the
    Demosaic component produces there on mosaic [inp]: read through
    normalisation and white balance, its raw triple is the Demosaic
    output. *)
Definition holds_demosaic_of (rgb_in inp : list Z) (p : params F) (x y : Z) : Prop :=
  color_cam rgb_in p x y = demosaic_cam inp p x y.

(** Section 4.1, computation: [max(0, (sample - black) / (white - black))]
    evaluated with the arithmetic at hand. *)
Definition normalization_quotient (black white val : Z) : F :=
  f_max (f_lit 0 1) (f_of_int (val - black)%Z / f_of_int (white - black)%Z).

(** Every value a kernel stores went through the clamp. *)
Definition clamped (s : store F) : Prop := exists v, snd s = clamp01 v.

(** The plain variant's counterparts: the camera triple it rebuilds,
    and its colour transform, which accumulates with separate
    multiplications and additions. *)
Definition plain_cam (inp : list Z) (p : params F) (x y : Z) : F * F * F :=
  let range := f_of_int (isub (white_level p) (black_level p)) in
  (Plain.get_red inp x y (width p) (black_level p) range * wb_r p,
   Plain.get_green inp x y (width p) (black_level p) range * wb_g p,
   Plain.get_blue inp x y (width p) (black_level p) range * wb_b p).

Definition plain_cam_to_xyz_row (m : list F) (i : nat) (r g b : F) : F :=
  mat m (4 * i) * r + mat m (4 * i + 1) * g + mat m (4 * i + 2) * b
  + mat m (4 * i + 3).

Definition plain_color_transform (m : list F) (cam : F * F * F) : F * F * F :=
  let '(r, g, b) := cam in
  let x := plain_cam_to_xyz_row m 0 r g b in
  let y := plain_cam_to_xyz_row m 1 r g b in
  let z := plain_cam_to_xyz_row m 2 r g b in
  clamp3
    (expose
       (f_lit 32404542 10000000 * x - f_lit 15371385 10000000 * y
        - f_lit 4985314 10000000 * z,
        f_lit (-9692660) 10000000 * x + f_lit 18760108 10000000 * y
        + f_lit 415560 10000000 * z,
        f_lit 556434 10000000 * x - f_lit 2040259 10000000 * y
        + f_lit 10572252 10000000 * z)).

(** The three stores of a pixel whose interleaved offset is [idx]. *)
Definition stores_at (idx : Z) (c : F * F * F) : list (store F) :=
  let '(r, g, b) := c in [ (idx, r); ((idx + 1)%Z, g); ((idx + 2)%Z, b) ].

End Arith.

(** A binary32 value in [[0, 1]]. *)
Definition in_unit (v : Binary32.float) : Prop :=
  SFleb Binary32.pzero v = true /\ SFleb v Binary32.one = true.

End Spec.

(* ===================================================================== *)
(** * The grid, the buffers and the mosaic window *)
(* ===================================================================== *)

(** Vocabulary for statements about a whole launch: which pixels a grid
    covers, which locations of the interleaved float buffer belong to a
    pixel, and which samples of the mosaic surround it. *)
Module Grid.

(** [(x, y)] is a pixel of a [w] by [h] image. *)
Definition in_imageb (w h x y : Z) : bool :=
  (0 <=? x) && (x <? w) && (0 <=? y) && (y <? h).

(** The three locations of pixel [(x, y)] in the interleaved buffer. *)
Definition pixel_locations (w x y : Z) : list Z :=
  [ (y * w + x) * 3; (y * w + x) * 3 + 1; (y * w + x) * 3 + 2 ].

(** Component [c] (0, 1 or 2) of a triple. *)
Definition channel {F : Type} (c : Z) (t : F * F * F) : F :=
  let '(r, g, b) := t in if c =? 0 then r else if c =? 1 then g else b.

(** The 3x3 window of coordinates around [(x, y)], row by row. *)
Definition window (x y : Z) : list (Z * Z) :=
  [ (x - 1, y - 1); (x, y - 1); (x + 1, y - 1);
    (x - 1, y);     (x, y);     (x + 1, y);
    (x - 1, y + 1); (x, y + 1); (x + 1, y + 1) ].

(** The sample of a mosaic of width [w] at a coordinate. *)
Definition sample (w : Z) (inp : list Z) (c : Z * Z) : Z :=
  load16 inp (fst c + snd c * w).

(** Two mosaics show the same samples in the windows around [(x, y)] and
    [(x', y')]. *)
Definition same_window (w : Z) (inp inp' : list Z) (x y x' y' : Z) : Prop :=
  map (sample w inp) (window x y) = map (sample w inp') (window x' y').

(** Every sample of the window around [(x, y)] is a 16-bit value at or
    below the black level. *)
Definition dark_window (w black : Z) (inp : list Z) (x y : Z) : Prop :=
  Forall (fun c => u16_range (sample w inp c) /\ sample w inp c <= black)
    (window x y).

(** Every sample of the window around [(x, y)] is a 16-bit value. *)
Definition valid_window (w : Z) (inp : list Z) (x y : Z) : Prop :=
  Forall (fun c => u16_range (sample w inp c)) (window x y).

(** Every sample of the window around [(x, y)] is [s]. *)
Definition flat_window (w : Z) (inp : list Z) (x y s : Z) : Prop :=
  Forall (fun c => sample w inp c = s) (window x y).

(** The three raw values of a pixel of an interleaved 16-bit buffer. *)
Definition raw_triple (w : Z) (rgb : list Z) (x y : Z) : list Z :=
  map (fun c => load16 rgb ((y * w + x) * 3 + c)) [0; 1; 2].

End Grid.

(* ===================================================================== *)
(** * The value of a float *)
(* ===================================================================== *)

(** Vocabulary for statements about how close a binary32 result is to the
    rational it approximates. *)
Module Value.

(** The rational a finite float denotes (0 for the others). *)
Definition B2Q (x : spec_float) : Q :=
  match x with
  | S754_finite s m e =>
      if 0 <=? e then inject_Z (cond_Zopp s (Zpos m) * 2 ^ e)
      else cond_Zopp s (Zpos m) # Z.to_pos (2 ^ (- e))
  | _ => 0%Q
  end.

(** A positive finite float [m * 2 ^ e] lies within [k * 2 ^ -24], relative,
    of the fraction [N / D]: the inequality
    [|m * 2 ^ e - N / D| <= k * 2 ^ -24 * (N / D)] multiplied through by
    [D * 2 ^ 64 * 2 ^ 24] (the floats concerned have [e >= -64]). *)
Definition within (k : Z) (x : spec_float) (N D : Z) : Prop :=
  match x with
  | S754_finite false m e =>
      -64 <= e /\
      2 ^ 24 * Z.abs (Zpos m * 2 ^ (e + 64) * D - N * 2 ^ 64) <= k * (N * 2 ^ 64)
  | _ => False
  end.

End Value.

(* ===================================================================== *)
(** * Rounding to nearest even, described on integer fractions *)
(* ===================================================================== *)

(** The vocabulary used to reason about [binary_round_aux]: a non-negative
    rational is a fraction [N / D] of integers, a truncated mantissa with a
    location describes where the fraction lies between two integers, and
    the rounded result is re-packed as a float. *)
Module RoundDefs.

Definition prec : Z := Binary32.prec.
Definition emax : Z := Binary32.emax.
Definition emin : Z := -149.

(** Where [N / D] lies in [[q, q + 1)]: on [q], or below, at or above the
    midpoint. *)
Definition location_of (N D q : Z) : location :=
  if N =? q * D then loc_Exact
  else loc_Inexact (2 * N ?= (2 * q + 1) * D).

(** The record [mrs] holds the integer part and the location of [N / D]. *)
Definition represents (N D : Z) (mrs : shr_record) : Prop :=
  0 < D /\ 0 <= shr_m mrs /\
  shr_m mrs * D <= N < (shr_m mrs + 1) * D /\
  loc_of_shr_record mrs = location_of N D (shr_m mrs).

(** The integer nearest to [N / D], ties to even. *)
Definition rne (N D : Z) : Z :=
  round_nearest_even (N / D) (location_of N D (N / D)).

(** The float with mantissa [n] (at most [2 ^ prec]) and exponent [e]. *)
Definition packed (s : bool) (n e : Z) : spec_float :=
  match n with
  | Zpos m =>
      if n <? 2 ^ prec then
        if e <=? emax - prec then S754_finite s m e else S754_infinity s
      else
        if e + 1 <=? emax - prec
        then S754_finite s (Z.to_pos (2 ^ (prec - 1))) (e + 1)
        else S754_infinity s
  | _ => S754_zero s
  end.

(** A mantissa and exponent as the rounding produces them: the mantissa
    has at most [prec] digits (or is [2 ^ prec]), and is normal unless the
    exponent is the smallest one. *)
Definition wellpacked (n e : Z) : Prop :=
  0 <= n <= 2 ^ prec /\ emin <= e /\ (emin < e -> 2 ^ (prec - 1) <= n).

(** The order of the values of two non-negative floats. *)
Definition fle (x y : spec_float) : Prop :=
  match x, y with
  | S754_zero _, (S754_zero _ | S754_finite false _ _ | S754_infinity false) => True
  | S754_finite false m1 e1, S754_finite false m2 e2 =>
      Zpos m1 * 2 ^ (e1 - Z.min e1 e2) <= Zpos m2 * 2 ^ (e2 - Z.min e1 e2)
  | S754_finite false _ _, S754_infinity false => True
  | S754_infinity false, S754_infinity false => True
  | _, _ => False
  end.

(** A float that is zero or positive, and not a NaN. *)
Definition nonneg (x : spec_float) : Prop :=
  match x with
  | S754_zero _ | S754_finite false _ _ | S754_infinity false => True
  | _ => False
  end.

(** A float that is zero, negative or a NaN: what [fmaxf(., 0.0f)] sends
    to zero. *)
Definition nonpos_or_nan (x : spec_float) : Prop :=
  match x with
  | S754_zero _ | S754_finite true _ _ | S754_infinity true | S754_nan => True
  | _ => False
  end.

(** The exponent [binary_round_aux] rounds at. *)
Definition round_exp (mx ex : Z) : Z :=
  Z.max ex (fexp prec emax (Zdigits2 mx + ex)).

(** The truncated mantissa is positive and is not shifted left by the
    format: rounding it yields a normalised mantissa. *)
Definition enough_digits (mx ex : Z) : Prop :=
  1 <= mx /\ ex <= fexp prec emax (Zdigits2 mx + ex).

(** A positive normal float with exponent between [lo] and [hi]. *)
Definition normal (lo hi : Z) (x : spec_float) : Prop :=
  exists m e, x = S754_finite false m e /\
              2 ^ (prec - 1) <= Zpos m < 2 ^ prec /\ lo <= e <= hi.

End RoundDefs.

(* ===================================================================== *)
(** * Concrete inputs *)
(* ===================================================================== *)

(** Small images and parameter sets on which the statements below are
    exercised. *)
Module Examples.

Definition identity_matrix {F : Type} `{FloatOps F} : list F :=
  map f_of_int [1; 0; 0; 0;  0; 1; 0; 0;  0; 0; 1; 0].

(** A 3x3 mosaic whose only interior pixel, [(1, 1)], is a blue site; the
    sensor range [1088 - 64] is a power of two. *)
Definition mosaic_3x3 : list Z := [100; 110; 200; 120; 500; 140; 300; 130; 400].

Definition params_3x3 : params Binary32.float :=
  {| width := 3; height := 3;
     wb_r := Binary32.lit 2 1; wb_g := Binary32.lit 1 1; wb_b := Binary32.lit 15 10;
     black_level := 64; white_level := 1088;
     cam_to_xyz := identity_matrix |}.

(** The same image on a 10-bit sensor, whose range [1023 - 64] is not a
    power of two. *)
Definition params_3x3_10bit : params Binary32.float :=
  {| width := 3; height := 3;
     wb_r := Binary32.lit 2 1; wb_g := Binary32.lit 1 1; wb_b := Binary32.lit 15 10;
     black_level := 64; white_level := 1023;
     cam_to_xyz := identity_matrix |}.

(** The pre-demosaiced buffer holding, at pixel [(1, 1)], the triple the
    Demosaic component rebuilds from [mosaic_3x3]: the diagonal mean 250,
    the orthogonal mean 125 and the blue sample 500. *)
Definition rgb_3x3 : list Z := repeat 0 12 ++ [250; 125; 500] ++ repeat 0 12.

(** A matrix that copies the red camera channel into X and nothing else:
    with it [xyz = (cam_r, 0, 0)] exactly, fused or not. *)
Definition red_only_matrix {F : Type} `{FloatOps F} : list F :=
  map f_of_int [1; 0; 0; 0;  0; 0; 0; 0;  0; 0; 0; 0].

(** A uniform 5x5 mosaic of a 16-bit sensor; [(2, 2)] is a red site. *)
Definition mosaic_5x5 : list Z := repeat 257 25.

Definition params_5x5 : params Binary32.float :=
  {| width := 5; height := 5;
     wb_r := Binary32.lit 1 1; wb_g := Binary32.lit 1 1; wb_b := Binary32.lit 1 1;
     black_level := 0; white_level := 65535;
     cam_to_xyz := identity_matrix |}.

Definition params_5x5_red : params Binary32.float :=
  {| width := 5; height := 5;
     wb_r := Binary32.lit 1 1; wb_g := Binary32.lit 1 1; wb_b := Binary32.lit 1 1;
     black_level := 0; white_level := 65535;
     cam_to_xyz := red_only_matrix |}.

(** The same parameters read over the rationals. *)
Definition params_5x5_exact : params Qc :=
  {| width := 5; height := 5;
     wb_r := Exact.lit 1 1; wb_g := Exact.lit 1 1; wb_b := Exact.lit 1 1;
     black_level := 0; white_level := 65535;
     cam_to_xyz := identity_matrix |}.

(** The pre-demosaiced counterpart of [mosaic_5x5]: every pixel holds the
    triple (257, 257, 257). *)
Definition rgb_5x5 : list Z := repeat 257 75.

(** The 5x5 mosaic on a sensor whose black level, 300, is above every
    sample. *)
Definition params_5x5_dark : params Binary32.float :=
  {| width := 5; height := 5;
     wb_r := Binary32.lit 1 1; wb_g := Binary32.lit 1 1; wb_b := Binary32.lit 1 1;
     black_level := 300; white_level := 65535;
     cam_to_xyz := identity_matrix |}.

(** A mosaic too narrow to have an interior. *)
Definition params_2x5 : params Binary32.float :=
  {| width := 2; height := 5;
     wb_r := Binary32.lit 1 1; wb_g := Binary32.lit 1 1; wb_b := Binary32.lit 1 1;
     black_level := 0; white_level := 65535;
     cam_to_xyz := identity_matrix |}.

End Examples.

(* ===================================================================== *)
(** * Comparison and clamping in binary32 *)
(* ===================================================================== *)

Module Clamp.

Import Binary32.

Lemma lit_0 : lit 0 1 = pzero.
Proof. reflexivity. Qed.

Lemma lit_1 : lit 1 1 = S754_finite false 8388608 (-23).
Proof. reflexivity. Qed.

Lemma one_eq : one = S754_finite false 8388608 (-23).
Proof. reflexivity. Qed.

(** Numerators and denominators of the literals of the kernels convert
    exactly, so [lit] rounds each decimal once. *)
Lemma literals_convert_exactly :
  forallb converts_exactly
    [ 0; 1; 2; 4; 5; 10; 25; 35; 100; 10000000;
      32404542; -15371385; 15371385; -4985314; 4985314;
      -9692660; 18760108; 415560;
      556434; -2040259; 2040259; 10572252 ] = true.
Proof. reflexivity. Qed.

(** The literals as floats. *)
Lemma literal_values :
  lit 5 10 = S754_finite false 8388608 (-24) /\
  lit 25 100 = S754_finite false 8388608 (-25) /\
  lit 2 1 = S754_finite false 8388608 (-22) /\
  lit 4 1 = S754_finite false 8388608 (-21) /\
  lit 35 10 = S754_finite false 14680064 (-22) /\
  lit 32404542 10000000 = S754_finite false 13591450 (-22) /\
  lit (-15371385) 10000000 = S754_finite true 12894452 (-23) /\
  lit (-4985314) 10000000 = S754_finite true 16727938 (-25) /\
  lit (-9692660) 10000000 = S754_finite true 16261585 (-24) /\
  lit 18760108 10000000 = S754_finite false 15737119 (-23) /\
  lit 415560 10000000 = S754_finite false 11155104 (-28) /\
  lit 556434 10000000 = S754_finite false 14936661 (-28) /\
  lit (-2040259) 10000000 = S754_finite true 13691946 (-26) /\
  lit 10572252 10000000 = S754_finite false 8868648 (-23).
Proof. repeat split. Qed.

Lemma compare_cont_antisym (p q : positive) (c : comparison) :
  Pos.compare_cont c p q = CompOpp (Pos.compare_cont (CompOpp c) q p).
Proof. rewrite <- Pos.compare_cont_antisym. now rewrite CompOpp_involutive. Qed.

(** [SFcompare] is antisymmetric. *)
Lemma SFcompare_antisym (x y : float) :
  SFcompare x y = option_map CompOpp (SFcompare y x).
Proof.
  destruct x as [sx|sx| |sx mx ex], y as [sy|sy| |sy my ey];
    try destruct sx; try destruct sy; simpl; try reflexivity.
  - rewrite (Z.compare_antisym ey ex).
    destruct (ey ?= ex) eqn:E; simpl; try reflexivity.
    rewrite (compare_cont_antisym mx my Eq). simpl.
    now rewrite CompOpp_involutive.
  - rewrite (Z.compare_antisym ey ex).
    destruct (ey ?= ex) eqn:E; simpl; try reflexivity.
    rewrite (compare_cont_antisym mx my Eq). reflexivity.
Qed.

Lemma ltb_false_leb (x y : float) :
  is_nan x = false -> is_nan y = false -> SFltb x y = false -> SFleb y x = true.
Proof.
  unfold SFltb, SFleb. rewrite (SFcompare_antisym y x).
  intros Hx Hy.
  destruct (SFcompare x y) as [[]|] eqn:E; simpl; try congruence.
  destruct x, y; simpl in *; discriminate.
Qed.

Lemma ltb_leb (x y : float) : SFltb x y = true -> SFleb x y = true.
Proof. unfold SFltb, SFleb. destruct (SFcompare x y) as [[]|]; congruence. Qed.

(** The value [fmaxf(v, 0.0f)] is never a NaN and never below zero, and
    is [v] itself when [v] is above zero. *)
Lemma fmaxf_zero_cases (v : float) :
  (fmaxf v pzero = pzero /\ (is_nan v = true \/ SFleb v pzero = true)) \/
  (fmaxf v pzero = v /\ SFltb pzero v = true).
Proof.
  destruct v as [[]|[]| |[] m e]; simpl; auto.
Qed.

Lemma fmaxf_zero_nonneg (v : float) : SFleb pzero (fmaxf v pzero) = true.
Proof. destruct v as [[]|[]| |[] m e]; reflexivity. Qed.

Lemma fmaxf_zero_not_nan (v : float) : is_nan (fmaxf v pzero) = false.
Proof. destruct v as [[]|[]| |[] m e]; reflexivity. Qed.

(** [fminf(t, 1.0f)] of a non-negative [t]. *)
Lemma fminf_one_cases (t : float) :
  is_nan t = false ->
  (fminf t one = one /\ SFltb one t = true) \/
  (fminf t one = t /\ SFleb t one = true).
Proof.
  intros Hn. rewrite one_eq.
  destruct t as [s|s| |s m e]; try discriminate.
  - right. destruct s; split; reflexivity.
  - destruct s; simpl; auto.
  - unfold fminf.
    destruct (SFltb (S754_finite false 8388608 (-23)) (S754_finite s m e)) eqn:E.
    + left; auto.
    + right; split; [reflexivity|].
      apply ltb_false_leb in E; auto.
Qed.

Lemma clamp01_unfold (v : float) : clamp01 v = fminf (fmaxf v pzero) one.
Proof. reflexivity. Qed.

(** The clamp lands in [[0, 1]] on every input. *)
Lemma clamp01_range (v : float) :
  SFleb pzero (clamp01 v) = true /\ SFleb (clamp01 v) one = true.
Proof.
  rewrite clamp01_unfold.
  destruct (fminf_one_cases (fmaxf v pzero) (fmaxf_zero_not_nan v)) as [[-> _]|[-> L]].
  - split; reflexivity.
  - split; [apply fmaxf_zero_nonneg | exact L].
Qed.

Lemma clamp01_fixed (t : float) :
  SFleb pzero t = true -> SFleb t one = true ->
  t <> nzero -> clamp01 t = t.
Proof.
  intros H0 H1 Hz. rewrite clamp01_unfold.
  assert (M : fmaxf t pzero = t).
  { unfold nzero, pzero in *.
    destruct t as [[]|[]| |[] m e]; simpl in *; try congruence;
      compute in H0; discriminate. }
  rewrite M.
  assert (N : is_nan t = false) by (destruct t; try reflexivity; discriminate H0).
  destruct (fminf_one_cases t N) as [[_ L]|[E _]]; [|exact E].
  exfalso. unfold SFltb, SFleb in *. rewrite (SFcompare_antisym t one) in H1.
  destruct (SFcompare one t) as [[]|]; simpl in *; congruence.
Qed.

Lemma clamp01_not_nzero (v : float) : clamp01 v <> nzero.
Proof.
  rewrite clamp01_unfold.
  destruct (fminf_one_cases (fmaxf v pzero) (fmaxf_zero_not_nan v)) as [[-> _]|[-> _]].
  - discriminate.
  - destruct v as [[]|[]| |[] m e]; simpl; discriminate.
Qed.

Lemma clamp01_idem (v : float) : clamp01 (clamp01 v) = clamp01 v.
Proof.
  destruct (clamp01_range v) as [H0 H1].
  apply clamp01_fixed; auto using clamp01_not_nzero.
Qed.

End Clamp.

(* ===================================================================== *)
(** * Machine integers: no wrap-around inside the range *)
(* ===================================================================== *)

Module IntFacts.

Lemma wrap32_id (z : Z) : int_range z -> wrap32 z = z.
Proof.
  unfold int_range, INT_MIN, INT_MAX, wrap32. intros R.
  rewrite Z.mod_small; lia.
Qed.

Lemma wrap32_range (z : Z) : int_range (wrap32 z).
Proof.
  unfold int_range, INT_MIN, INT_MAX, wrap32.
  pose proof (Z.mod_pos_bound (z + 2 ^ 31) (2 ^ 32)). lia.
Qed.

Lemma iadd_id (a b : Z) : int_range (a + b) -> iadd a b = a + b.
Proof. apply wrap32_id. Qed.

Lemma isub_id (a b : Z) : int_range (a - b) -> isub a b = a - b.
Proof. apply wrap32_id. Qed.

Lemma imul_id (a b : Z) : int_range (a * b) -> imul a b = a * b.
Proof. apply wrap32_id. Qed.

Lemma land_1 (x : Z) : Z.land x 1 = if Z.odd x then 1 else 0.
Proof.
  change 1 with (Z.ones 1) at 1. rewrite Z.land_ones by lia.
  change (2 ^ 1) with 2. apply Zmod_odd.
Qed.

Lemma rem_2 (x : Z) : 0 <= x -> irem x 2 = if Z.odd x then 1 else 0.
Proof.
  intros Hx. unfold irem. rewrite Z.rem_mod_nonneg by lia. apply Zmod_odd.
Qed.

(** The interleaved offset of a pixel, when the float buffer is
    addressable by an [int]. *)
Lemma pixel_offset (w h x y : Z) :
  0 <= x < w -> 0 <= y < h -> 3 * (w * h) <= INT_MAX ->
  imul (iadd (imul y w) x) 3 = (y * w + x) * 3 /\
  0 <= (y * w + x) * 3 /\ (y * w + x) * 3 + 2 <= INT_MAX.
Proof.
  intros Hx Hy Hs. unfold INT_MAX in *.
  assert (B : 0 <= y * w + x < w * h) by nia.
  rewrite (imul_id y w) by (unfold int_range, INT_MIN, INT_MAX; nia).
  rewrite (iadd_id (y * w) x) by (unfold int_range, INT_MIN, INT_MAX; nia).
  rewrite imul_id by (unfold int_range, INT_MIN, INT_MAX; nia).
  nia.
Qed.

End IntFacts.

(* ===================================================================== *)
(** * Stores of one thread and of a launch *)
(* ===================================================================== *)

Module Stores.
Section Stores.

Context {F : Type}.

Lemma writes_to_nil (i : Z) : writes_to i (@nil (store F)) = 0%nat.
Proof. reflexivity. Qed.

Lemma writes_to_app (i : Z) (l1 l2 : list (store F)) :
writes_to i (l1 ++ l2) = (writes_to i l1 + writes_to i l2)%nat.
Proof. unfold writes_to. now rewrite filter_app, length_app. Qed.

Lemma writes_to_cons (i : Z) (s : store F) (l : list (store F)) :
writes_to i (s :: l) =
((if decide (fst s = i) then 1 else 0) + writes_to i l)%nat.
Proof.
unfold writes_to. rewrite filter_cons.
destruct (decide (fst s = i)); reflexivity.
Qed.

(** A list of per-item logs in which only one item, occurring once,
  touches [i]. *)
Lemma writes_to_flat_map_zero {A : Type} (f : A -> list (store F))
  (i : Z) (l : list A) :
(forall a, In a l -> writes_to i (f a) = 0%nat) ->
writes_to i (flat_map f l) = 0%nat.
Proof.
induction l as [|a l IH]; intros Hz; simpl; [reflexivity|].
rewrite writes_to_app, Hz by (now left).
rewrite IH; [reflexivity|]. intros b Hb. apply Hz. now right.
Qed.

Lemma writes_to_flat_map_one {A : Type} (f : A -> list (store F))
  (i : Z) (l : list A) (a0 : A) :
List.NoDup l -> In a0 l ->
(forall a, In a l -> a <> a0 -> writes_to i (f a) = 0%nat) ->
writes_to i (flat_map f l) = writes_to i (f a0).
Proof.
induction l as [|a l IH]; intros Hnd Hin Hz; [destruct Hin|].
simpl. rewrite writes_to_app. inversion Hnd as [|? ? Hni Hnd']; subst.
destruct Hin as [->|Hin].
- rewrite writes_to_flat_map_zero; [lia|].
  intros b Hb. apply Hz; [now right|]. intros ->. contradiction.
- rewrite Hz, IH; auto.
  + intros b Hb Hne. apply Hz; auto. now right.
  + now left.
  + intros ->. contradiction.
Qed.

(** A location no store hits keeps its content. *)
Lemma run_stores_frame (i : Z) (log : list (store F)) (out : gmap Z F) :
writes_to i log = 0%nat -> run_stores out log !! i = out !! i.
Proof.
revert out. induction log as [|s log IH]; intros out Hz; [reflexivity|].
rewrite writes_to_cons in Hz.
destruct (decide (fst s = i)) as [E|N]; [discriminate|].
change (run_stores out (s :: log)) with (run_stores (<[fst s := snd s]> out) log).
rewrite IH by (simpl in Hz; lia).
now rewrite lookup_insert_ne.
Qed.

End Stores.
End Stores.

(* ===================================================================== *)
(** * Which locations a demosaic launch stores to *)
(* ===================================================================== *)

Module Border.
Section Border.

Context {F : Type} `{FloatOps F}.

Import IntFacts Stores.

Lemma interiorb_spec (w h x y : Z) :
Spec.interiorb w h x y = true <-> Spec.interior w h x y.
Proof. unfold Spec.interiorb, Spec.interior. lia. Qed.

Lemma guard_false (w h x y : Z) :
Spec.sized w h ->
((x <? 1) || (x >=? isub w 1) || (y <? 1) || (y >=? isub h 1)) =
negb (Spec.interiorb w h x y).
Proof.
intros (Hw & Hh & Hs). unfold INT_MAX in Hs.
rewrite !isub_id by (unfold int_range, INT_MIN, INT_MAX; nia).
unfold Spec.interiorb. lia.
Qed.

Lemma offsets_of_stores (w h x y : Z) (a b c : F) :
Spec.sized w h -> Spec.interiorb w h x y = true ->
let idx := imul (iadd (imul y w) x) 3 in
map fst [ (idx, a); (iadd idx 1, b); (iadd idx 2, c) ] = Spec.offsets w h x y.
Proof.
intros (Hw & Hh & Hs) Hi. unfold Spec.offsets. rewrite Hi.
apply interiorb_spec in Hi. destruct Hi as [Hx Hy].
destruct (pixel_offset w h x y) as [E [L U]]; try lia.
cbv zeta. rewrite E. simpl.
rewrite !iadd_id by (unfold int_range, INT_MIN, INT_MAX in *; lia).
reflexivity.
Qed.

Lemma fma_offsets (inp : list Z) (p : params F) (x y : Z) :
Spec.sized (width p) (height p) ->
map fst (Fma.debayer16_to_xyz inp p x y) = Spec.offsets (width p) (height p) x y.
Proof.
intros Hs. unfold Fma.debayer16_to_xyz. rewrite guard_false by assumption.
destruct (Spec.interiorb (width p) (height p) x y) eqn:E; simpl negb; cbv iota.
- cbv zeta. now apply offsets_of_stores.
- unfold Spec.offsets. now rewrite E.
Qed.

Lemma plain_offsets (inp : list Z) (p : params F) (x y : Z) :
Spec.sized (width p) (height p) ->
map fst (Plain.debayer16_to_xyz inp p x y) = Spec.offsets (width p) (height p) x y.
Proof.
intros Hs. unfold Plain.debayer16_to_xyz. rewrite guard_false by assumption.
destruct (Spec.interiorb (width p) (height p) x y) eqn:E; simpl negb; cbv iota.
- cbv zeta. now apply offsets_of_stores.
- unfold Spec.offsets. now rewrite E.
Qed.

Lemma writes_to_fst (i : Z) (log : list (store F)) :
writes_to i log = length (filter (fun j => j = i) (map fst log)).
Proof.
induction log as [|s log IH]; [reflexivity|].
rewrite writes_to_cons, IH. simpl map. rewrite filter_cons.
destruct (decide (fst s = i)); reflexivity.
Qed.

(** Distinct pixels of the image have disjoint Spec.offsets. *)
Lemma offset_inj (w x y c x' y' c' : Z) :
0 <= x < w -> 0 <= x' < w -> 0 <= c < 3 -> 0 <= c' < 3 ->
(y * w + x) * 3 + c = (y' * w + x') * 3 + c' ->
x = x' /\ y = y' /\ c = c'.
Proof.
intros Hx Hx' Hc Hc' E.
assert (c = c') by lia. subst c'.
assert (E' : y * w + x = y' * w + x') by lia.
assert (y = y') by nia. subst y'.
lia.
Qed.

Section Counting.

Variable kernel : Z -> Z -> list (store F).
Variables w h : Z.
Hypothesis kernel_offsets :
forall x y, map fst (kernel x y) = Spec.offsets w h x y.

Lemma thread_other (x y c x' y' : Z) :
0 <= x < w -> 0 <= c < 3 -> (x', y') <> (x, y) ->
writes_to ((y * w + x) * 3 + c) (kernel x' y') = 0%nat.
Proof.
intros Hx Hc Hne. rewrite writes_to_fst, kernel_offsets. unfold Spec.offsets.
destruct (Spec.interiorb w h x' y') eqn:E; [|reflexivity].
apply interiorb_spec in E. destruct E as [Hx' Hy'].
assert (N : forall c', 0 <= c' < 3 ->
          (y' * w + x') * 3 + c' <> (y * w + x) * 3 + c).
{ intros c' Hc' E. apply offset_inj in E; try lia.
  destruct E as [E1 [E2 _]]. subst. now apply Hne. }
pose proof (N 0 ltac:(lia)) as N0. rewrite Z.add_0_r in N0.
pose proof (N 1 ltac:(lia)) as N1.
pose proof (N 2 ltac:(lia)) as N2.
rewrite !filter_cons, filter_nil.
repeat (destruct (decide _); try contradiction). reflexivity.
Qed.

Lemma thread_border (x y : Z) :
Spec.border w h x y -> kernel x y = [].
Proof.
intros (Hx & Hy & Hb).
assert (E : Spec.interiorb w h x y = false).
{ destruct (Spec.interiorb w h x y) eqn:E; [|reflexivity].
  apply interiorb_spec in E. unfold Spec.interior in E. lia. }
pose proof (kernel_offsets x y) as K. unfold Spec.offsets in K. rewrite E in K.
destruct (kernel x y); [reflexivity | discriminate].
Qed.

Lemma thread_self (x y c : Z) :
Spec.interior w h x y -> 0 <= c < 3 ->
writes_to ((y * w + x) * 3 + c) (kernel x y) = 1%nat.
Proof.
intros Hi Hc. rewrite writes_to_fst, kernel_offsets. unfold Spec.offsets.
apply interiorb_spec in Hi. rewrite Hi.
rewrite !filter_cons, filter_nil.
assert (Cs : c = 0 \/ c = 1 \/ c = 2) by lia.
destruct Cs as [-> | [-> | ->]];
  repeat (destruct (decide _); try lia); reflexivity.
Qed.

(** The stores of the whole launch that hit one component of one pixel
  of the image. *)
Lemma launch_writes (gx gy x y c : Z) :
w <= gx -> h <= gy -> 0 <= x < w -> 0 <= y < h -> 0 <= c < 3 ->
writes_to ((y * w + x) * 3 + c) (launch kernel gx gy) =
writes_to ((y * w + x) * 3 + c) (kernel x y).
Proof.
intros Hgx Hgy Hx Hy Hc. unfold launch.
rewrite (writes_to_flat_map_one _ _ _ y).
- rewrite (writes_to_flat_map_one _ _ _ x); [reflexivity| | |].
  + apply NoDup_ListNoDup, NoDup_seqZ.
  + apply list_elem_of_In, elem_of_seqZ. lia.
  + intros x' _ Hne. apply thread_other; auto. congruence.
- apply NoDup_ListNoDup, NoDup_seqZ.
- apply list_elem_of_In, elem_of_seqZ. lia.
- intros y' _ Hne. apply writes_to_flat_map_zero.
  intros x' _. apply thread_other; auto. congruence.
Qed.

End Counting.

End Border.
End Border.

(* ===================================================================== *)
(** * Demosaic: the branch taken is a function of the parities *)
(* ===================================================================== *)

Module Parity.
Section Parity.

Context {F : Type} `{FloatOps F}.

Import IntFacts.

Lemma neighbours_in_range (w h x y : Z) :
Spec.addressable w h -> Spec.interior w h x y ->
isub x 1 = x - 1 /\ iadd x 1 = x + 1 /\ isub y 1 = y - 1 /\
iadd y 1 = y + 1 /\ iadd x y = x + y.
Proof.
intros (Hw & Hh & Hs) [Hx Hy]. unfold INT_MAX in Hs.
assert (w <= w * h) by nia. assert (h <= w * h) by nia.
assert (w + h <= w * h) by nia.
repeat split; apply wrap32_id; unfold int_range, INT_MIN, INT_MAX; lia.
Qed.

Lemma fma_get_red_rule (inp : list Z) (w h x y black : Z) (inv_range : F) :
Spec.addressable w h -> Spec.interior w h x y ->
Fma.get_red inp x y w black inv_range =
Spec.reconstruct Spec.fma_mean2 Spec.fma_mean4 (Spec.fma_sample inp w black inv_range)
  (Spec.red_rule (Z.odd x) (Z.odd y)) x y.
Proof.
intros Ha Hi.
destruct (neighbours_in_range w h x y Ha Hi) as (E1 & E2 & E3 & E4 & _).
unfold Fma.get_red. cbv zeta. rewrite !land_1, E1, E2, E3, E4.
destruct (Z.odd x), (Z.odd y); reflexivity.
Qed.

Lemma fma_get_green_rule (inp : list Z) (w h x y black : Z) (inv_range : F) :
Spec.addressable w h -> Spec.interior w h x y ->
Fma.get_green inp x y w black inv_range =
Spec.reconstruct Spec.fma_mean2 Spec.fma_mean4 (Spec.fma_sample inp w black inv_range)
  (Spec.green_rule (Z.odd x) (Z.odd y)) x y.
Proof.
intros Ha Hi.
destruct (neighbours_in_range w h x y Ha Hi) as (E1 & E2 & E3 & E4 & E5).
unfold Fma.get_green. rewrite !land_1, E1, E2, E3, E4, E5, Z.odd_add.
destruct (Z.odd x), (Z.odd y); reflexivity.
Qed.

Lemma fma_get_blue_rule (inp : list Z) (w h x y black : Z) (inv_range : F) :
Spec.addressable w h -> Spec.interior w h x y ->
Fma.get_blue inp x y w black inv_range =
Spec.reconstruct Spec.fma_mean2 Spec.fma_mean4 (Spec.fma_sample inp w black inv_range)
  (Spec.blue_rule (Z.odd x) (Z.odd y)) x y.
Proof.
intros Ha Hi.
destruct (neighbours_in_range w h x y Ha Hi) as (E1 & E2 & E3 & E4 & _).
unfold Fma.get_blue. cbv zeta. rewrite !land_1, E1, E2, E3, E4.
destruct (Z.odd x), (Z.odd y); reflexivity.
Qed.

Lemma plain_get_red_rule (inp : list Z) (w h x y black : Z) (range : F) :
Spec.addressable w h -> Spec.interior w h x y ->
Plain.get_red inp x y w black range =
Spec.reconstruct Spec.plain_mean2 Spec.plain_mean4 (Spec.plain_sample inp w black range)
  (Spec.red_rule (Z.odd x) (Z.odd y)) x y.
Proof.
intros Ha Hi.
destruct (neighbours_in_range w h x y Ha Hi) as (E1 & E2 & E3 & E4 & _).
destruct Hi as [Hx Hy].
unfold Plain.get_red. cbv zeta. rewrite !rem_2, E1, E2, E3, E4 by lia.
destruct (Z.odd x), (Z.odd y); reflexivity.
Qed.

Lemma plain_get_green_rule (inp : list Z) (w h x y black : Z) (range : F) :
Spec.addressable w h -> Spec.interior w h x y ->
Plain.get_green inp x y w black range =
Spec.reconstruct Spec.plain_mean2 Spec.plain_mean4 (Spec.plain_sample inp w black range)
  (Spec.green_rule (Z.odd x) (Z.odd y)) x y.
Proof.
intros Ha Hi.
destruct (neighbours_in_range w h x y Ha Hi) as (E1 & E2 & E3 & E4 & E5).
destruct Hi as [Hx Hy].
unfold Plain.get_green. cbv zeta.
rewrite E1, E2, E3, E4, E5, rem_2, Z.odd_add by lia.
destruct (Z.odd x), (Z.odd y); reflexivity.
Qed.

Lemma plain_get_blue_rule (inp : list Z) (w h x y black : Z) (range : F) :
Spec.addressable w h -> Spec.interior w h x y ->
Plain.get_blue inp x y w black range =
Spec.reconstruct Spec.plain_mean2 Spec.plain_mean4 (Spec.plain_sample inp w black range)
  (Spec.blue_rule (Z.odd x) (Z.odd y)) x y.
Proof.
intros Ha Hi.
destruct (neighbours_in_range w h x y Ha Hi) as (E1 & E2 & E3 & E4 & _).
destruct Hi as [Hx Hy].
unfold Plain.get_blue. cbv zeta. rewrite !rem_2, E1, E2, E3, E4 by lia.
destruct (Z.odd x), (Z.odd y); reflexivity.
Qed.

End Parity.
End Parity.

(* ===================================================================== *)
(** * The colour transform both FMA entry points share *)
(* ===================================================================== *)

Module Pipeline.
Section Pipeline.

Context {F : Type} `{FloatOps F}.

Import IntFacts.

Lemma offset_successors (w h x y : Z) :
Spec.sized w h -> 0 <= x < w -> 0 <= y < h ->
let idx := imul (iadd (imul y w) x) 3 in
idx = (y * w + x) * 3 /\ iadd idx 1 = (y * w + x) * 3 + 1 /\
iadd idx 2 = (y * w + x) * 3 + 2.
Proof.
intros (Hw & Hh & Hs) Hx Hy.
destruct (pixel_offset w h x y) as [E [L U]]; try lia.
cbv zeta. rewrite E.
rewrite !iadd_id by (unfold int_range, INT_MIN, INT_MAX in *; lia).
auto.
Qed.

(** In range, [apply_color_pipeline] stores the colour transform of the
  normalised, white-balanced raw triple. *)
Lemma color_steps (rgb_in : list Z) (p : params F) (x y : Z) :
Spec.sized (width p) (height p) ->
0 <= x < width p -> 0 <= y < height p ->
Color.apply_color_pipeline rgb_in p x y =
Spec.stores_at ((y * width p + x) * 3)
  (Spec.color_transform (cam_to_xyz p) (Spec.color_cam rgb_in p x y)).
Proof.
intros Hs Hx Hy.
destruct (offset_successors _ _ x y Hs Hx Hy) as (E0 & E1 & E2).
unfold Color.apply_color_pipeline.
replace ((x >=? width p) || (y >=? height p)) with false by lia.
cbv zeta in *. rewrite E1, E2, E0. reflexivity.
Qed.

(** At an interior pixel, the FMA [debayer16_to_xyz] stores the colour
  transform of the demosaiced, white-balanced triple. *)
Lemma debayer_steps (inp : list Z) (p : params F) (x y : Z) :
Spec.sized (width p) (height p) ->
Spec.interior (width p) (height p) x y ->
Fma.debayer16_to_xyz inp p x y =
Spec.stores_at ((y * width p + x) * 3)
  (Spec.color_transform (cam_to_xyz p) (Spec.demosaic_cam inp p x y)).
Proof.
intros Hs Hi. pose proof Hi as [Hx Hy].
destruct (offset_successors _ _ x y Hs) as (E0 & E1 & E2); try lia.
unfold Fma.debayer16_to_xyz.
rewrite Border.guard_false by assumption.
apply Border.interiorb_spec in Hi. rewrite Hi. simpl negb. cbv iota.
cbv zeta in *. rewrite E1, E2, E0. reflexivity.
Qed.

Lemma plain_steps (inp : list Z) (p : params F) (x y : Z) :
Spec.sized (width p) (height p) ->
Spec.interior (width p) (height p) x y ->
Plain.debayer16_to_xyz inp p x y =
Spec.stores_at ((y * width p + x) * 3)
  (Spec.plain_color_transform (cam_to_xyz p) (Spec.plain_cam inp p x y)).
Proof.
intros Hs Hi. pose proof Hi as [Hx Hy].
destruct (offset_successors _ _ x y Hs) as (E0 & E1 & E2); try lia.
unfold Plain.debayer16_to_xyz.
rewrite Border.guard_false by assumption.
apply Border.interiorb_spec in Hi. rewrite Hi. simpl negb. cbv iota.
cbv zeta in *. rewrite E1, E2, E0. reflexivity.
Qed.


End Pipeline.
End Pipeline.

(* ===================================================================== *)
(** * Round to nearest even: what [binary_round_aux] computes *)
(* ===================================================================== *)

Module Round.

Import RoundDefs.

Lemma fexp_eq (e : Z) : fexp prec emax e = Z.max (e - 24) (-149).
Proof. reflexivity. Qed.

Lemma fexp_ge_emin (e : Z) : emin <= fexp prec emax e.
Proof. rewrite fexp_eq. unfold emin. lia. Qed.

Lemma fexp_mono (a b : Z) : a <= b -> fexp prec emax a <= fexp prec emax b.
Proof. rewrite !fexp_eq. lia. Qed.

(** ** Digits *)

Lemma digits2_size (p : positive) : digits2_pos p = Pos.size p.
Proof. induction p; simpl; congruence. Qed.

Lemma Zdigits2_pos_bounds (p : positive) :
  2 ^ (Zdigits2 (Zpos p) - 1) <= Zpos p < 2 ^ Zdigits2 (Zpos p).
Proof.
  simpl. rewrite digits2_size.
  pose proof (Pos.size_gt p) as G. pose proof (Pos.size_le p) as L.
  apply Pos2Z.pos_lt_pos in G. apply Pos2Z.pos_le_pos in L.
  rewrite Pos2Z.inj_pow in G, L.
  change (Zpos p~0) with (2 * Zpos p) in L.
  replace (Zpos (Pos.size p)) with (Zpos (Pos.size p) - 1 + 1) in L at 1 by lia.
  rewrite Z.pow_add_r in L by lia. change (2 ^ 1) with 2 in L. lia.
Qed.

Lemma Zdigits2_nonneg (m : Z) : 0 <= Zdigits2 m.
Proof. destruct m; simpl; lia. Qed.

Lemma Zdigits2_bounds (m : Z) :
  0 < m -> 2 ^ (Zdigits2 m - 1) <= m < 2 ^ Zdigits2 m.
Proof. destruct m as [|p|p]; try lia. intros _. apply Zdigits2_pos_bounds. Qed.

Lemma Zdigits2_upper (m : Z) : 0 <= m -> m < 2 ^ Zdigits2 m.
Proof.
  intros Hm. destruct m as [|p|p]; try lia.
  - simpl. lia.
  - apply Zdigits2_pos_bounds.
Qed.

(** The number of digits is fixed by a power-of-two bracket. *)
Lemma Zdigits2_unique (m d : Z) :
  2 ^ (d - 1) <= m < 2 ^ d -> 0 < d -> Zdigits2 m = d.
Proof.
  intros B Hd.
  assert (Hm : 0 < m) by (pose proof (Z.pow_pos_nonneg 2 (d - 1)); lia).
  pose proof (Zdigits2_bounds m Hm) as B'.
  pose proof (Zdigits2_nonneg m) as N.
  destruct (Z.lt_trichotomy (Zdigits2 m) d) as [L|[E|G]]; [|exact E|].
  - assert (2 ^ Zdigits2 m <= 2 ^ (d - 1)) by (apply Z.pow_le_mono_r; lia). lia.
  - assert (2 ^ d <= 2 ^ (Zdigits2 m - 1)) by (apply Z.pow_le_mono_r; lia). lia.
Qed.

Lemma Zdigits2_le (m d : Z) : 0 <= m -> 0 <= d -> m < 2 ^ d -> Zdigits2 m <= d.
Proof.
  intros Hm Hd B. destruct (Z.eq_dec m 0) as [->|Hz]; [simpl; lia|].
  pose proof (Zdigits2_bounds m ltac:(lia)) as B'.
  destruct (Z.le_gt_cases (Zdigits2 m) d) as [L|G]; [exact L|].
  assert (2 ^ d <= 2 ^ (Zdigits2 m - 1)) by (apply Z.pow_le_mono_r; lia). lia.
Qed.

Lemma Zdigits2_ge (m d : Z) : 0 < d -> 2 ^ (d - 1) <= m -> d <= Zdigits2 m.
Proof.
  intros Hd B.
  assert (Hm : 0 < m) by (pose proof (Z.pow_pos_nonneg 2 (d - 1)); lia).
  pose proof (Zdigits2_bounds m Hm) as B'.
  destruct (Z.le_gt_cases d (Zdigits2 m)) as [L|G]; [exact L|].
  assert (2 ^ Zdigits2 m <= 2 ^ (d - 1)) by (apply Z.pow_le_mono_r; pose proof (Zdigits2_nonneg m); lia).
  lia.
Qed.

(** ** Location of a fraction and shifting right *)

Lemma loc_of_record_of_loc (m : Z) (l : location) :
  loc_of_shr_record (shr_record_of_loc m l) = l.
Proof. destruct l as [|[]]; reflexivity. Qed.

Lemma shr_m_record_of_loc (m : Z) (l : location) :
  shr_m (shr_record_of_loc m l) = m.
Proof. destruct l as [|[]]; reflexivity. Qed.

Lemma represents_quot (N D : Z) (mrs : shr_record) :
  represents N D mrs -> shr_m mrs = N / D.
Proof.
  intros (HD & Hm & B & _).
  apply Z.div_unique with (r := N - shr_m mrs * D); lia.
Qed.

Lemma represents_rne (N D : Z) (mrs : shr_record) :
  represents N D mrs ->
  round_nearest_even (shr_m mrs) (loc_of_shr_record mrs) = rne N D.
Proof.
  intros R. pose proof (represents_quot N D mrs R) as Q.
  destruct R as (_ & _ & _ & L). unfold rne. now rewrite L, Q.
Qed.

Lemma shr_1_represents (N D : Z) (mrs : shr_record) :
  represents N D mrs -> represents N (2 * D) (shr_1 mrs).
Proof.
  destruct mrs as [m r s]. unfold represents, location_of. simpl.
  intros (HD & Hm & B & L).
  destruct m as [|[p|p|]|p]; try lia; simpl.
  - (* 0 *)
    split; [lia|]. split; [lia|]. split; [lia|].
    destruct (Z.eqb_spec N (0 * D)) as [E|NE].
    + destruct r, s; try discriminate. simpl.
      destruct (Z.eqb_spec N (0 * (2 * D))); [reflexivity|lia].
    + destruct (Z.eqb_spec N (0 * (2 * D))); [lia|].
      assert (orb r s = true) as -> by (destruct r, s; simpl in *; congruence).
      f_equal. symmetry. apply Z.compare_lt_iff. lia.
  - (* 2p+1 *)
    split; [lia|]. split; [lia|]. split; [lia|].
    destruct (Z.eqb_spec N (Z.pos p~1 * D)) as [E|NE].
    + destruct r, s; try discriminate. simpl.
      destruct (Z.eqb_spec N (Z.pos p * (2 * D))); [lia|].
      f_equal. symmetry. apply Z.compare_eq_iff. lia.
    + destruct (Z.eqb_spec N (Z.pos p * (2 * D))); [lia|].
      assert (orb r s = true) as -> by (destruct r, s; simpl in *; congruence).
      f_equal. symmetry. apply Z.compare_gt_iff. lia.
  - (* 2p *)
    split; [lia|]. split; [lia|]. split; [lia|].
    destruct (Z.eqb_spec N (Z.pos p~0 * D)) as [E|NE].
    + destruct r, s; try discriminate. simpl.
      destruct (Z.eqb_spec N (Z.pos p * (2 * D))); [reflexivity|lia].
    + destruct (Z.eqb_spec N (Z.pos p * (2 * D))); [lia|].
      assert (orb r s = true) as -> by (destruct r, s; simpl in *; congruence).
      f_equal. symmetry. apply Z.compare_lt_iff. lia.
  - (* 1 *)
    split; [lia|]. split; [lia|]. split; [lia|].
    destruct (Z.eqb_spec N (1 * D)) as [E|NE].
    + destruct r, s; try discriminate. simpl.
      destruct (Z.eqb_spec N (0 * (2 * D))); [lia|].
      f_equal. symmetry. apply Z.compare_eq_iff. lia.
    + destruct (Z.eqb_spec N (0 * (2 * D))); [lia|].
      assert (orb r s = true) as -> by (destruct r, s; simpl in *; congruence).
      f_equal. symmetry. apply Z.compare_gt_iff. lia.
Qed.

Lemma iter_shr_1_represents (p : positive) :
  forall (N D : Z) (mrs : shr_record),
    represents N D mrs ->
    represents N (D * 2 ^ Zpos p) (SpecFloat.iter_pos shr_1 p mrs).
Proof.
  induction p as [p IH|p IH|]; intros N D mrs R; simpl SpecFloat.iter_pos.
  - apply shr_1_represents in R. apply IH in R. apply IH in R.
    replace (D * 2 ^ Z.pos p~1) with (2 * D * 2 ^ Z.pos p * 2 ^ Z.pos p); [exact R|].
    replace (Z.pos p~1) with (Z.pos p + Z.pos p + 1) by lia.
    rewrite !Z.pow_add_r by lia. change (2 ^ 1) with 2. ring.
  - apply IH in R. apply IH in R.
    replace (D * 2 ^ Z.pos p~0) with (D * 2 ^ Z.pos p * 2 ^ Z.pos p); [exact R|].
    replace (Z.pos p~0) with (Z.pos p + Z.pos p) by lia.
    rewrite !Z.pow_add_r by lia. ring.
  - apply shr_1_represents in R. change (2 ^ 1) with 2.
    now rewrite Z.mul_comm.
Qed.

(** ** Rounding a fraction to an integer *)

Lemma rne_cases (N D : Z) :
  0 < D ->
  let q := N / D in
  let r := N - q * D in
  0 <= r < D /\
  (2 * r < D -> rne N D = q) /\
  (D < 2 * r -> rne N D = q + 1) /\
  (2 * r = D -> rne N D = if Z.even q then q else q + 1).
Proof.
  intros HD q r.
  assert (Hr : 0 <= r < D).
  { unfold r, q. pose proof (Z.mod_pos_bound N D HD) as B.
    rewrite Z.mod_eq in B by lia. lia. }
  split; [exact Hr|].
  unfold rne, location_of. fold q.
  destruct (Z.eqb_spec N (q * D)) as [E|NE].
  - assert (r = 0) by (unfold r; lia).
    simpl. repeat split; intros; try lia.
  - assert (r <> 0) by (unfold r; lia).
    destruct (Z.compare_spec (2 * N) ((2 * q + 1) * D)) as [E|L|G];
      simpl; repeat split; intros; unfold r in *; try lia.
Qed.

Lemma rne_bounds (N D : Z) : 0 < D -> N / D <= rne N D <= N / D + 1.
Proof.
  intros HD. destruct (rne_cases N D HD) as (Hr & C1 & C2 & C3).
  set (q := N / D) in *. set (r := N - q * D) in *.
  destruct (Z.lt_trichotomy (2 * r) D) as [L|[E|G]].
  - rewrite C1 by assumption. lia.
  - rewrite C3 by assumption. destruct (Z.even q); lia.
  - rewrite C2 by assumption. lia.
Qed.

Lemma rne_exact (z D : Z) : 0 < D -> rne (z * D) D = z.
Proof.
  intros HD. destruct (rne_cases (z * D) D HD) as (Hr & C1 & _).
  rewrite Z.div_mul in * by lia. apply C1. lia.
Qed.

Lemma rne_ge (N D z : Z) : 0 < D -> z * D <= N -> z <= rne N D.
Proof.
  intros HD H. pose proof (rne_bounds N D HD).
  assert (z <= N / D) by (apply Z.div_le_lower_bound; lia). lia.
Qed.

Lemma rne_le (N D z : Z) : 0 < D -> N <= z * D -> rne N D <= z.
Proof.
  intros HD H. destruct (Z.eq_dec N (z * D)) as [->|NE].
  - rewrite rne_exact by assumption. lia.
  - pose proof (rne_bounds N D HD).
    assert (N / D < z) by (apply Z.div_lt_upper_bound; lia). lia.
Qed.

Lemma rne_mono (N1 D1 N2 D2 : Z) :
  0 < D1 -> 0 < D2 -> N1 * D2 <= N2 * D1 -> rne N1 D1 <= rne N2 D2.
Proof.
  intros H1 H2 H.
  destruct (rne_cases N1 D1 H1) as (Hr1 & A1 & A2 & A3).
  destruct (rne_cases N2 D2 H2) as (Hr2 & B1 & B2 & B3).
  pose proof (rne_bounds N1 D1 H1) as Bd1.
  pose proof (rne_bounds N2 D2 H2) as Bd2.
  set (q1 := N1 / D1) in *. set (q2 := N2 / D2) in *.
  set (r1 := N1 - q1 * D1) in *. set (r2 := N2 - q2 * D2) in *.
  assert (E1 : N1 = q1 * D1 + r1) by (unfold r1; lia).
  assert (E2 : N2 = q2 * D2 + r2) by (unfold r2; lia).
  assert (Q : q1 <= q2).
  { destruct (Z.le_gt_cases q1 q2) as [L|G]; [exact L|exfalso].
    assert (q2 + 1 <= q1) by lia.
    assert ((q2 + 1) * D1 * D2 <= q1 * D1 * D2) by nia.
    nia. }
  destruct (Z.eq_dec q1 q2) as [E|NE]; [|lia].
  assert (R : r1 * D2 <= r2 * D1) by nia.
  clearbody q1 q2 r1 r2.
  destruct (Z.lt_trichotomy (2 * r1) D1) as [L|[T|G]].
  - rewrite A1 by assumption. lia.
  - rewrite A3 by assumption.
    destruct (Z.lt_trichotomy (2 * r2) D2) as [L'|[T'|G']].
    + exfalso. nia.
    + rewrite B3 by assumption. rewrite E. lia.
    + rewrite B2 by assumption. destruct (Z.even q1); lia.
  - rewrite A2 by assumption.
    destruct (Z.lt_trichotomy (2 * r2) D2) as [L'|[T'|G']].
    + exfalso. nia.
    + exfalso. nia.
    + rewrite B2 by assumption. lia.
Qed.

Lemma rne_scale (N D c : Z) : 0 < D -> 0 < c -> rne (N * c) (D * c) = rne N D.
Proof.
  intros HD Hc. apply Z.le_antisymm; apply rne_mono; nia.
Qed.

Lemma rne_nonneg (N D : Z) : 0 < D -> 0 <= N -> 0 <= rne N D.
Proof. intros HD HN. apply rne_ge; lia. Qed.

(** ** What [binary_round_aux] computes *)

Lemma shr_fexp_represents (N D mx ex : Z) (lx : location) :
  represents N D (shr_record_of_loc mx lx) ->
  exists mrs,
    shr_fexp prec emax mx ex lx = (mrs, round_exp mx ex) /\
    represents N (D * 2 ^ (round_exp mx ex - ex)) mrs.
Proof.
  intros R. unfold shr_fexp, shr, round_exp.
  destruct (fexp prec emax (Zdigits2 mx + ex) - ex) as [|p|p] eqn:K.
  - exists (shr_record_of_loc mx lx).
    replace (Z.max ex _) with ex by lia.
    rewrite Z.sub_diag, Z.mul_1_r. auto.
  - exists (SpecFloat.iter_pos shr_1 p (shr_record_of_loc mx lx)).
    replace (Z.max ex _) with (ex + Z.pos p) by lia.
    replace (ex + Z.pos p - ex) with (Z.pos p) by lia.
    split; [reflexivity|]. now apply iter_shr_1_represents.
  - exists (shr_record_of_loc mx lx).
    replace (Z.max ex _) with ex by lia.
    rewrite Z.sub_diag, Z.mul_1_r. auto.
Qed.

Lemma pow_prec : 2 ^ prec = 16777216.
Proof. reflexivity. Qed.

(** The second alignment of [binary_round_aux] only acts when rounding
    carried into a new binade. *)
Lemma repack (s : bool) (n e : Z) :
  0 <= n <= 2 ^ prec -> emin <= e ->
  (let '(mrs, e') := shr_fexp prec emax n e loc_Exact in
   match shr_m mrs with
   | Z0 => S754_zero s
   | Zpos m => if e' <=? emax - prec then S754_finite s m e' else S754_infinity s
   | Zneg _ => S754_nan
   end) = packed s n e.
Proof.
  intros Hn He. rewrite pow_prec in Hn. unfold emin in He.
  destruct (Z.eq_dec n 16777216) as [->|Hne].
  - unfold shr_fexp, shr. 
    replace (fexp prec emax (Zdigits2 16777216 + e) - e) with 1
      by (rewrite fexp_eq; simpl Zdigits2; lia).
    simpl. reflexivity.
  - unfold shr_fexp, shr.
    assert (D : Zdigits2 n <= 24) by (apply Zdigits2_le; lia).
    destruct (fexp prec emax (Zdigits2 n + e) - e) as [|p|p] eqn:K;
      rewrite fexp_eq in K; try lia;
      unfold packed; destruct n as [|m|m]; try lia; simpl shr_m;
        try reflexivity;
        (replace (Z.pos m <? 2 ^ prec) with true by (rewrite pow_prec; lia));
        reflexivity.
Qed.

Lemma rne_le_pow_prec (N D mx ex : Z) (lx : location) :
  represents N D (shr_record_of_loc mx lx) ->
  0 <= rne N (D * 2 ^ (round_exp mx ex - ex)) <= 2 ^ prec.
Proof.
  intros (HD & Hm & B & _). rewrite shr_m_record_of_loc in *.
  assert (K : 0 <= round_exp mx ex - ex) by (unfold round_exp; lia).
  assert (P : 0 < 2 ^ (round_exp mx ex - ex)) by (apply Z.pow_pos_nonneg; lia).
  split.
  - apply rne_nonneg; nia.
  - apply rne_le; [nia|].
    pose proof (Zdigits2_upper mx Hm) as U.
    pose proof (Zdigits2_nonneg mx) as dn.
    assert (E : 2 ^ Zdigits2 mx <= 2 ^ prec * 2 ^ (round_exp mx ex - ex)).
    { rewrite <- Z.pow_add_r by (unfold prec, Binary32.prec; lia).
      apply Z.pow_le_mono_r; [lia|].
      unfold round_exp. rewrite fexp_eq. unfold prec, Binary32.prec. lia. }
    nia.
Qed.

Theorem binary_round_aux_packed (s : bool) (N D mx ex : Z) (lx : location) :
  represents N D (shr_record_of_loc mx lx) ->
  binary_round_aux prec emax s mx ex lx =
  packed s (rne N (D * 2 ^ (round_exp mx ex - ex))) (round_exp mx ex).
Proof.
  intros R. unfold binary_round_aux.
  destruct (shr_fexp_represents N D mx ex lx R) as (mrs & -> & R').
  rewrite (represents_rne _ _ _ R').
  apply repack.
  - eapply rne_le_pow_prec; eauto.
  - unfold round_exp. pose proof (fexp_ge_emin (Zdigits2 mx + ex)). lia.
Qed.

(** ** Enough digits: the rounded mantissa is normalised *)

Lemma round_exp_enough (mx ex : Z) :
  enough_digits mx ex -> round_exp mx ex = fexp prec emax (Zdigits2 mx + ex).
Proof. intros [_ H]. unfold round_exp. lia. Qed.

Lemma pow_split (a b : Z) : 0 <= a -> 0 <= b -> 2 ^ (a + b) = 2 ^ a * 2 ^ b.
Proof. intros. apply Z.pow_add_r; lia. Qed.

Lemma round_wellpacked (N D mx ex : Z) (lx : location) :
  represents N D (shr_record_of_loc mx lx) ->
  enough_digits mx ex ->
  wellpacked (rne N (D * 2 ^ (round_exp mx ex - ex))) (round_exp mx ex).
Proof.
  intros R En. pose proof (rne_le_pow_prec N D mx ex lx R) as B.
  split; [exact B|].
  rewrite round_exp_enough in * by assumption.
  split; [apply fexp_ge_emin|].
  intros Hemin. destruct R as (HD & Hm & Bn & _).
  rewrite shr_m_record_of_loc in *. destruct En as [Hmx Hex].
  rewrite fexp_eq in *. unfold emin in Hemin.
  set (d := Zdigits2 mx) in *.
  assert (K : Z.max (d + ex - 24) (-149) - ex = d - 24) by lia.
  rewrite K.
  pose proof (Zdigits2_bounds mx ltac:(lia)) as Bd. fold d in Bd.
  assert (P : 0 < 2 ^ (d - 24)) by (apply Z.pow_pos_nonneg; lia).
  apply rne_ge; [nia|].
  assert (E : 2 ^ (d - 1) = 2 ^ (prec - 1) * 2 ^ (d - 24)).
  { rewrite <- pow_split by (unfold prec, Binary32.prec; lia).
    f_equal. unfold prec, Binary32.prec. lia. }
  nia.
Qed.

(** ** Packed floats: validity and order *)

Lemma valid_finite (s : bool) (m : positive) (e : Z) :
  valid_binary prec emax (S754_finite s m e) = true <->
  (Z.max (Zdigits2 (Zpos m) + e - 24) (-149) = e /\ e <= 104).
Proof.
  simpl. unfold bounded, canonical_mantissa. rewrite fexp_eq.
  rewrite andb_true_iff, Z.eqb_eq, Z.leb_le. reflexivity.
Qed.

Lemma packed_valid (s : bool) (n e : Z) :
  wellpacked n e -> valid_binary prec emax (packed s n e) = true.
Proof.
  intros (Hn & He & Hnorm). rewrite pow_prec in Hn. unfold emin in *.
  unfold packed. destruct n as [|m|m]; [reflexivity| |reflexivity].
  rewrite pow_prec.
  destruct (Z.ltb_spec (Z.pos m) 16777216) as [L|G].
  - destruct (Z.leb_spec e (emax - prec)) as [Le|Ge]; [|reflexivity].
    apply valid_finite. split; [|exact Le].
    assert (D : Zdigits2 (Z.pos m) <= 24) by (apply Zdigits2_le; lia).
    destruct (Z.eq_dec e (-149)) as [->|Ne]; [lia|].
    assert (D' : 24 <= Zdigits2 (Z.pos m)).
    { apply Zdigits2_ge; [lia|]. apply Hnorm. lia. }
    lia.
  - destruct (Z.leb_spec (e + 1) (emax - prec)) as [Le|Ge]; [|reflexivity].
    apply valid_finite. split; [|exact Le].
    change (Zdigits2 (Z.pos (Z.to_pos (2 ^ (prec - 1))))) with 24. lia.
Qed.

Lemma packed_nonneg (n e : Z) : nonneg (packed false n e).
Proof.
  unfold packed. destruct n; simpl; auto.
  repeat match goal with |- context [if ?b then _ else _] => destruct b end;
    simpl; auto.
Qed.

Lemma packed_not_nan (s : bool) (n e : Z) : packed s n e <> S754_nan.
Proof.
  unfold packed. destruct n;
  repeat match goal with |- context [if ?b then _ else _] => destruct b end;
    discriminate.
Qed.

Lemma packed_cases (s : bool) (n e : Z) :
  wellpacked n e ->
  (n = 0 /\ packed s n e = S754_zero s) \/
  (0 < n /\ exists m' e',
      packed s n e = S754_finite s m' e' /\ e <= e' /\
      Zpos m' * 2 ^ (e' - e) = n /\
      ((n < 2 ^ prec /\ e <= emax - prec) \/
       (n = 2 ^ prec /\ e + 1 <= emax - prec))) \/
  (0 < n /\ packed s n e = S754_infinity s /\
   (emax - prec < e \/ (n = 2 ^ prec /\ emax - prec <= e))).
Proof.
  intros (Hn & He & _). rewrite pow_prec in *. unfold packed.
  destruct n as [|m|m]; try lia; [left; auto|right].
  rewrite pow_prec.
  destruct (Z.ltb_spec (Z.pos m) 16777216) as [L|G].
  - destruct (Z.leb_spec e (emax - prec)).
    + left. split; [lia|]. exists m, e. rewrite Z.sub_diag. simpl.
      repeat split; try lia.
    + right. repeat split; try lia.
  - destruct (Z.leb_spec (e + 1) (emax - prec)).
    + left. split; [lia|]. exists (Z.to_pos (2 ^ (prec - 1))), (e + 1).
      replace (e + 1 - e) with 1 by lia.
      change (Z.pos (Z.to_pos (2 ^ (prec - 1))) * 2 ^ 1) with 16777216.
      repeat split; try lia.
    + right. repeat split; try lia.
Qed.

Lemma packed_fle (n1 e1 n2 e2 : Z) :
  wellpacked n1 e1 -> wellpacked n2 e2 ->
  (e1 < e2 \/ (e1 = e2 /\ n1 <= n2)) ->
  fle (packed false n1 e1) (packed false n2 e2).
Proof.
  intros W1 W2 Ord.
  pose proof W1 as (Hn1 & He1 & Hnorm1). pose proof W2 as (Hn2 & He2 & Hnorm2).
  assert (H23 : 2 ^ (prec - 1) = 8388608) by reflexivity.
  assert (Pos2 : n1 = 0 \/ 0 < n2).
  { destruct Ord as [L|[E L]]; [|lia]. right.
    specialize (Hnorm2 ltac:(lia)). lia. }
  assert (V : n1 <= n2 * 2 ^ (e2 - e1)).
  { destruct Ord as [L|[E L]].
    - specialize (Hnorm2 ltac:(lia)).
      assert (2 ^ 1 <= 2 ^ (e2 - e1)) by (apply Z.pow_le_mono_r; lia).
      change (2 ^ 1) with 2 in *. rewrite pow_prec in *. nia.
    - subst e2. rewrite Z.sub_diag. simpl. lia. }
  assert (Le : e1 <= e2) by lia.
  rewrite pow_prec in *.
  destruct (packed_cases false n1 e1 W1)
    as [[Z1 ->]|[(P1 & m1 & e1' & -> & L1 & V1 & F1)|(P1 & -> & O1)]];
  destruct (packed_cases false n2 e2 W2)
    as [[Z2 ->]|[(P2 & m2 & e2' & -> & L2 & V2 & F2)|(P2 & -> & O2)]];
    simpl; auto; try lia.
  (* finite, finite *)
  set (c := Z.min e1' e2').
    assert (X : 0 < 2 ^ (c - e1)) by (apply Z.pow_pos_nonneg; lia).
    apply Z.mul_le_mono_pos_r with (p := 2 ^ (c - e1)); [exact X|].
    rewrite <- !Z.mul_assoc, <- !pow_split by lia.
    replace (e1' - c + (c - e1)) with (e1' - e1) by lia.
    replace (e2' - c + (c - e1)) with ((e2' - e2) + (e2 - e1)) by lia.
    rewrite pow_split by lia. rewrite Z.mul_assoc, V1, V2. exact V.
Qed.

Lemma fle_SFleb (x y : spec_float) :
  valid_binary prec emax x = true -> valid_binary prec emax y = true ->
  fle x y -> SFleb x y = true.
Proof.
  destruct x as [sx|[]| |[] mx ex], y as [sy|[]| |[] my ey];
    simpl fle; try contradiction; try reflexivity.
  intros Vx Vy H. apply valid_finite in Vx, Vy.
  destruct Vx as [Cx _], Vy as [Cy _].
  pose proof (Zdigits2_pos_bounds mx) as Bx.
  pose proof (Zdigits2_pos_bounds my) as By.
  unfold SFleb, SFcompare.
  destruct (Z.compare_spec ex ey) as [E|L|G]; [|reflexivity|exfalso].
  - subst ey. rewrite Z.min_id, Z.sub_diag in H. simpl in H.
    fold (Pos.compare mx my).
    destruct (Pos.compare_spec mx my); try reflexivity. lia.
  - replace (Z.min ex ey) with ey in H by lia.
    rewrite Z.sub_diag in H. change (2 ^ 0) with 1 in H.
    assert (Dx : Zdigits2 (Z.pos mx) = 24) by lia.
    assert (Dy : Zdigits2 (Z.pos my) <= 24) by lia.
    rewrite Dx in Bx. change (2 ^ (24 - 1)) with 8388608 in Bx.
    assert (Z.pos my < 2 ^ 24).
    { eapply Z.lt_le_trans; [apply By|]. apply Z.pow_le_mono_r; lia. }
    change (2 ^ 24) with 16777216 in *.
    assert (2 ^ 1 <= 2 ^ (ex - ey)) by (apply Z.pow_le_mono_r; lia).
    change (2 ^ 1) with 2 in *. nia.
Qed.

(** ** Order of two roundings *)

Lemma round_order (N1 D1 mx1 ex1 N2 D2 mx2 ex2 : Z) (lx1 lx2 : location) :
  represents N1 D1 (shr_record_of_loc mx1 lx1) ->
  represents N2 D2 (shr_record_of_loc mx2 lx2) ->
  enough_digits mx1 ex1 -> enough_digits mx2 ex2 ->
  N1 * D2 * 2 ^ (ex1 - Z.min ex1 ex2) <= N2 * D1 * 2 ^ (ex2 - Z.min ex1 ex2) ->
  let E1 := round_exp mx1 ex1 in
  let E2 := round_exp mx2 ex2 in
  E1 < E2 \/
  (E1 = E2 /\
   rne N1 (D1 * 2 ^ (E1 - ex1)) <= rne N2 (D2 * 2 ^ (E2 - ex2))).
Proof.
  intros R1 R2 En1 En2 H E1 E2.
  pose proof (round_exp_enough _ _ En1) as X1.
  pose proof (round_exp_enough _ _ En2) as X2.
  fold E1 in X1. fold E2 in X2.
  destruct R1 as (HD1 & Hm1 & B1 & _). destruct R2 as (HD2 & Hm2 & B2 & _).
  rewrite shr_m_record_of_loc in *.
  destruct En1 as [M1 G1]. destruct En2 as [M2 G2].
  set (c := Z.min ex1 ex2) in *.
  set (d1 := Zdigits2 mx1) in *. set (d2 := Zdigits2 mx2) in *.
  pose proof (Zdigits2_bounds mx1 ltac:(lia)) as Bd1. fold d1 in Bd1.
  pose proof (Zdigits2_bounds mx2 ltac:(lia)) as Bd2. fold d2 in Bd2.
  assert (d1pos : 1 <= d1).
  { destruct mx1; try lia. unfold d1. simpl. lia. }
  assert (d2pos : 1 <= d2).
  { destruct mx2; try lia. unfold d2. simpl. lia. }
  (* magnitudes are ordered *)
  assert (Mag : d1 + ex1 <= d2 + ex2).
  { set (P1 := 2 ^ (ex1 - c)) in *. set (P2 := 2 ^ (ex2 - c)) in *.
    assert (HP1 : 0 < P1) by (apply Z.pow_pos_nonneg; lia).
    assert (HP2 : 0 < P2) by (apply Z.pow_pos_nonneg; lia).
    set (A := 2 ^ (d1 - 1)) in *. set (B := 2 ^ d2) in *.
    assert (S1 : A * D1 <= N1) by nia.
    assert (S2 : N2 < B * D2) by nia.
    assert (S3 : A * D1 * (D2 * P1) <= N1 * D2 * P1) by nia.
    assert (S4 : N2 * D1 * P2 < B * D2 * (D1 * P2)) by nia.
    assert (S5 : (A * P1) * (D1 * D2) < (B * P2) * (D1 * D2)) by lia.
    assert (S6 : A * P1 < B * P2).
    { apply Z.mul_lt_mono_pos_r with (p := D1 * D2); [nia|exact S5]. }
    unfold A, P1, B, P2 in S6.
    rewrite <- !pow_split in S6 by lia.
    apply Z.pow_lt_mono_r_iff in S6; lia. }
  assert (EE : E1 <= E2) by (rewrite X1, X2; apply fexp_mono; lia).
  destruct (Z.eq_dec E1 E2) as [Eq|Ne]; [right; split; [exact Eq|]|left; lia].
  apply rne_mono.
  - assert (0 < 2 ^ (E1 - ex1)) by (apply Z.pow_pos_nonneg; lia). nia.
  - assert (0 < 2 ^ (E2 - ex2)) by (apply Z.pow_pos_nonneg; lia). nia.
  - set (K1 := E1 - ex1). set (K2 := E2 - ex2).
    assert (HK1 : 0 <= K1) by (unfold K1; lia).
    assert (HK2 : 0 <= K2) by (unfold K2; lia).
    set (T := 2 ^ (E1 - c)).
    assert (HT : 0 < T) by (apply Z.pow_pos_nonneg; lia).
    assert (T1 : 2 ^ (ex1 - c) * 2 ^ K1 = T).
    { rewrite <- pow_split by lia. unfold T, K1. f_equal. lia. }
    assert (T2 : 2 ^ (ex2 - c) * 2 ^ K2 = T).
    { rewrite <- pow_split by lia. unfold T, K2. f_equal. lia. }
    assert (HPK1 : 0 < 2 ^ K1) by (apply Z.pow_pos_nonneg; lia).
    assert (HPK2 : 0 < 2 ^ K2) by (apply Z.pow_pos_nonneg; lia).
    apply Z.mul_le_mono_pos_r with (p := T); [exact HT|].
    replace (N1 * (D2 * 2 ^ K2) * T)
      with (N1 * D2 * 2 ^ (ex1 - c) * (2 ^ K1 * 2 ^ K2))
      by (rewrite <- T1; ring).
    replace (N2 * (D1 * 2 ^ K1) * T)
      with (N2 * D1 * 2 ^ (ex2 - c) * (2 ^ K1 * 2 ^ K2))
      by (rewrite <- T2; ring).
    apply Z.mul_le_mono_nonneg_r; [nia|exact H].
Qed.

(** ** Conversion from integers *)

Lemma iter_xO (d m : positive) : Zpos (Pos.iter xO m d) = Zpos m * 2 ^ Zpos d.
Proof.
  induction d as [|d IH] using Pos.peano_ind.
  - simpl. lia.
  - rewrite Pos.iter_succ, Pos2Z.inj_xO, IH, Pos2Z.inj_succ.
    rewrite Z.pow_succ_r by lia. ring.
Qed.

Lemma Zdigits2_shift (m k : Z) :
  0 < m -> 0 <= k -> Zdigits2 (m * 2 ^ k) = Zdigits2 m + k.
Proof.
  intros Hm Hk. pose proof (Zdigits2_bounds m Hm) as B.
  assert (D : 1 <= Zdigits2 m) by (destruct m; try lia; simpl; lia).
  assert (P : 0 < 2 ^ k) by (apply Z.pow_pos_nonneg; lia).
  apply Zdigits2_unique; [|lia].
  replace (Zdigits2 m + k - 1) with (Zdigits2 m - 1 + k) by lia.
  rewrite !pow_split by lia. nia.
Qed.

(** [binary_round] first aligns the mantissa so that it has enough
    digits, without changing the value. *)
Lemma binary_round_aligned (s : bool) (mx : positive) (ex : Z) :
  exists (mz : positive) (ez : Z),
    binary_round prec emax s mx ex =
      binary_round_aux prec emax s (Zpos mz) ez loc_Exact /\
    ez <= ex /\ Zpos mz = Zpos mx * 2 ^ (ex - ez) /\
    enough_digits (Zpos mz) ez.
Proof.
  unfold binary_round, shl_align.
  change (Z.pos (digits2_pos mx)) with (Zdigits2 (Zpos mx)).
  set (d := Zdigits2 (Zpos mx)).
  destruct (fexp prec emax (d + ex) - ex) as [|p|p] eqn:K.
  - exists mx, ex. rewrite Z.sub_diag, Z.mul_1_r.
    repeat split; try lia. fold d. lia.
  - exists mx, ex. rewrite Z.sub_diag, Z.mul_1_r.
    repeat split; try lia. fold d. lia.
  - exists (Pos.iter xO mx p), (fexp prec emax (d + ex)).
    assert (E : ex - fexp prec emax (d + ex) = Zpos p) by lia.
    rewrite iter_xO, E.
    repeat split; try lia.
    rewrite Zdigits2_shift by lia. fold d.
    replace (d + Z.pos p + fexp prec emax (d + ex)) with (d + ex) by lia. lia.
Qed.

Lemma exact_represents (m : Z) :
  0 <= m -> represents m 1 (shr_record_of_loc m loc_Exact).
Proof.
  intros Hm. unfold represents, location_of. simpl.
  repeat split; try lia. now rewrite Z.mul_1_r, Z.eqb_refl.
Qed.

(** The rounding of a positive [mx * 2 ^ ex], as a packed float. *)
Lemma binary_round_packed (s : bool) (mx : positive) (ex : Z) :
  exists (mz ez : Z),
    0 < mz /\ ez <= ex /\ mz = Zpos mx * 2 ^ (ex - ez) /\
    enough_digits mz ez /\
    binary_round prec emax s mx ex =
      packed s (rne mz (2 ^ (round_exp mz ez - ez))) (round_exp mz ez) /\
    wellpacked (rne mz (2 ^ (round_exp mz ez - ez))) (round_exp mz ez).
Proof.
  destruct (binary_round_aligned s mx ex) as (mz & ez & E & L & V & En).
  exists (Zpos mz), ez.
  assert (R := exact_represents (Zpos mz) ltac:(lia)).
  split; [lia|]. split; [lia|]. split; [lia|]. split; [exact En|].
  split.
  - rewrite E, (binary_round_aux_packed s (Zpos mz) 1) by exact R.
    now rewrite Z.mul_1_l.
  - pose proof (round_wellpacked _ _ _ ez _ R En) as W.
    now rewrite Z.mul_1_l in W.
Qed.

(** Rounding is monotone on positive values. *)
Lemma binary_round_mono (m1 m2 : positive) (e1 e2 : Z) :
  Zpos m1 * 2 ^ (e1 - Z.min e1 e2) <= Zpos m2 * 2 ^ (e2 - Z.min e1 e2) ->
  fle (binary_round prec emax false m1 e1) (binary_round prec emax false m2 e2).
Proof.
  intros H.
  destruct (binary_round_packed false m1 e1) as (z1 & f1 & P1 & L1 & V1 & En1 & -> & W1).
  destruct (binary_round_packed false m2 e2) as (z2 & f2 & P2 & L2 & V2 & En2 & -> & W2).
  apply packed_fle; auto.
  pose proof (round_order z1 1 z1 f1 z2 1 z2 f2 loc_Exact loc_Exact) as O.
  cbv zeta in O. rewrite ?Z.mul_1_l, ?Z.mul_1_r in O.
  apply O; auto; try (apply exact_represents; lia).
  (* the aligned mantissas are in the same order *)
  set (c := Z.min e1 e2) in *. set (c' := Z.min f1 f2).
  assert (C : c' <= c) by (unfold c, c'; lia).
  subst z1 z2.
  rewrite <- !Z.mul_assoc, <- !pow_split by lia.
  replace (e1 - f1 + (f1 - c')) with ((e1 - c) + (c - c')) by lia.
  replace (e2 - f2 + (f2 - c')) with ((e2 - c) + (c - c')) by lia.
  rewrite !pow_split by lia. rewrite !Z.mul_assoc.
  apply Z.mul_le_mono_nonneg_r; [apply Z.pow_nonneg; lia|exact H].
Qed.

Lemma normal_valid (lo hi : Z) (x : spec_float) :
  emin <= lo -> hi <= emax - prec -> normal lo hi x ->
  valid_binary prec emax x = true.
Proof.
  intros Hlo Hhi (m & e & -> & B & He). apply valid_finite.
  unfold emin, emax, prec, Binary32.emax, Binary32.prec in *.
  rewrite (Zdigits2_unique (Zpos m) 24) by (simpl in *; lia). lia.
Qed.

Lemma normal_digits (m : positive) :
  2 ^ (prec - 1) <= Zpos m < 2 ^ prec -> Zdigits2 (Zpos m) = 24.
Proof. intros B. apply Zdigits2_unique; [exact B|lia]. Qed.

Lemma packed_normal (s : bool) (n e : Z) :
  wellpacked n e -> emin < e -> e + 1 <= emax - prec ->
  exists m' e', packed s n e = S754_finite s m' e' /\
                2 ^ (prec - 1) <= Zpos m' < 2 ^ prec /\ e <= e' <= e + 1 /\
                Zpos m' * 2 ^ (e' - e) = n.
Proof.
  intros W He Hm. pose proof W as (Hn & _ & Hnorm). specialize (Hnorm He).
  assert (H23 : 2 ^ (prec - 1) = 8388608) by reflexivity.
  rewrite pow_prec, H23 in *.
  unfold packed. destruct n as [|m|m]; try lia. rewrite pow_prec.
  destruct (Z.ltb_spec (Z.pos m) 16777216) as [L|G].
  - replace (e <=? emax - prec) with true by lia.
    exists m, e. rewrite Z.sub_diag. simpl. repeat split; lia.
  - replace (e + 1 <=? emax - prec) with true by lia.
    exists (Z.to_pos (2 ^ (prec - 1))), (e + 1).
    replace (e + 1 - e) with 1 by lia.
    change (Z.pos (Z.to_pos (2 ^ (prec - 1)))) with 8388608.
    change (2 ^ 1) with 2. repeat split; lia.
Qed.

Lemma packed_true_nonpos (n e : Z) : nonpos_or_nan (packed true n e).
Proof.
  unfold packed. destruct n; simpl; auto;
  repeat match goal with |- context [if ?b then _ else _] => destruct b end;
    simpl; auto.
Qed.

Lemma of_int_0 : Binary32.of_int 0 = S754_zero false.
Proof. reflexivity. Qed.

Lemma of_int_neg (v : Z) : v < 0 -> nonpos_or_nan (Binary32.of_int v).
Proof.
  intros Hv. destruct v as [|p|p]; try lia.
  unfold Binary32.of_int, binary_normalize.
  destruct (binary_round_packed true p 0) as (mz & ez & _ & _ & _ & _ & E & _).
  change Binary32.prec with prec. change Binary32.emax with emax.
  rewrite E. apply packed_true_nonpos.
Qed.

Lemma of_int_mono (a b : Z) :
  1 <= a <= b -> fle (Binary32.of_int a) (Binary32.of_int b).
Proof.
  intros H. destruct a as [|p|p], b as [|q|q]; try lia.
  unfold Binary32.of_int, binary_normalize.
  apply binary_round_mono. rewrite Z.min_id, Z.sub_diag. simpl. lia.
Qed.

(** A positive [int] converts to a normal float. *)
Lemma of_int_normal (v : Z) :
  1 <= v <= INT_MAX -> normal (-23) 8 (Binary32.of_int v).
Proof.
  intros [Hv Hmax]. unfold INT_MAX in Hmax. destruct v as [|p|p]; try lia.
  unfold Binary32.of_int, binary_normalize.
  destruct (binary_round_packed false p 0) as (mz & ez & Pz & Lz & Vz & En & E & W).
  change Binary32.prec with prec. change Binary32.emax with emax. rewrite E.
  assert (D : Zdigits2 mz + ez = Zdigits2 (Zpos p)).
  { rewrite Vz, Zdigits2_shift by lia. lia. }
  assert (Dp : 1 <= Zdigits2 (Z.pos p) <= 31).
  { split; [simpl; lia|]. apply Zdigits2_le; lia. }
  rewrite (round_exp_enough _ _ En) in *. rewrite D, fexp_eq in *.
  set (Ex := Z.max (Zdigits2 (Z.pos p) - 24) (-149)) in *.
  assert (HE : -23 <= Ex <= 7) by (unfold Ex; lia).
  destruct (packed_normal false _ _ W) as (m' & e' & -> & B & Le & _);
    unfold emin, emax, prec, Binary32.emax, Binary32.prec; try lia.
  exists m', e'. repeat split; try apply B; lia.
Qed.

(** ** Multiplication *)

Lemma valid_digits (s : bool) (m : positive) (e : Z) :
  valid_binary prec emax (S754_finite s m e) = true ->
  1 <= Zdigits2 (Zpos m) <= 24 /\ emin <= e <= emax - prec /\
  (emin < e -> Zdigits2 (Zpos m) = 24).
Proof.
  intros V. apply valid_finite in V. destruct V as [C B].
  assert (1 <= Zdigits2 (Zpos m)) by (simpl; lia).
  unfold emin, emax, prec, Binary32.emax, Binary32.prec. lia.
Qed.

Lemma Zdigits2_mul_ge (a b : positive) :
  Zdigits2 (Zpos a) + Zdigits2 (Zpos b) - 1 <= Zdigits2 (Zpos (a * b)).
Proof.
  pose proof (Zdigits2_pos_bounds a) as Ba.
  pose proof (Zdigits2_pos_bounds b) as Bb.
  assert (1 <= Zdigits2 (Zpos a)) by (simpl; lia).
  assert (1 <= Zdigits2 (Zpos b)) by (simpl; lia).
  apply Zdigits2_ge; [lia|].
  replace (Zdigits2 (Z.pos a) + Zdigits2 (Z.pos b) - 1 - 1)
    with ((Zdigits2 (Z.pos a) - 1) + (Zdigits2 (Z.pos b) - 1)) by lia.
  rewrite pow_split, Pos2Z.inj_mul by lia.
  assert (0 < 2 ^ (Zdigits2 (Z.pos a) - 1)) by (apply Z.pow_pos_nonneg; lia).
  assert (0 < 2 ^ (Zdigits2 (Z.pos b) - 1)) by (apply Z.pow_pos_nonneg; lia).
  nia.
Qed.

Lemma mul_enough_digits (sx sy : bool) (mx my : positive) (ex ey : Z) :
  valid_binary prec emax (S754_finite sx mx ex) = true ->
  valid_binary prec emax (S754_finite sy my ey) = true ->
  enough_digits (Zpos (mx * my)) (ex + ey).
Proof.
  intros Vx Vy. apply valid_digits in Vx, Vy.
  destruct Vx as (Dx & Ex & Nx), Vy as (Dy & Ey & Ny).
  pose proof (Zdigits2_mul_ge mx my) as G.
  split; [lia|]. rewrite fexp_eq. unfold emin in *.
  destruct (Z.eq_dec ex (-149)), (Z.eq_dec ey (-149)); lia.
Qed.

Lemma mul_packed (sx sy : bool) (mx my : positive) (ex ey : Z) :
  valid_binary prec emax (S754_finite sx mx ex) = true ->
  valid_binary prec emax (S754_finite sy my ey) = true ->
  let E := round_exp (Zpos (mx * my)) (ex + ey) in
  let n := rne (Zpos (mx * my)) (2 ^ (E - (ex + ey))) in
  Binary32.mul (S754_finite sx mx ex) (S754_finite sy my ey) =
    packed (xorb sx sy) n E /\ wellpacked n E.
Proof.
  intros Vx Vy E n.
  assert (R := exact_represents (Zpos (mx * my)) ltac:(lia)).
  pose proof (mul_enough_digits _ _ _ _ _ _ Vx Vy) as En.
  split.
  - unfold Binary32.mul, SFmul.
    change Binary32.prec with prec. change Binary32.emax with emax.
    rewrite (binary_round_aux_packed _ (Zpos (mx * my)) 1) by exact R.
    now rewrite Z.mul_1_l.
  - pose proof (round_wellpacked _ _ _ (ex + ey) _ R En) as W.
    now rewrite Z.mul_1_l in W.
Qed.

(** Multiplying by a fixed positive float is monotone. *)
Lemma mul_mono (ma mb mc : positive) (ea eb ec : Z) :
  valid_binary prec emax (S754_finite false ma ea) = true ->
  valid_binary prec emax (S754_finite false mb eb) = true ->
  valid_binary prec emax (S754_finite false mc ec) = true ->
  fle (S754_finite false ma ea) (S754_finite false mb eb) ->
  fle (Binary32.mul (S754_finite false ma ea) (S754_finite false mc ec))
      (Binary32.mul (S754_finite false mb eb) (S754_finite false mc ec)).
Proof.
  intros Va Vb Vc H. simpl in H.
  destruct (mul_packed false false ma mc ea ec Va Vc) as [-> Wa].
  destruct (mul_packed false false mb mc eb ec Vb Vc) as [-> Wb].
  simpl xorb. apply packed_fle; auto.
  pose proof (round_order (Zpos (ma * mc)) 1 (Zpos (ma * mc)) (ea + ec)
                (Zpos (mb * mc)) 1 (Zpos (mb * mc)) (eb + ec)
                loc_Exact loc_Exact) as O.
  cbv zeta in O. rewrite ?Z.mul_1_l, ?Z.mul_1_r in O.
  apply O; try (apply exact_represents; lia);
    try (eapply mul_enough_digits; eassumption).
  replace (Z.min (ea + ec) (eb + ec)) with (Z.min ea eb + ec) by lia.
  replace (ea + ec - (Z.min ea eb + ec)) with (ea - Z.min ea eb) by lia.
  replace (eb + ec - (Z.min ea eb + ec)) with (eb - Z.min ea eb) by lia.
  rewrite !Pos2Z.inj_mul. nia.
Qed.

(** ** Division *)

Lemma new_location_represents (N D : Z) :
  0 < D -> 0 <= N ->
  represents N D (shr_record_of_loc (N / D) (new_location D (N mod D))).
Proof.
  intros HD HN. unfold represents.
  rewrite shr_m_record_of_loc, loc_of_record_of_loc.
  pose proof (Z.mod_pos_bound N D HD) as Bm.
  pose proof (Z.div_mod N D ltac:(lia)) as E.
  assert (Q : 0 <= N / D) by (apply Z.div_pos; lia).
  split; [exact HD|]. split; [exact Q|]. split; [nia|].
  set (q := N / D) in *. set (k := N mod D) in *.
  unfold new_location, location_of.
  destruct (Z.even D) eqn:Ev;
    unfold new_location_even, new_location_odd;
    destruct (Z.eqb_spec k 0) as [K0|K0];
    destruct (Z.eqb_spec N (q * D)) as [Eq|Ne]; try lia; try reflexivity;
    f_equal.
  - destruct (Z.compare_spec (2 * k) D);
      destruct (Z.compare_spec (2 * N) ((2 * q + 1) * D)); try reflexivity; lia.
  - assert (Od : 2 * k <> D).
    { intros Hd. rewrite <- Hd, Z.even_mul in Ev. discriminate. }
    destruct (Z.compare_spec (2 * k + 1) D);
      destruct (Z.compare_spec (2 * N) ((2 * q + 1) * D)); try reflexivity; lia.
Qed.

(** Dividing two normal floats whose exponents are not too far apart. *)
Lemma div_packed (sx sy : bool) (mx my : positive) (ex ey : Z) :
  2 ^ (prec - 1) <= Zpos mx < 2 ^ prec ->
  2 ^ (prec - 1) <= Zpos my < 2 ^ prec ->
  -125 <= ex - ey ->
  let N := Zpos mx * 2 ^ 24 in
  let D := Zpos my in
  let e' := ex - ey - 24 in
  let E := round_exp (N / D) e' in
  let n := rne N (D * 2 ^ (E - e')) in
  Binary32.div (S754_finite sx mx ex) (S754_finite sy my ey) =
    packed (xorb sx sy) n E /\
  wellpacked n E /\ enough_digits (N / D) e' /\
  represents N D (shr_record_of_loc (N / D) (new_location D (N mod D))).
Proof.
  intros Bx By Hexp N D e' E n.
  assert (H23 : 2 ^ (prec - 1) = 8388608) by reflexivity.
  rewrite pow_prec, H23 in *.
  assert (R : represents N D (shr_record_of_loc (N / D) (new_location D (N mod D)))).
  { apply new_location_represents; unfold N, D; lia. }
  assert (Q : 8388608 <= N / D).
  { apply Z.div_le_lower_bound; unfold N, D; lia. }
  assert (En : enough_digits (N / D) e').
  { split; [lia|]. rewrite fexp_eq.
    assert (24 <= Zdigits2 (N / D)) by (apply Zdigits2_ge; simpl; lia). lia. }
  split; [|split; [|split]]; auto.
  - unfold Binary32.div, SFdiv, SFdiv_core_binary.
    change Binary32.prec with prec. change Binary32.emax with emax.
    rewrite !normal_digits by (rewrite pow_prec, H23; assumption).
    rewrite fexp_eq.
    replace (Z.min (Z.max (24 + ex - (24 + ey) - 24) (-149)) (ex - ey))
      with e' by (unfold e'; lia).
    replace (ex - ey - e') with 24 by (unfold e'; lia).
    rewrite Z.shiftl_mul_pow2 by lia. fold N. fold D.
    pose proof (Z.div_eucl_eq N D ltac:(unfold D; lia)) as Eq.
    unfold Z.div, Z.modulo in *.
    destruct (Z.div_eucl N D) as [q r] eqn:DE. simpl fst in *. simpl snd in *.
    now rewrite (binary_round_aux_packed _ N D) by exact R.
  - exact (round_wellpacked _ _ _ e' _ R En).
Qed.

(** Dividing by a fixed normal float is monotone. *)
Lemma div_mono (ma mb mc : positive) (ea eb ec : Z) :
  2 ^ (prec - 1) <= Zpos ma < 2 ^ prec ->
  2 ^ (prec - 1) <= Zpos mb < 2 ^ prec ->
  2 ^ (prec - 1) <= Zpos mc < 2 ^ prec ->
  -125 <= ea - ec -> -125 <= eb - ec ->
  fle (S754_finite false ma ea) (S754_finite false mb eb) ->
  fle (Binary32.div (S754_finite false ma ea) (S754_finite false mc ec))
      (Binary32.div (S754_finite false mb eb) (S754_finite false mc ec)).
Proof.
  intros Ba Bb Bc Ha Hb H. simpl in H.
  destruct (div_packed false false ma mc ea ec Ba Bc Ha) as (-> & Wa & Ena & Ra).
  destruct (div_packed false false mb mc eb ec Bb Bc Hb) as (-> & Wb & Enb & Rb).
  simpl xorb. apply packed_fle; auto.
  apply (round_order _ _ _ _ _ _ _ _ _ _ Ra Rb Ena Enb).
  replace (Z.min (ea - ec - 24) (eb - ec - 24)) with (Z.min ea eb - ec - 24) by lia.
  replace (ea - ec - 24 - (Z.min ea eb - ec - 24)) with (ea - Z.min ea eb) by lia.
  replace (eb - ec - 24 - (Z.min ea eb - ec - 24)) with (eb - Z.min ea eb) by lia.
  nia.
Qed.

End Round.

(* ===================================================================== *)
(** * The Normalization helper in binary32 *)
(* ===================================================================== *)

Module Normalize.

Import RoundDefs Round IntFacts.

Abbreviation float := Binary32.float.

(** The two normalisation helpers, over binary32. *)
Lemma fma_normalize_eq (val black : Z) (inv : float) :
  Fma.normalize_pixel val black inv =
  Binary32.fmaxf (Binary32.mul (Binary32.of_int (isub val black)) inv) Binary32.pzero.
Proof. reflexivity. Qed.

Lemma plain_normalize_eq (val black : Z) (range : float) :
  Plain.normalize black range val =
  Binary32.div
    (Binary32.of_int (if isub val black <? 0 then 0 else isub val black)) range.
Proof. reflexivity. Qed.

Lemma inv_range_eq (p : params float) :
  Spec.inv_range p =
  Binary32.div (S754_finite false 8388608 (-23))
    (Binary32.of_int (isub (white_level p) (black_level p))).
Proof. reflexivity. Qed.

Lemma levels_sub (black white val : Z) :
  Spec.levels black white -> u16_range val ->
  isub val black = val - black /\ isub white black = white - black /\
  1 <= white - black <= INT_MAX /\ val - black <= INT_MAX.
Proof.
  unfold Spec.levels, u16_range, int_range, INT_MIN, INT_MAX, UINT16_MAX.
  intros (Hb & Hw & Hlt & Hr & Hl) Hv.
  rewrite !isub_id by (unfold int_range, INT_MIN, INT_MAX; lia). lia.
Qed.

Lemma normal_is_valid (lo hi : Z) (x : float) :
  -149 <= lo -> hi <= 104 -> normal lo hi x -> valid_binary prec emax x = true.
Proof. intros Hlo Hhi. apply normal_valid; [exact Hlo|exact Hhi]. Qed.

(** ** The reciprocal of the range *)

Lemma reciprocal_normal (r : Z) :
  1 <= r <= INT_MAX ->
  normal (-55) (-22)
    (Binary32.div (S754_finite false 8388608 (-23)) (Binary32.of_int r)).
Proof.
  intros Hr. destruct (of_int_normal r Hr) as (m & e & -> & B & He).
  destruct (div_packed false false 8388608 m (-23) e) as (-> & W & En & _);
    [rewrite pow_prec; change (2 ^ (prec - 1)) with 8388608; lia|exact B|lia|].
  simpl xorb.
  set (N := Z.pos 8388608 * 2 ^ 24) in *. set (e' := -23 - e - 24) in *.
  assert (Q : 8388608 <= N / Z.pos m < 33554432).
  { rewrite pow_prec in B. change (2 ^ (prec - 1)) with 8388608 in B. split.
    - apply Z.div_le_lower_bound; unfold N; lia.
    - apply Z.div_lt_upper_bound; unfold N; lia. }
  assert (Dg : 24 <= Zdigits2 (N / Z.pos m) <= 25).
  { split; [apply Zdigits2_ge; simpl; lia|apply Zdigits2_le; simpl; lia]. }
  rewrite (round_exp_enough _ _ En), fexp_eq in *.
  set (E := Z.max (Zdigits2 (N / Z.pos m) + e' - 24) (-149)) in *.
  assert (HE : e' <= E <= e' + 1) by (unfold E; lia).
  destruct (packed_normal false _ _ W) as (m' & e'' & -> & B' & Le & _);
    unfold emin, emax, prec, Binary32.emax, Binary32.prec, e' in *; try lia.
  exists m', e''. repeat split; try apply B'; lia.
Qed.

(** ** [fmaxf(., 0.0f)] on signed values *)

Lemma fmaxf_nonpos (x : float) :
  nonpos_or_nan x -> Binary32.fmaxf x Binary32.pzero = Binary32.pzero.
Proof. destruct x as [[]|[]| |[] m e]; simpl; intros H; try contradiction; reflexivity. Qed.

Lemma fmaxf_positive (m : positive) (e : Z) :
  Binary32.fmaxf (S754_finite false m e) Binary32.pzero = S754_finite false m e.
Proof. reflexivity. Qed.

Lemma pzero_le_nonneg (x : float) : nonneg x -> SFleb Binary32.pzero x = true.
Proof. destruct x as [[]|[]| |[] m e]; simpl; intros H; try contradiction; reflexivity. Qed.

Lemma fmaxf_zero_mono (x y : float) :
  valid_binary prec emax x = true -> valid_binary prec emax y = true ->
  fle x y ->
  SFleb (Binary32.fmaxf x Binary32.pzero) (Binary32.fmaxf y Binary32.pzero) = true.
Proof.
  intros Vx Vy H.
  destruct x as [sx|[]| |[] mx ex], y as [sy|[]| |[] my ey];
    simpl in H; try contradiction; try (destruct sx); try (destruct sy);
    try reflexivity.
  rewrite !fmaxf_positive. apply fle_SFleb; assumption.
Qed.

Lemma mul_nonpos (x : float) (m : positive) (e : Z) :
  nonpos_or_nan x -> nonpos_or_nan (Binary32.mul x (S754_finite false m e)).
Proof.
  destruct x as [sx|[]| |[] mx ex]; simpl; intros H; try contradiction; auto.
  change Binary32.prec with prec. change Binary32.emax with emax.
  rewrite (binary_round_aux_packed _ (Zpos (mx * m)) 1)
    by (apply exact_represents; lia).
  apply packed_true_nonpos.
Qed.

(** ** The FMA-variant helper *)

Lemma fma_norm_eq (black white val : Z) :
  Spec.fma_norm black white val =
  Binary32.fmaxf
    (Binary32.mul (Binary32.of_int (isub val black))
       (Binary32.div (S754_finite false 8388608 (-23))
          (Binary32.of_int (isub white black))))
    Binary32.pzero.
Proof. reflexivity. Qed.

Lemma plain_norm_eq (black white val : Z) :
  Spec.plain_norm black white val =
  Binary32.div
    (Binary32.of_int (if isub val black <? 0 then 0 else isub val black))
    (Binary32.of_int (isub white black)).
Proof. reflexivity. Qed.

Lemma bounds_23_24 (m : positive) :
  2 ^ (prec - 1) <= Zpos m < 2 ^ prec <-> 8388608 <= Zpos m < 16777216.
Proof. rewrite pow_prec. change (2 ^ (prec - 1)) with 8388608. reflexivity. Qed.

Lemma fma_norm_below (black white val : Z) :
  Spec.levels black white -> u16_range val -> val <= black ->
  Spec.fma_norm black white val = Binary32.pzero.
Proof.
  intros L Hv Hle.
  destruct (levels_sub black white val L Hv) as (E1 & E2 & Hr & Hm).
  rewrite fma_norm_eq, E1, E2.
  destruct (reciprocal_normal (white - black) Hr) as (mi & ei & -> & _).
  apply fmaxf_nonpos.
  destruct (Z.eq_dec val black) as [->|Ne].
  - rewrite Z.sub_diag. simpl. exact I.
  - apply mul_nonpos, of_int_neg. lia.
Qed.

(** Above the black level the helper returns the rounded product itself:
    a positive normal float, neither clamped nor a NaN. *)
Lemma fma_norm_above (black white val : Z) :
  Spec.levels black white -> u16_range val -> black < val ->
  Spec.fma_norm black white val =
    Binary32.mul (Binary32.of_int (val - black))
      (Binary32.div (S754_finite false 8388608 (-23))
         (Binary32.of_int (white - black))) /\
  normal (-55) 11 (Spec.fma_norm black white val).
Proof.
  intros L Hv Hlt.
  destruct (levels_sub black white val L Hv) as (E1 & E2 & Hr & Hm).
  rewrite fma_norm_eq, E1, E2.
  destruct (reciprocal_normal (white - black) Hr) as (mi & ei & -> & Bi & Hei).
  destruct (of_int_normal (val - black) ltac:(lia)) as (ma & ea & -> & Ba & Hea).
  assert (Va : valid_binary prec emax (S754_finite false ma ea) = true).
  { apply (normal_is_valid (-23) 8); [lia|lia|]. exists ma, ea; auto. }
  assert (Vi : valid_binary prec emax (S754_finite false mi ei) = true).
  { apply (normal_is_valid (-55) (-22)); [lia|lia|]. exists mi, ei; auto. }
  destruct (mul_packed false false ma mi ea ei Va Vi) as [E W].
  rewrite E. simpl xorb.
  pose proof (mul_enough_digits _ _ _ _ _ _ Va Vi) as En.
  rewrite (round_exp_enough _ _ En), fexp_eq in *.
  assert (Dg : 47 <= Zdigits2 (Zpos (ma * mi)) <= 48).
  { apply (proj1 (bounds_23_24 _)) in Ba. apply (proj1 (bounds_23_24 _)) in Bi. rewrite Pos2Z.inj_mul.
    assert (8388608 * 8388608 <= Z.pos ma * Z.pos mi)
      by (apply Z.mul_le_mono_nonneg; lia).
    assert (Z.pos ma * Z.pos mi < 16777216 * 16777216)
      by (apply Z.mul_lt_mono_nonneg; lia).
    split; [apply Zdigits2_ge|apply Zdigits2_le]; simpl; lia. }
  set (Ex := Z.max (Zdigits2 (Z.pos (ma * mi)) + (ea + ei) - 24) (-149)) in *.
  assert (HE : -55 <= Ex <= 10) by (unfold Ex; lia).
  destruct (packed_normal false _ _ W) as (m' & e' & -> & B' & Le & _);
    unfold emin, emax, prec, Binary32.emax, Binary32.prec in *; try lia.
  rewrite fmaxf_positive. split; [reflexivity|].
  exists m', e'. repeat split; try apply B'; lia.
Qed.

Lemma fma_norm_mono (black white a b : Z) :
  Spec.levels black white -> u16_range a -> u16_range b -> a <= b ->
  SFleb (Spec.fma_norm black white a) (Spec.fma_norm black white b) = true.
Proof.
  intros L Ha Hb Hab.
  destruct (Z.le_gt_cases a black) as [Le|Gt].
  - rewrite (fma_norm_below black white a L Ha Le).
    rewrite fma_norm_eq. apply Clamp.fmaxf_zero_nonneg.
  - destruct (levels_sub black white a L Ha) as (Ea & E2 & Hr & Hma).
    destruct (levels_sub black white b L Hb) as (Eb & _ & _ & Hmb).
    rewrite !fma_norm_eq, Ea, Eb, E2.
    destruct (reciprocal_normal (white - black) Hr) as (mi & ei & -> & Bi & Hei).
    pose proof (of_int_mono (a - black) (b - black) ltac:(lia)) as M.
    destruct (of_int_normal (a - black) ltac:(lia)) as (ma & ea & Eqa & Ba & Hea).
    destruct (of_int_normal (b - black) ltac:(lia)) as (mb & eb & Eqb & Bb & Heb).
    rewrite Eqa, Eqb in *.
    assert (Va : valid_binary prec emax (S754_finite false ma ea) = true).
    { apply (normal_is_valid (-23) 8); [lia|lia|]. exists ma, ea; auto. }
    assert (Vb : valid_binary prec emax (S754_finite false mb eb) = true).
    { apply (normal_is_valid (-23) 8); [lia|lia|]. exists mb, eb; auto. }
    assert (Vi : valid_binary prec emax (S754_finite false mi ei) = true).
    { apply (normal_is_valid (-55) (-22)); [lia|lia|]. exists mi, ei; auto. }
    apply fmaxf_zero_mono.
    + destruct (mul_packed false false ma mi ea ei Va Vi) as [-> W].
      now apply packed_valid.
    + destruct (mul_packed false false mb mi eb ei Vb Vi) as [-> W].
      now apply packed_valid.
    + now apply mul_mono.
Qed.

(** ** The plain-variant helper *)

Lemma plain_norm_below (black white val : Z) :
  Spec.levels black white -> u16_range val -> val <= black ->
  Spec.plain_norm black white val = Binary32.pzero.
Proof.
  intros L Hv Hle.
  destruct (levels_sub black white val L Hv) as (E1 & E2 & Hr & Hm).
  rewrite plain_norm_eq, E1, E2.
  destruct (of_int_normal (white - black) Hr) as (mr & er & -> & _).
  destruct (Z.ltb_spec (val - black) 0) as [Lt|Ge].
  - reflexivity.
  - replace (val - black) with 0 by lia. reflexivity.
Qed.

Lemma plain_norm_above (black white val : Z) :
  Spec.levels black white -> u16_range val -> black < val ->
  Spec.plain_norm black white val =
    Binary32.div (Binary32.of_int (val - black)) (Binary32.of_int (white - black)) /\
  normal (-55) 11 (Spec.plain_norm black white val).
Proof.
  intros L Hv Hlt.
  destruct (levels_sub black white val L Hv) as (E1 & E2 & Hr & Hm).
  rewrite plain_norm_eq, E1, E2.
  replace (val - black <? 0) with false by lia.
  split; [reflexivity|].
  destruct (of_int_normal (white - black) Hr) as (mr & er & -> & Br & Her).
  destruct (of_int_normal (val - black) ltac:(lia)) as (ma & ea & -> & Ba & Hea).
  destruct (div_packed false false ma mr ea er Ba Br ltac:(lia)) as (-> & W & En & _).
  simpl xorb.
  set (N := Z.pos ma * 2 ^ 24) in *. set (e' := ea - er - 24) in *.
  assert (Q : 8388608 <= N / Z.pos mr < 33554432).
  { apply (proj1 (bounds_23_24 _)) in Ba. apply (proj1 (bounds_23_24 _)) in Br. split.
    - apply Z.div_le_lower_bound; unfold N; lia.
    - apply Z.div_lt_upper_bound; unfold N; lia. }
  assert (Dg : 24 <= Zdigits2 (N / Z.pos mr) <= 25).
  { split; [apply Zdigits2_ge; simpl; lia|apply Zdigits2_le; simpl; lia]. }
  rewrite (round_exp_enough _ _ En), fexp_eq in *.
  set (E := Z.max (Zdigits2 (N / Z.pos mr) + e' - 24) (-149)) in *.
  assert (HE : e' <= E <= e' + 1) by (unfold E; lia).
  destruct (packed_normal false _ _ W) as (m' & e'' & -> & B' & Le & _);
    unfold emin, emax, prec, Binary32.emax, Binary32.prec, e' in *; try lia.
  exists m', e''. repeat split; try apply B'; lia.
Qed.

Lemma plain_norm_mono (black white a b : Z) :
  Spec.levels black white -> u16_range a -> u16_range b -> a <= b ->
  SFleb (Spec.plain_norm black white a) (Spec.plain_norm black white b) = true.
Proof.
  intros L Ha Hb Hab.
  destruct (Z.le_gt_cases a black) as [Le|Gt].
  - rewrite (plain_norm_below black white a L Ha Le).
    destruct (Z.le_gt_cases b black) as [Le'|Gt'].
    + now rewrite (plain_norm_below black white b L Hb Le').
    + destruct (plain_norm_above black white b L Hb Gt') as (_ & m & e & -> & _).
      reflexivity.
  - destruct (levels_sub black white a L Ha) as (Ea & E2 & Hr & Hma).
    destruct (levels_sub black white b L Hb) as (Eb & _ & _ & Hmb).
    rewrite !plain_norm_eq, Ea, Eb, E2.
    replace (a - black <? 0) with false by lia.
    replace (b - black <? 0) with false by lia.
    destruct (of_int_normal (white - black) Hr) as (mr & er & -> & Br & Her).
    pose proof (of_int_mono (a - black) (b - black) ltac:(lia)) as M.
    destruct (of_int_normal (a - black) ltac:(lia)) as (ma & ea & Eqa & Ba & Hea).
    destruct (of_int_normal (b - black) ltac:(lia)) as (mb & eb & Eqb & Bb & Heb).
    rewrite Eqa, Eqb in *.
    apply fle_SFleb.
    + destruct (div_packed false false ma mr ea er Ba Br ltac:(lia)) as (-> & W & _).
      now apply packed_valid.
    + destruct (div_packed false false mb mr eb er Bb Br ltac:(lia)) as (-> & W & _).
      now apply packed_valid.
    + apply div_mono; auto; lia.
Qed.

End Normalize.

(* ===================================================================== *)
(** * Reciprocal against division when the range is a power of two *)
(* ===================================================================== *)

Module PowerOfTwo.

Import RoundDefs Round IntFacts Normalize.

Ltac enum k lo :=
  first [ lia
        | destruct (Z.eq_dec k lo) as [->|?];
          [ | let lo' := eval compute in (lo + 1) in enum k lo' ] ].

Lemma of_int_pow2 (k : Z) :
  0 <= k <= 30 -> Binary32.of_int (2 ^ k) = S754_finite false 8388608 (k - 23).
Proof. intros H. enum k 0; reflexivity. Qed.

Lemma reciprocal_pow2 (k : Z) :
  0 <= k <= 30 ->
  Binary32.div (S754_finite false 8388608 (-23)) (S754_finite false 8388608 (k - 23))
  = S754_finite false 8388608 (- k - 23).
Proof. intros H. enum k 0; reflexivity. Qed.

Lemma bounds_pow23 : 2 ^ (prec - 1) <= Zpos 8388608 < 2 ^ prec.
Proof. split; vm_compute; [discriminate|reflexivity]. Qed.

Lemma packed_small (m : positive) (e : Z) :
  Zpos m < 2 ^ prec -> e <= emax - prec ->
  packed false (Zpos m) e = S754_finite false m e.
Proof.
  intros Hm He. unfold packed.
  replace (Z.pos m <? 2 ^ prec) with true by lia.
  replace (e <=? emax - prec) with true by lia. reflexivity.
Qed.

(** Scaling a normal float by an exact power of two only moves its
    exponent, whether by multiplication or by division. *)
Lemma mul_pow2 (m : positive) (e k : Z) :
  2 ^ (prec - 1) <= Zpos m < 2 ^ prec -> -23 <= e <= 8 -> 0 <= k <= 30 ->
  Binary32.mul (S754_finite false m e) (S754_finite false 8388608 (- k - 23))
  = S754_finite false m (e - k).
Proof.
  intros B He Hk.
  assert (Vm : valid_binary prec emax (S754_finite false m e) = true).
  { apply (normal_is_valid (-23) 8); [lia|lia|]. exists m, e; auto. }
  assert (Vp : valid_binary prec emax (S754_finite false 8388608 (- k - 23)) = true).
  { apply (normal_is_valid (-53) (-23)); [lia|lia|].
    exists 8388608%positive, (- k - 23). repeat split; try apply bounds_pow23; lia. }
  destruct (mul_packed false false m 8388608 e (- k - 23) Vm Vp) as [-> _].
  simpl xorb.
  assert (P : Zpos (m * 8388608) = Zpos m * 2 ^ 23) by (rewrite Pos2Z.inj_mul; reflexivity).
  assert (Dg : Zdigits2 (Zpos (m * 8388608)) = 47).
  { rewrite P, Zdigits2_shift, (normal_digits m B) by lia. reflexivity. }
  unfold round_exp. rewrite Dg, fexp_eq.
  replace (Z.max (e + (- k - 23)) (Z.max (47 + (e + (- k - 23)) - 24) (-149)))
    with (e - k) by lia.
  replace (e - k - (e + (- k - 23))) with 23 by lia.
  rewrite P, rne_exact by lia.
  apply packed_small; [apply B|unfold emax, prec, Binary32.emax, Binary32.prec; lia].
Qed.

Lemma div_pow2 (m : positive) (e k : Z) :
  2 ^ (prec - 1) <= Zpos m < 2 ^ prec -> -23 <= e <= 8 -> 0 <= k <= 30 ->
  Binary32.div (S754_finite false m e) (S754_finite false 8388608 (k - 23))
  = S754_finite false m (e - k).
Proof.
  intros B He Hk.
  destruct (div_packed false false m 8388608 e (k - 23)) as (-> & _);
    [exact B|exact bounds_pow23|lia|].
  simpl xorb.
  assert (Q : Zpos m * 2 ^ 24 / Zpos 8388608 = 2 * Zpos m).
  { replace (Zpos m * 2 ^ 24) with (2 * Zpos m * Zpos 8388608) by (simpl; lia).
    apply Z.div_mul. lia. }
  rewrite Q.
  assert (Dg : Zdigits2 (2 * Zpos m) = 25).
  { replace (2 * Zpos m) with (Zpos m * 2 ^ 1) by (simpl; lia).
    rewrite Zdigits2_shift, (normal_digits m B) by lia. reflexivity. }
  unfold round_exp. rewrite Dg, fexp_eq.
  replace (Z.max (e - (k - 23) - 24) (Z.max (25 + (e - (k - 23) - 24) - 24) (-149)))
    with (e - k) by lia.
  replace (e - k - (e - (k - 23) - 24)) with 1 by lia.
  replace (Zpos 8388608 * 2 ^ 1) with (2 ^ 24) by reflexivity.
  rewrite rne_exact by lia.
  apply packed_small; [apply B|unfold emax, prec, Binary32.emax, Binary32.prec; lia].
Qed.

(** When the sensor range is a power of two its reciprocal is exact, and
    both helpers return the same float on every sample. *)
Lemma norm_agree (black white val k : Z) :
  Spec.levels black white -> u16_range val -> white - black = 2 ^ k ->
  @Spec.fma_norm Binary32.float _ black white val = Spec.plain_norm black white val.
Proof.
  intros L Hv Hk.
  destruct (levels_sub black white val L Hv) as (E1 & E2 & Hr & Hm).
  assert (K : 0 <= k <= 30).
  { unfold INT_MAX in Hr. rewrite Hk in Hr. split.
    - destruct (Z.le_gt_cases 0 k); [assumption|].
      rewrite Z.pow_neg_r in Hr by lia. lia.
    - destruct (Z.le_gt_cases k 30); [assumption|].
      assert (2 ^ 31 <= 2 ^ k) by (apply Z.pow_le_mono_r; lia). lia. }
  destruct (Z.le_gt_cases val black) as [Le|Gt].
  - now rewrite fma_norm_below, plain_norm_below.
  - destruct (fma_norm_above black white val L Hv Gt) as [-> _].
    destruct (plain_norm_above black white val L Hv Gt) as [-> _].
    rewrite Hk, of_int_pow2, reciprocal_pow2 by assumption.
    destruct (of_int_normal (val - black) ltac:(lia)) as (m & e & -> & B & He).
    now rewrite mul_pow2, div_pow2.
Qed.

End PowerOfTwo.

(* ===================================================================== *)
(** * The kernels read over the rationals *)
(* ===================================================================== *)

Module ExactFacts.

Import IntFacts.

Local Open Scope Qc_scope.

Lemma of_int_Qc (v : Z) : Exact.of_int v = Qc_of_Z v.
Proof. apply Qc_is_canon. simpl. apply Qred_correct. Qed.

Lemma exact_lit_0 : Exact.lit 0 1 = 0.
Proof. apply Qc_is_canon. reflexivity. Qed.

Lemma exact_lit_1 : Exact.lit 1 1 = 1.
Proof. apply Qc_is_canon. reflexivity. Qed.

Lemma lit_neg (n d : positive) : Exact.lit (Zneg n) d = - Exact.lit (Zpos n) d.
Proof.
  apply Qc_is_canon. unfold Exact.lit. simpl.
  rewrite !Qred_correct. reflexivity.
Qed.

Lemma lit_half : Exact.lit 5 10 = / Exact.lit 2 1.
Proof. apply Qc_is_canon. reflexivity. Qed.

Lemma lit_quarter : Exact.lit 25 100 = / Exact.lit 4 1.
Proof. apply Qc_is_canon. reflexivity. Qed.

Lemma max_0_neg (a : Qc) : a < 0 -> Exact.max a 0 = 0.
Proof.
  intros H. unfold Exact.max. destruct (Qclt_le_dec a 0); [reflexivity|].
  exfalso. eapply Qclt_not_le; eassumption.
Qed.

Lemma max_0_nonneg (a : Qc) : 0 <= a -> Exact.max a 0 = a.
Proof.
  intros H. unfold Exact.max. destruct (Qclt_le_dec a 0); [|reflexivity].
  exfalso. eapply Qclt_not_le; eassumption.
Qed.

(** Over the rationals, multiplying by the reciprocal and clamping below
    is dividing the clamped difference. *)
Lemma normalize_agree (val black r : Z) :
  (0 < r)%Z ->
  @Fma.normalize_pixel Qc _ val black (f_div (f_lit 1 1) (f_of_int r)) =
  Plain.normalize black (f_of_int r) val.
Proof.
  intros Hr. unfold Fma.normalize_pixel, Plain.normalize. cbn -[Exact.lit].
  rewrite exact_lit_0, exact_lit_1, !of_int_Qc.
  set (v := isub val black).
  pose proof (proj1 (Z2Qc_inj_lt 0 r) Hr) as R. rewrite Z2Qc_inj_0 in R.
  assert (IR : 0 < / Qc_of_Z r) by now apply Qcinv_pos.
  unfold Qcdiv. rewrite Qcmult_1_l.
  destruct (Z.ltb_spec v 0) as [Neg|Nonneg].
  - pose proof (proj1 (Z2Qc_inj_lt v 0) Neg) as V. rewrite Z2Qc_inj_0 in V.
    rewrite max_0_neg.
    + rewrite Z2Qc_inj_0. now rewrite Qcmult_0_l.
    + rewrite <- (Qcmult_0_l (/ Qc_of_Z r)).
      apply Qcmult_lt_compat_r; [exact IR|exact V].
  - pose proof (proj1 (Z2Qc_inj_le 0 v) Nonneg) as V. rewrite Z2Qc_inj_0 in V.
    apply max_0_nonneg.
    apply Qcmult_nonneg_nonneg; [exact V|now apply Qclt_le_weak].
Qed.

Lemma reconstruct_agree (inp : list Z) (w black r : Z) (rl : Spec.rule) (x y : Z) :
  (0 < r)%Z ->
  Spec.reconstruct Spec.fma_mean2 Spec.fma_mean4
    (@Spec.fma_sample Qc _ inp w black (f_div (f_lit 1 1) (f_of_int r))) rl x y =
  Spec.reconstruct Spec.plain_mean2 Spec.plain_mean4
    (Spec.plain_sample inp w black (f_of_int r)) rl x y.
Proof.
  intros Hr.
  unfold Spec.reconstruct, Spec.fma_sample, Spec.plain_sample,
    Spec.fma_mean2, Spec.fma_mean4, Spec.plain_mean2, Spec.plain_mean4.
  destruct rl; cbn [Spec.neighbours fst snd];
    rewrite ?normalize_agree by assumption; try reflexivity;
    cbn [f_mul f_add f_div f_lit exact_ops];
    rewrite ?lit_half, ?lit_quarter; reflexivity.
Qed.

Lemma cam_agree (inp : list Z) (p : params Qc) (x y : Z) :
  Spec.sized (width p) (height p) ->
  Spec.interior (width p) (height p) x y ->
  (0 < isub (white_level p) (black_level p))%Z ->
  Spec.demosaic_cam inp p x y = Spec.plain_cam inp p x y.
Proof.
  intros Hs Hi Hr.
  assert (Ha : Spec.addressable (width p) (height p)).
  { destruct Hs as (Hw & Hh & Hsz). unfold Spec.addressable. repeat split; lia. }
  unfold Spec.demosaic_cam, Spec.plain_cam, Spec.inv_range. cbv zeta.
  rewrite (Parity.fma_get_red_rule _ _ (height p)),
          (Parity.fma_get_green_rule _ _ (height p)),
          (Parity.fma_get_blue_rule _ _ (height p)),
          (Parity.plain_get_red_rule _ _ (height p)),
          (Parity.plain_get_green_rule _ _ (height p)),
          (Parity.plain_get_blue_rule _ _ (height p)) by assumption.
  now rewrite !reconstruct_agree by assumption.
Qed.

Lemma color_transform_agree (m : list Qc) (cam : Qc * Qc * Qc) :
  Spec.color_transform m cam = Spec.plain_color_transform m cam.
Proof.
  destruct cam as [[r g] b].
  unfold Spec.color_transform, Spec.plain_color_transform, Spec.cam_to_xyz_affine,
    Spec.xyz_to_srgb, Spec.xyz_to_srgb_row, Spec.expose, Spec.clamp3,
    Spec.cam_to_xyz_row, Spec.plain_cam_to_xyz_row.
  cbn [f_mul f_add f_sub f_fma f_lit exact_ops]. unfold Exact.fma.
  rewrite !lit_neg.
  f_equal; [f_equal|]; apply (f_equal clamp01); ring.
Qed.

(** Read over the rationals, the two variants of [debayer16_to_xyz]
    perform the same stores at every interior pixel. *)
Lemma debayer_agree (inp : list Z) (p : params Qc) (x y : Z) :
  Spec.sized (width p) (height p) ->
  Spec.interior (width p) (height p) x y ->
  (0 < isub (white_level p) (black_level p))%Z ->
  Fma.debayer16_to_xyz inp p x y = Plain.debayer16_to_xyz inp p x y.
Proof.
  intros Hs Hi Hr.
  rewrite Pipeline.debayer_steps, Pipeline.plain_steps by assumption.
  now rewrite cam_agree, color_transform_agree by assumption.
Qed.

(** One row of the camera-to-XYZ map is the affine form
    [M0 * r + M1 * g + M2 * b + M3]. *)
Lemma cam_to_xyz_row_affine (m : list Qc) (i : nat) (r g b : Qc) :
  Spec.cam_to_xyz_row m i r g b =
  mat m (4 * i) * r + mat m (4 * i + 1) * g + mat m (4 * i + 2) * b
  + mat m (4 * i + 3).
Proof.
  unfold Spec.cam_to_xyz_row. cbn [f_fma exact_ops]. unfold Exact.fma. ring.
Qed.

Lemma xyz_to_srgb_row_linear (c0 c1 c2 x y z : Qc) :
  Spec.xyz_to_srgb_row c0 c1 c2 (x, y, z) = c0 * x + c1 * y + c2 * z.
Proof.
  unfold Spec.xyz_to_srgb_row. cbn [f_fma f_mul exact_ops]. unfold Exact.fma. ring.
Qed.

End ExactFacts.

(* ===================================================================== *)
(** * Every stored value is clamped *)
(* ===================================================================== *)

Module Range.
Section Range.

Context {F : Type} `{FloatOps F}.

Lemma fma_stores_clamped (inp : list Z) (p : params F) (x y : Z) :
Forall Spec.clamped (Fma.debayer16_to_xyz inp p x y).
Proof.
unfold Fma.debayer16_to_xyz.
destruct (_ || _); [constructor|].
cbv zeta. repeat constructor; eexists; reflexivity.
Qed.

Lemma plain_stores_clamped (inp : list Z) (p : params F) (x y : Z) :
Forall Spec.clamped (Plain.debayer16_to_xyz inp p x y).
Proof.
unfold Plain.debayer16_to_xyz.
destruct (_ || _); [constructor|].
cbv zeta. repeat constructor; eexists; reflexivity.
Qed.

Lemma color_stores_clamped (rgb_in : list Z) (p : params F) (x y : Z) :
Forall Spec.clamped (Color.apply_color_pipeline rgb_in p x y).
Proof.
unfold Color.apply_color_pipeline.
destruct (_ || _); [constructor|].
cbv zeta. repeat constructor; eexists; reflexivity.
Qed.

Lemma Forall_flat_map_all {A B : Type} (P : B -> Prop) (f : A -> list B)
  (l : list A) :
(forall a, Forall P (f a)) -> Forall P (flat_map f l).
Proof.
intros K. induction l as [|a l IH]; simpl; [constructor|].
apply Forall_app. split; [apply K|exact IH].
Qed.

Lemma launch_clamped (kernel : Z -> Z -> list (store F)) (gx gy : Z) :
(forall x y, Forall Spec.clamped (kernel x y)) ->
Forall Spec.clamped (launch kernel gx gy).
Proof.
intros K. unfold launch.
apply Forall_flat_map_all. intros y.
apply Forall_flat_map_all. intros x. apply K.
Qed.

End Range.

Lemma clamped_in_unit (s : store Binary32.float) : Spec.clamped s -> Spec.in_unit (snd s).
Proof. intros [v ->]. apply Clamp.clamp01_range. Qed.

End Range.

(* ===================================================================== *)
(** * The helper against the quotient formula *)
(* ===================================================================== *)

Module Quotient.

Import RoundDefs Round IntFacts Normalize.

Lemma quotient_eq (black white val : Z) :
  Spec.normalization_quotient black white val =
  Binary32.fmaxf Binary32.pzero
    (Binary32.div (Binary32.of_int (val - black)) (Binary32.of_int (white - black))).
Proof. reflexivity. Qed.

Lemma binary_round_aux_sign (s : bool) (mx ex : Z) (lx : location) :
  match binary_round_aux prec emax s mx ex lx with
  | S754_zero s' | S754_infinity s' | S754_finite s' _ _ => s' = s
  | S754_nan => True
  end.
Proof.
  unfold binary_round_aux.
  destruct (shr_fexp prec emax mx ex lx) as [mrs e'].
  destruct (shr_fexp prec emax _ e' loc_Exact) as [mrs' e''].
  destruct (shr_m mrs'); auto.
  destruct (e'' <=? emax - prec); reflexivity.
Qed.

Lemma div_nonpos (x : Binary32.float) (m : positive) (e : Z) :
  nonpos_or_nan x -> nonpos_or_nan (Binary32.div x (S754_finite false m e)).
Proof.
  destruct x as [sx|[]| |[] mx ex]; simpl; intros H; try contradiction; auto.
  change Binary32.prec with prec. change Binary32.emax with emax.
  destruct (SFdiv_core_binary prec emax (Z.pos mx) ex (Z.pos m) e) as [[mz ez] lz].
  pose proof (binary_round_aux_sign true mz ez lz) as S.
  destruct (binary_round_aux prec emax true mz ez lz) as [s'|s'| |s' ? ?];
    simpl; auto; subst s'; exact I.
Qed.

Lemma fmaxf_pzero_nonpos (x : Binary32.float) :
  nonpos_or_nan x -> Binary32.fmaxf Binary32.pzero x = Binary32.pzero.
Proof. destruct x as [[]|[]| |[] m e]; simpl; intros H; try contradiction; reflexivity. Qed.

(** The plain helper is the single-precision quotient formula. *)
Lemma quotient_is_plain (black white val : Z) :
  Spec.levels black white -> u16_range val ->
  @Spec.normalization_quotient Binary32.float _ black white val =
  Spec.plain_norm black white val.
Proof.
  intros L Hv.
  destruct (levels_sub black white val L Hv) as (E1 & E2 & Hr & Hm).
  destruct (Z.le_gt_cases val black) as [Le|Gt].
  - rewrite (plain_norm_below _ _ _ L Hv Le), quotient_eq.
    destruct (of_int_normal (white - black) Hr) as (mr & er & -> & _).
    apply fmaxf_pzero_nonpos, div_nonpos.
    destruct (Z.eq_dec val black) as [->|Ne].
    + rewrite Z.sub_diag. exact I.
    + apply of_int_neg. lia.
  - destruct (plain_norm_above _ _ _ L Hv Gt) as (E & m & e & Ef & _).
    rewrite quotient_eq, <- E, Ef. reflexivity.
Qed.

(** Over the rationals the FMA helper is the quotient formula. *)
Lemma exact_quotient (black white val : Z) :
  Spec.levels black white -> u16_range val ->
  @Spec.fma_norm Qc _ black white val = Spec.normalization_quotient black white val.
Proof.
  intros L Hv.
  destruct (levels_sub black white val L Hv) as (E1 & E2 & Hr & Hm).
  unfold Spec.fma_norm. rewrite E2, ExactFacts.normalize_agree by lia.
  unfold Plain.normalize, Spec.normalization_quotient. rewrite E1.
  cbn -[Exact.lit]. rewrite ExactFacts.exact_lit_0, !ExactFacts.of_int_Qc.
  set (v := val - black).
  pose proof (proj1 (Z2Qc_inj_lt 0 (white - black)) ltac:(lia)) as R.
  rewrite Z2Qc_inj_0 in R.
  assert (IR : (0 < / Qc_of_Z (white - black))%Qc) by now apply Qcinv_pos.
  unfold Exact.max, Qcdiv.
  destruct (Z.ltb_spec v 0) as [Neg|Nonneg].
  - pose proof (proj1 (Z2Qc_inj_lt v 0) Neg) as V. rewrite Z2Qc_inj_0 in V.
    rewrite Z2Qc_inj_0, Qcmult_0_l.
    destruct (Qclt_le_dec _ _) as [Lt|_]; [|reflexivity].
    exfalso. apply (Qclt_not_le _ _ Lt). apply Qclt_le_weak.
    rewrite <- (Qcmult_0_l (/ Qc_of_Z (white - black))).
    now apply Qcmult_lt_compat_r.
  - destruct (Qclt_le_dec _ _) as [_|Le]; [reflexivity|].
    pose proof (proj1 (Z2Qc_inj_le 0 v) Nonneg) as V. rewrite Z2Qc_inj_0 in V.
    apply Qcle_antisym; [exact Le|].
    apply Qcmult_nonneg_nonneg; [exact V|now apply Qclt_le_weak].
Qed.

End Quotient.

(* ===================================================================== *)
(** * The clamp and the matrix entries *)
(* ===================================================================== *)

Module ClampOrder.

Import Binary32 Clamp.

(** The comparison of two positive finite floats is lexicographic in the
    exponent and the mantissa. *)
Lemma compare_pos (m1 m2 : positive) (e1 e2 : Z) :
  SFcompare (S754_finite false m1 e1) (S754_finite false m2 e2) =
  Some (match e1 ?= e2 with
        | Lt => Lt | Gt => Gt | Eq => (m1 ?= m2)%positive
        end).
Proof. simpl. destruct (e1 ?= e2); reflexivity. Qed.

Lemma ltb_pos (m1 m2 : positive) (e1 e2 : Z) :
  SFltb (S754_finite false m1 e1) (S754_finite false m2 e2) = true <->
  (e1 < e2 \/ (e1 = e2 /\ Zpos m1 < Zpos m2)).
Proof.
  unfold SFltb. rewrite compare_pos.
  destruct (Z.compare_spec e1 e2) as [E|L|G].
  - destruct (Pos.compare_spec m1 m2); split; intros K; try discriminate;
      try reflexivity; try lia.
  - split; [lia|reflexivity].
  - split; [discriminate|lia].
Qed.

Lemma leb_pos (m1 m2 : positive) (e1 e2 : Z) :
  SFleb (S754_finite false m1 e1) (S754_finite false m2 e2) = true <->
  (e1 < e2 \/ (e1 = e2 /\ Zpos m1 <= Zpos m2)).
Proof.
  unfold SFleb. rewrite compare_pos.
  destruct (Z.compare_spec e1 e2) as [E|L|G].
  - destruct (Pos.compare_spec m1 m2); split; intros K; try discriminate;
      try reflexivity; try lia.
  - split; [lia|reflexivity].
  - split; [discriminate|lia].
Qed.

(** What the clamp returns, by the kind of its argument. *)
Lemma clamp01_nonpos (v : float) :
  RoundDefs.nonpos_or_nan v -> clamp01 v = pzero.
Proof.
  destruct v as [[]|[]| |[] m e]; intros K;
    try (exfalso; exact K); reflexivity.
Qed.

Lemma clamp01_pinf : clamp01 (S754_infinity false) = one.
Proof. reflexivity. Qed.

Lemma clamp01_pos (m : positive) (e : Z) :
  clamp01 (S754_finite false m e) =
  if SFltb one (S754_finite false m e) then one else S754_finite false m e.
Proof. reflexivity. Qed.

Lemma clamp01_mono (v w : float) :
  SFleb v w = true -> SFleb (clamp01 v) (clamp01 w) = true.
Proof.
  intros L.
  destruct v as [sv|[]| |[] mv ev];
    try (match goal with
         | |- SFleb (clamp01 ?x) _ = true =>
             rewrite (clamp01_nonpos x I); apply clamp01_range
         end);
    try discriminate L.
  { destruct w as [sw|[]| |[] mw ew]; try discriminate L;
      try (destruct sw; discriminate L). reflexivity. }
  destruct w as [sw|[]| |[] mw ew]; try discriminate L;
    try (destruct sw; discriminate L).
  - rewrite clamp01_pinf. apply clamp01_range.
  - rewrite !clamp01_pos, one_eq.
    destruct (SFltb _ (S754_finite false mv ev)) eqn:Lv;
      destruct (SFltb _ (S754_finite false mw ew)) eqn:Lw;
      try reflexivity; try exact L.
    + exfalso. apply ltb_pos in Lv. apply leb_pos in L.
      assert (K : SFltb (S754_finite false 8388608 (-23)) (S754_finite false mw ew)
                  = true) by (apply ltb_pos; lia).
      congruence.
    + apply ltb_false_leb in Lv; auto.
Qed.

End ClampOrder.

Module StepFacts.

Import Binary32 Clamp.

(** The clamp saturates at 1 from above and at [+0] from below. *)
Lemma clamp01_above (v : float) :
  SFleb one v = true -> clamp01 v = one.
Proof.
  intros L. rewrite one_eq in *.
  destruct v as [[]|[]| |[] m e]; try discriminate L; [reflexivity|].
  rewrite ClampOrder.clamp01_pos, one_eq.
  destruct (SFltb _ _) eqn:K; [reflexivity|].
  apply ltb_false_leb in K; auto.
  apply ClampOrder.leb_pos in L, K.
  assert (e = -23 /\ Zpos m = 8388608) as [-> Em] by lia.
  injection Em as ->. reflexivity.
Qed.

Lemma clamp01_below (v : float) :
  SFleb v pzero = true -> clamp01 v = pzero.
Proof.
  intros L. apply ClampOrder.clamp01_nonpos.
  destruct v as [[]|[]| |[] m e]; try discriminate L; exact I.
Qed.

(** Over the rationals the clamp is the identity on [[0, 1]] and saturates
    outside. *)
Lemma clamp01_exact (v : Qc) :
  ((1 <= v -> clamp01 v = 1) /\ (v <= 0 -> clamp01 v = 0) /\
   (0 <= v <= 1 -> clamp01 v = v))%Qc.
Proof.
  unfold clamp01. cbn [f_min f_max f_lit exact_ops].
  rewrite ExactFacts.exact_lit_0, ExactFacts.exact_lit_1.
  assert (Z1 : (0 < 1)%Qc) by reflexivity.
  unfold Exact.max, Exact.min.
  repeat split.
  - intros H. destruct (Qclt_le_dec v 0) as [A|A].
    + exfalso. apply (Qclt_not_le _ _ A).
      apply Qcle_trans with 1%Qc; [now apply Qclt_le_weak|exact H].
    + destruct (Qclt_le_dec 1 v) as [B|B]; [reflexivity|].
      now apply Qcle_antisym.
  - intros H. destruct (Qclt_le_dec v 0) as [A|A].
    + destruct (Qclt_le_dec 1 0) as [B|B]; [discriminate B|reflexivity].
    + destruct (Qclt_le_dec 1 v) as [B|B].
      * exfalso. apply (Qclt_not_le _ _ B).
        apply Qcle_trans with 0%Qc; [exact H|now apply Qclt_le_weak].
      * now apply Qcle_antisym.
  - intros [H0 H1]. destruct (Qclt_le_dec v 0) as [A|A].
    + exfalso. now apply (Qclt_not_le _ _ A).
    + destruct (Qclt_le_dec 1 v) as [B|B]; [|reflexivity].
      exfalso. now apply (Qclt_not_le _ _ B).
Qed.

Lemma mat_entry {F : Type} `{FloatOps F} (m : list F) (i : nat) :
  (i < length m)%nat -> nth_error m i = Some (mat m i).
Proof. intros Hi. unfold mat. now apply nth_error_nth'. Qed.

End StepFacts.

(* ===================================================================== *)
(** * The claims *)
(* ===================================================================== *)

(** C1.  For every in-range pixel both entry points ([apply_color_pipeline]
    at every pixel of the image, the FMA [debayer16_to_xyz] at every
    interior pixel) store the result of the same four steps applied, in
    order, to their camera triple: the 3x4 affine camera-to-XYZ map whose
    fourth column is always added, the fixed XYZ-to-sRGB matrix, the
    exposure factor 3.5, and the per-channel clamp.  The three stores are
    spelled out step by step; [mat m i] is entry [i] of the row-major
    matrix.  Read over the rationals the first two steps are the affine and
    linear forms with the stated constants, and the clamp is the identity on
    [[0, 1]], 1 above and 0 below.  In binary32 the clamp likewise returns 1
    on every value that is at least 1, [+0] on every value that is at most
    0 and the value itself in between, and every stored component lies in
    [[0, 1]]. *)
Theorem color_transform_steps
    (rgb_in inp : list Z) (p : params Binary32.float) (x y : Z) :
  Spec.sized (width p) (height p) ->
  (0 <= x < width p -> 0 <= y < height p ->
   Color.apply_color_pipeline rgb_in p x y =
   Spec.stores_at ((y * width p + x) * 3)
     (Spec.color_transform (cam_to_xyz p) (Spec.color_cam rgb_in p x y))) /\
  (Spec.interior (width p) (height p) x y ->
   Fma.debayer16_to_xyz inp p x y =
   Spec.stores_at ((y * width p + x) * 3)
     (Spec.color_transform (cam_to_xyz p) (Spec.demosaic_cam inp p x y))) /\
  (forall (m : list Binary32.float) (idx : Z) (r g b : Binary32.float),
     Spec.stores_at idx (Spec.color_transform m (r, g, b)) =
     let X := Spec.cam_to_xyz_row m 0 r g b in
     let Y := Spec.cam_to_xyz_row m 1 r g b in
     let Z := Spec.cam_to_xyz_row m 2 r g b in
     let sr := Spec.xyz_to_srgb_row (f_lit 32404542 10000000)
                 (f_lit (-15371385) 10000000) (f_lit (-4985314) 10000000) (X, Y, Z) in
     let sg := Spec.xyz_to_srgb_row (f_lit (-9692660) 10000000)
                 (f_lit 18760108 10000000) (f_lit 415560 10000000) (X, Y, Z) in
     let sb := Spec.xyz_to_srgb_row (f_lit 556434 10000000)
                 (f_lit (-2040259) 10000000) (f_lit 10572252 10000000) (X, Y, Z) in
     [ (idx, clamp01 (Binary32.mul sr Spec.exposure));
       (idx + 1, clamp01 (Binary32.mul sg Spec.exposure));
       (idx + 2, clamp01 (Binary32.mul sb Spec.exposure)) ]) /\
  (forall (m : list Binary32.float) (i : nat),
     (i < length m)%nat -> nth_error m i = Some (mat m i)) /\
  Forall (fun s => Spec.in_unit (snd s))
    (Color.apply_color_pipeline rgb_in p x y ++ Fma.debayer16_to_xyz inp p x y) /\
  (forall v : Binary32.float,
     (SFleb Binary32.one v = true -> clamp01 v = Binary32.one) /\
     (SFleb v Binary32.pzero = true -> clamp01 v = Binary32.pzero) /\
     (SFleb Binary32.pzero v = true -> SFleb v Binary32.one = true ->
      v <> Binary32.nzero -> clamp01 v = v)) /\
  (forall v : Qc,
     (1 <= v -> clamp01 v = 1) /\ (v <= 0 -> clamp01 v = 0) /\
     (0 <= v <= 1 -> clamp01 v = v))%Qc /\
  (forall (m : list Qc) (i : nat) (r g b : Qc),
     Spec.cam_to_xyz_row m i r g b =
     (mat m (4 * i) * r + mat m (4 * i + 1) * g + mat m (4 * i + 2) * b
      + mat m (4 * i + 3))%Qc) /\
  (forall X Y Z : Qc,
     Spec.xyz_to_srgb (X, Y, Z) =
     (Q2Qc (32404542 # 10000000) * X + Q2Qc (-15371385 # 10000000) * Y
        + Q2Qc (-4985314 # 10000000) * Z,
      Q2Qc (-9692660 # 10000000) * X + Q2Qc (18760108 # 10000000) * Y
        + Q2Qc (415560 # 10000000) * Z,
      Q2Qc (556434 # 10000000) * X + Q2Qc (-2040259 # 10000000) * Y
        + Q2Qc (10572252 # 10000000) * Z)%Qc) /\
  @Spec.exposure Qc _ = Q2Qc (35 # 10) /\
  @Spec.exposure Binary32.float _ = S754_finite false 14680064 (-22).
Proof.
  intros Hs.
  split; [|split; [|split; [|split; [|split; [|split; [|split; [|split; [|split; [|split]]]]]]]]].
  - intros Hx Hy. now apply Pipeline.color_steps.
  - intros Hi. now apply Pipeline.debayer_steps.
  - reflexivity.
  - intros m i. apply StepFacts.mat_entry.
  - apply Forall_app. split.
    + eapply Forall_impl; [apply Range.color_stores_clamped|].
      intros s. apply Range.clamped_in_unit.
    + eapply Forall_impl; [apply Range.fma_stores_clamped|].
      intros s. apply Range.clamped_in_unit.
  - intros v. split; [apply StepFacts.clamp01_above|].
    split; [apply StepFacts.clamp01_below|apply Clamp.clamp01_fixed].
  - apply StepFacts.clamp01_exact.
  - apply ExactFacts.cam_to_xyz_row_affine.
  - intros X Y Z. unfold Spec.xyz_to_srgb.
    now rewrite !ExactFacts.xyz_to_srgb_row_linear.
  - reflexivity.
  - reflexivity.
Qed.

Lemma color_transform_steps_witness :
  Spec.sized 5 5 /\ Spec.interior 5 5 2 2 /\
  Fma.debayer16_to_xyz Examples.mosaic_5x5 Examples.params_5x5 2 2 =
  Spec.stores_at 36
    (Spec.color_transform Examples.identity_matrix
       (Spec.demosaic_cam Examples.mosaic_5x5 Examples.params_5x5 2 2)) /\
  Color.apply_color_pipeline Examples.rgb_5x5 Examples.params_5x5 0 4 =
  Spec.stores_at 60
    (Spec.color_transform Examples.identity_matrix
       (Spec.color_cam Examples.rgb_5x5 Examples.params_5x5 0 4)) /\
  Spec.stores_at 36
    (Spec.color_transform Examples.identity_matrix
       (Spec.demosaic_cam Examples.mosaic_5x5 Examples.params_5x5 2 2)) =
  [ (36, S754_finite false 8877834 (-29));
    (37, S754_finite false 13975707 (-30));
    (38, S754_finite false 13394188 (-30)) ].
Proof.
  assert (Hs : Spec.sized 5 5) by (unfold Spec.sized, INT_MAX; lia).
  assert (Hi : Spec.interior 5 5 2 2) by (unfold Spec.interior; lia).
  split; [exact Hs|]. split; [exact Hi|]. split; [|split].
  - exact (proj1 (proj2 (color_transform_steps Examples.rgb_5x5 Examples.mosaic_5x5
                           Examples.params_5x5 2 2 Hs)) Hi).
  - refine (proj1 (color_transform_steps Examples.rgb_5x5 Examples.mosaic_5x5
                     Examples.params_5x5 0 4 Hs) _ _); simpl; lia.
  - vm_compute. reflexivity.
Defined.

(** C2.  At every interior pixel each channel helper returns the value of
    exactly one rule (the sample itself, the mean of two neighbours, or the
    mean of four), and the rule is a function of the parities of [x] and
    [y] alone: red is direct at (even, even), left/right at (odd, even),
    up/down at (even, odd), diagonal at (odd, odd); green is direct when
    [x + y] is odd and orthogonal otherwise; blue is red with both parities
    flipped.  The same holds for both variants of the helpers. *)
Theorem rggb_parity_coverage {F : Type} `{FloatOps F}
    (inp : list Z) (w h x y black : Z) (inv_range range : F) :
  Spec.addressable w h -> Spec.interior w h x y ->
  (Fma.get_red inp x y w black inv_range =
     Spec.reconstruct Spec.fma_mean2 Spec.fma_mean4
       (Spec.fma_sample inp w black inv_range)
       (Spec.red_rule (Z.odd x) (Z.odd y)) x y /\
   Fma.get_green inp x y w black inv_range =
     Spec.reconstruct Spec.fma_mean2 Spec.fma_mean4
       (Spec.fma_sample inp w black inv_range)
       (Spec.green_rule (Z.odd x) (Z.odd y)) x y /\
   Fma.get_blue inp x y w black inv_range =
     Spec.reconstruct Spec.fma_mean2 Spec.fma_mean4
       (Spec.fma_sample inp w black inv_range)
       (Spec.blue_rule (Z.odd x) (Z.odd y)) x y) /\
  (Plain.get_red inp x y w black range =
     Spec.reconstruct Spec.plain_mean2 Spec.plain_mean4
       (Spec.plain_sample inp w black range)
       (Spec.red_rule (Z.odd x) (Z.odd y)) x y /\
   Plain.get_green inp x y w black range =
     Spec.reconstruct Spec.plain_mean2 Spec.plain_mean4
       (Spec.plain_sample inp w black range)
       (Spec.green_rule (Z.odd x) (Z.odd y)) x y /\
   Plain.get_blue inp x y w black range =
     Spec.reconstruct Spec.plain_mean2 Spec.plain_mean4
       (Spec.plain_sample inp w black range)
       (Spec.blue_rule (Z.odd x) (Z.odd y)) x y) /\
  (* the rules, by parity class (x odd?, y odd?) *)
  (map (fun c => Spec.red_rule (fst c) (snd c))
       [(false, false); (true, false); (false, true); (true, true)]
     = [Spec.Direct; Spec.Horizontal; Spec.Vertical; Spec.Diagonal] /\
   map (fun c => Spec.green_rule (fst c) (snd c))
       [(false, false); (true, false); (false, true); (true, true)]
     = [Spec.Orthogonal; Spec.Direct; Spec.Direct; Spec.Orthogonal] /\
   map (fun c => Spec.blue_rule (fst c) (snd c))
       [(false, false); (true, false); (false, true); (true, true)]
     = [Spec.Diagonal; Spec.Vertical; Spec.Horizontal; Spec.Direct]) /\
  (* a rule is one of the three branch shapes *)
  (forall r : Spec.rule,
     length (Spec.neighbours r x y) =
     match Spec.shape_of r with
     | Spec.DirectSample => 1%nat
     | Spec.TwoNeighbourMean => 2%nat
     | Spec.FourNeighbourMean => 4%nat
     end) /\
  (* the samples each rule reads *)
  (Spec.neighbours Spec.Direct x y = [(x, y)] /\
   Spec.neighbours Spec.Horizontal x y = [(x - 1, y); (x + 1, y)] /\
   Spec.neighbours Spec.Vertical x y = [(x, y - 1); (x, y + 1)] /\
   Spec.neighbours Spec.Diagonal x y =
     [(x - 1, y - 1); (x + 1, y - 1); (x - 1, y + 1); (x + 1, y + 1)] /\
   Spec.neighbours Spec.Orthogonal x y =
     [(x - 1, y); (x + 1, y); (x, y - 1); (x, y + 1)]).
Proof.
  intros Ha Hi. repeat split;
    eauto using Parity.fma_get_red_rule, Parity.fma_get_green_rule,
      Parity.fma_get_blue_rule, Parity.plain_get_red_rule,
      Parity.plain_get_green_rule, Parity.plain_get_blue_rule.
  intros r. now destruct r.
Qed.

Lemma rggb_parity_coverage_witness :
  Spec.addressable 5 5 /\ Spec.interior 5 5 2 3 /\
  Fma.get_red Examples.mosaic_5x5 2 3 5 0 (Binary32.lit 1 65535) =
  Spec.reconstruct Spec.fma_mean2 Spec.fma_mean4
    (Spec.fma_sample Examples.mosaic_5x5 5 0 (Binary32.lit 1 65535))
    Spec.Vertical 2 3.
Proof.
  assert (Ha : Spec.addressable 5 5) by (unfold Spec.addressable, INT_MAX; lia).
  assert (Hi : Spec.interior 5 5 2 3) by (unfold Spec.interior; lia).
  split; [exact Ha|]. split; [exact Hi|].
  exact (proj1 (proj1 (rggb_parity_coverage Examples.mosaic_5x5 5 5 2 3 0
                         (Binary32.lit 1 65535) (Binary32.of_int 65535) Ha Hi))).
Defined.

(** C3 (as stated, refuted).  The claim reads the helper's result as the
    single-precision value of [max(0, (sample - black) / (white - black))].
    For a 16-bit sensor ([black_level = 0], [white_level = 65535]) and
    sample 257 the helper returns [8421504 * 2^-31], the quotient formula
    [8421505 * 2^-31]. *)
Lemma normalization_not_the_quotient :
  Spec.levels 0 65535 /\ u16_range 257 /\
  @Spec.fma_norm Binary32.float _ 0 65535 257 = S754_finite false 8421504 (-31) /\
  @Spec.normalization_quotient Binary32.float _ 0 65535 257
    = S754_finite false 8421505 (-31) /\
  @Spec.fma_norm Binary32.float _ 0 65535 257
    <> Spec.normalization_quotient 0 65535 257.
Proof.
  split; [unfold Spec.levels, int_range, INT_MIN, INT_MAX, UINT16_MAX; lia|].
  split; [unfold u16_range, UINT16_MAX; lia|].
  split; [reflexivity|]. split; [reflexivity|].
  intros E. vm_compute in E. discriminate E.
Qed.

(** C3 (amended).  For every 16-bit sample and every pair of levels with
    [white_level > black_level] (whose subtractions fit an [int]) the
    Normalization helper returns [+0] when the sample is at or below the
    black level, and otherwise the rounded product of [(float)(sample -
    black)] with the rounded reciprocal [1.0f / (float)(white - black)]: a
    positive normal float, not clamped from above.  That product is the
    single-precision value of [max(0, (sample - black) / (white - black))]
    whenever [white - black] is a power of two, and is that quotient
    exactly when the operations are read over the rationals. *)
Theorem normalization_value (black white val : Z) :
  Spec.levels black white -> u16_range val ->
  (val <= black -> @Spec.fma_norm Binary32.float _ black white val = Binary32.pzero) /\
  (black < val ->
   @Spec.fma_norm Binary32.float _ black white val =
     Binary32.mul (Binary32.of_int (val - black))
       (Binary32.div Binary32.one (Binary32.of_int (white - black))) /\
   RoundDefs.normal (-55) 11 (Spec.fma_norm black white val)) /\
  (forall k : Z, white - black = 2 ^ k ->
   @Spec.fma_norm Binary32.float _ black white val =
     Spec.normalization_quotient black white val) /\
  @Spec.fma_norm Qc _ black white val = Spec.normalization_quotient black white val /\
  SFltb Binary32.one (Spec.fma_norm 0 1023 65535) = true.
Proof.
  intros L Hv. repeat split.
  - intros Hle. now apply Normalize.fma_norm_below.
  - now apply Normalize.fma_norm_above.
  - now apply Normalize.fma_norm_above.
  - intros k Hk. rewrite Quotient.quotient_is_plain by assumption.
    now apply (PowerOfTwo.norm_agree black white val k).
  - now apply Quotient.exact_quotient.
Qed.

Lemma normalization_value_witness :
  Spec.levels 64 1088 /\ u16_range 300 /\
  @Spec.fma_norm Binary32.float _ 64 1088 300 =
    Spec.normalization_quotient 64 1088 300.
Proof.
  assert (L : Spec.levels 64 1088)
    by (unfold Spec.levels, int_range, INT_MIN, INT_MAX, UINT16_MAX; lia).
  assert (Hv : u16_range 300) by (unfold u16_range, UINT16_MAX; lia).
  split; [exact L|]. split; [exact Hv|].
  exact (proj1 (proj2 (proj2 (normalization_value 64 1088 300 L Hv))) 10 eq_refl).
Defined.

(** C4.  In a launch of [debayer16_to_xyz] (either variant) whose grid
    covers the image, the thread of a border pixel performs no store, no
    thread stores to any of the three locations of a border pixel, so those
    locations keep their content, and each of the three locations of an
    interior pixel is stored to exactly once in the whole launch, by the
    thread of that pixel. *)
Theorem border_exclusion {F : Type} `{FloatOps F}
    (inp : list Z) (p : params F) (gx gy x y c : Z) (out : gmap Z F) :
  Spec.sized (width p) (height p) ->
  width p <= gx -> height p <= gy -> 0 <= c < 3 ->
  let i := (y * width p + x) * 3 + c in
  (Spec.border (width p) (height p) x y ->
   Fma.debayer16_to_xyz inp p x y = [] /\
   Plain.debayer16_to_xyz inp p x y = [] /\
   writes_to i (launch (Fma.debayer16_to_xyz inp p) gx gy) = 0%nat /\
   writes_to i (launch (Plain.debayer16_to_xyz inp p) gx gy) = 0%nat /\
   run_stores out (launch (Fma.debayer16_to_xyz inp p) gx gy) !! i = out !! i /\
   run_stores out (launch (Plain.debayer16_to_xyz inp p) gx gy) !! i = out !! i) /\
  (Spec.interior (width p) (height p) x y ->
   writes_to i (launch (Fma.debayer16_to_xyz inp p) gx gy) = 1%nat /\
   writes_to i (Fma.debayer16_to_xyz inp p x y) = 1%nat /\
   writes_to i (launch (Plain.debayer16_to_xyz inp p) gx gy) = 1%nat /\
   writes_to i (Plain.debayer16_to_xyz inp p x y) = 1%nat).
Proof.
  intros Hs Hgx Hgy Hc i.
  pose proof (fun a b => Border.fma_offsets inp p a b Hs) as KF.
  pose proof (fun a b => Border.plain_offsets inp p a b Hs) as KP.
  split.
  - intros Hb. pose proof Hb as (Hx & Hy & _).
    pose proof (Border.thread_border _ _ _ KF x y Hb) as EF.
    pose proof (Border.thread_border _ _ _ KP x y Hb) as EP.
    assert (WF : writes_to i (launch (Fma.debayer16_to_xyz inp p) gx gy) = 0%nat).
    { unfold i. rewrite (Border.launch_writes _ _ _ KF) by assumption.
      now rewrite EF. }
    assert (WP : writes_to i (launch (Plain.debayer16_to_xyz inp p) gx gy) = 0%nat).
    { unfold i. rewrite (Border.launch_writes _ _ _ KP) by assumption.
      now rewrite EP. }
    repeat split; auto using Stores.run_stores_frame.
  - intros Hi. pose proof Hi as [Hx Hy].
    pose proof (Border.thread_self _ _ _ KF x y c Hi Hc) as SF.
    pose proof (Border.thread_self _ _ _ KP x y c Hi Hc) as SP.
    unfold i.
    rewrite (Border.launch_writes _ _ _ KF), (Border.launch_writes _ _ _ KP)
      by (auto; lia).
    auto.
Qed.

Lemma border_exclusion_witness :
  Spec.sized 3 3 /\ Spec.border 3 3 2 1 /\
  writes_to 16
    (launch (Fma.debayer16_to_xyz Examples.mosaic_3x3 Examples.params_3x3) 4 4)
  = 0%nat.
Proof.
  assert (Hs : Spec.sized 3 3) by (unfold Spec.sized, INT_MAX; lia).
  assert (Hb : Spec.border 3 3 2 1) by (unfold Spec.border; lia).
  split; [exact Hs|]. split; [exact Hb|].
  refine (proj1 (proj2 (proj2 (proj1
    (border_exclusion Examples.mosaic_3x3 Examples.params_3x3 4 4 2 1 1 empty
       Hs _ _ _) Hb)))); simpl; lia.
Defined.



(** The premise of the composition is about the normalised values: a
    buffer of integer neighbour means need not satisfy it.  On the 10-bit
    sensor the mean 250 of the raw diagonal samples normalises to
    [13015901 * 2^-25] after white balance, the mean of the four normalised
    samples to [13015900 * 2^-25]. *)
Remark integer_means_need_not_hold_demosaic :
  ~ Spec.holds_demosaic_of Examples.rgb_3x3 Examples.mosaic_3x3
      Examples.params_3x3_10bit 1 1.
Proof. intros E. vm_compute in E. discriminate E. Qed.

(** C6 (as stated, refuted).  On a uniform 5x5 mosaic of value 257 with
    [black_level = 0], [white_level = 65535] and unit gains, the two
    variants of [debayer16_to_xyz] store different floats at the interior
    pixel (2, 2), a red site: the red sample normalises to
    [8421504 * 2^-31] in one and to [8421505 * 2^-31] in the other.  With
    the matrix that keeps only the red channel the difference reaches the
    output through operations that are the same in both variants; with the
    identity matrix all three components differ. *)
Lemma variants_differ_in_binary32 :
  Spec.sized 5 5 /\ Spec.interior 5 5 2 2 /\ Spec.levels 0 65535 /\
  Fma.debayer16_to_xyz Examples.mosaic_5x5 Examples.params_5x5_red 2 2 =
    [ (36, S754_finite false 11939155 (-28));
      (37, S754_zero false);
      (38, S754_finite false 13120831 (-34)) ] /\
  Plain.debayer16_to_xyz Examples.mosaic_5x5 Examples.params_5x5_red 2 2 =
    [ (36, S754_finite false 11939157 (-28));
      (37, S754_zero false);
      (38, S754_finite false 13120832 (-34)) ] /\
  Fma.debayer16_to_xyz Examples.mosaic_5x5 Examples.params_5x5_red 2 2 <>
  Plain.debayer16_to_xyz Examples.mosaic_5x5 Examples.params_5x5_red 2 2 /\
  Fma.debayer16_to_xyz Examples.mosaic_5x5 Examples.params_5x5 2 2 =
    [ (36, S754_finite false 8877834 (-29));
      (37, S754_finite false 13975707 (-30));
      (38, S754_finite false 13394188 (-30)) ] /\
  Plain.debayer16_to_xyz Examples.mosaic_5x5 Examples.params_5x5 2 2 =
    [ (36, S754_finite false 8877836 (-29));
      (37, S754_finite false 13975709 (-30));
      (38, S754_finite false 13394192 (-30)) ].
Proof.
  split; [unfold Spec.sized, INT_MAX; lia|].
  split; [unfold Spec.interior; lia|].
  split; [unfold Spec.levels, int_range, INT_MIN, INT_MAX, UINT16_MAX; lia|].
  split; [reflexivity|]. split; [reflexivity|].
  split; [|split; reflexivity].
  intros E. vm_compute in E. discriminate E.
Qed.

(** C6 (amended).  The two variants of [debayer16_to_xyz] implement the
    same function of the samples and parameters: read over the rationals
    (every operation exact) they perform equal stores at every interior
    pixel, for every mosaic and every parameter set with
    [white_level > black_level]; in binary32 they store to the same
    locations, with values that may differ in the last bits. *)
Theorem variants_agree_exactly
    (inp : list Z) (p : params Qc) (q : params Binary32.float) (x y : Z) :
  Spec.sized (width p) (height p) ->
  Spec.interior (width p) (height p) x y ->
  Spec.levels (black_level p) (white_level p) ->
  Spec.sized (width q) (height q) ->
  Fma.debayer16_to_xyz inp p x y = Plain.debayer16_to_xyz inp p x y /\
  map fst (Fma.debayer16_to_xyz inp q x y) = map fst (Plain.debayer16_to_xyz inp q x y).
Proof.
  intros Hs Hi L Hq. split.
  - apply ExactFacts.debayer_agree; auto.
    destruct L as (Hb & Hw & Hlt & Hr & _).
    rewrite IntFacts.isub_id; [lia|].
    unfold int_range, INT_MIN, INT_MAX in *. lia.
  - now rewrite Border.fma_offsets, Border.plain_offsets.
Qed.

Lemma variants_agree_exactly_witness :
  Spec.sized 5 5 /\ Spec.interior 5 5 2 2 /\ Spec.levels 0 65535 /\
  Fma.debayer16_to_xyz Examples.mosaic_5x5 Examples.params_5x5_exact 2 2 =
  Plain.debayer16_to_xyz Examples.mosaic_5x5 Examples.params_5x5_exact 2 2.
Proof.
  assert (Hs : Spec.sized 5 5) by (unfold Spec.sized, INT_MAX; lia).
  assert (Hi : Spec.interior 5 5 2 2) by (unfold Spec.interior; lia).
  assert (L : Spec.levels 0 65535)
    by (unfold Spec.levels, int_range, INT_MIN, INT_MAX, UINT16_MAX; lia).
  split; [exact Hs|]. split; [exact Hi|]. split; [exact L|].
  exact (proj1 (variants_agree_exactly Examples.mosaic_5x5 Examples.params_5x5_exact
                  Examples.params_5x5 2 2 Hs Hi L Hs)).
Defined.

(** C7 (as stated, refuted).  With [black_level = 0], [white_level = 65535]
    and sample 257, multiplying by the precomputed reciprocal
    [1.0f / 65535.0f = 8388736 * 2^-39] gives [8421504 * 2^-31], dividing
    by [65535.0f] gives [8421505 * 2^-31]. *)
Lemma reciprocal_differs_from_division :
  Spec.levels 0 65535 /\ u16_range 257 /\
  Binary32.div Binary32.one (Binary32.of_int 65535) = S754_finite false 8388736 (-39) /\
  Binary32.mul (Binary32.of_int 257) (S754_finite false 8388736 (-39))
    = S754_finite false 8421504 (-31) /\
  Binary32.div (Binary32.of_int 257) (Binary32.of_int 65535)
    = S754_finite false 8421505 (-31) /\
  @Spec.fma_norm Binary32.float _ 0 65535 257 <> Spec.plain_norm 0 65535 257.
Proof.
  split; [unfold Spec.levels, int_range, INT_MIN, INT_MAX, UINT16_MAX; lia|].
  split; [unfold u16_range, UINT16_MAX; lia|].
  split; [reflexivity|]. split; [reflexivity|]. split; [reflexivity|].
  intros E. vm_compute in E. discriminate E.
Qed.

(** C7 (amended).  Normalising by the precomputed reciprocal is
    bit-identical to dividing by [(float)(white - black)] whenever
    [white - black] is a power of two, for every 16-bit sample, and
    whenever the sample is at or below the black level (both give [+0]);
    for other ranges the two can differ in the last bit. *)
Theorem reciprocal_exact_for_power_of_two (black white val : Z) :
  Spec.levels black white -> u16_range val ->
  (forall k : Z, white - black = 2 ^ k ->
   @Spec.fma_norm Binary32.float _ black white val = Spec.plain_norm black white val) /\
  (val <= black ->
   @Spec.fma_norm Binary32.float _ black white val = Spec.plain_norm black white val).
Proof.
  intros L Hv. split.
  - intros k Hk. now apply (PowerOfTwo.norm_agree black white val k).
  - intros Hle. now rewrite Normalize.fma_norm_below, Normalize.plain_norm_below.
Qed.

Lemma reciprocal_exact_for_power_of_two_witness :
  Spec.levels 0 4096 /\ u16_range 4095 /\
  @Spec.fma_norm Binary32.float _ 0 4096 4095 = Spec.plain_norm 0 4096 4095.
Proof.
  assert (L : Spec.levels 0 4096)
    by (unfold Spec.levels, int_range, INT_MIN, INT_MAX, UINT16_MAX; lia).
  assert (Hv : u16_range 4095) by (unfold u16_range, UINT16_MAX; lia).
  split; [exact L|]. split; [exact Hv|].
  exact (proj1 (reciprocal_exact_for_power_of_two 0 4096 4095 L Hv) 12 eq_refl).
Defined.

(** C8.  For fixed levels with [white_level > black_level] (whose
    subtractions fit an [int]) the Normalization helper, in either variant,
    is monotone in the raw sample; it sends the black level to [+0], and
    every sample below the black level to exactly [+0], never to a negative
    value. *)
Theorem normalization_monotone (black white a b : Z) :
  Spec.levels black white -> u16_range a -> u16_range b -> a <= b ->
  SFleb (Spec.fma_norm black white a) (Spec.fma_norm black white b) = true /\
  SFleb (Spec.plain_norm black white a) (Spec.plain_norm black white b) = true /\
  (u16_range black ->
   @Spec.fma_norm Binary32.float _ black white black = Binary32.pzero /\
   @Spec.plain_norm Binary32.float _ black white black = Binary32.pzero) /\
  (a < black ->
   @Spec.fma_norm Binary32.float _ black white a = Binary32.pzero /\
   @Spec.plain_norm Binary32.float _ black white a = Binary32.pzero).
Proof.
  intros L Ha Hb Hab. repeat split.
  - now apply Normalize.fma_norm_mono.
  - now apply Normalize.plain_norm_mono.
  - apply Normalize.fma_norm_below; auto; lia.
  - apply Normalize.plain_norm_below; auto; lia.
  - apply Normalize.fma_norm_below; auto; lia.
  - apply Normalize.plain_norm_below; auto; lia.
Qed.

Lemma normalization_monotone_witness :
  Spec.levels 64 1023 /\ u16_range 500 /\ u16_range 65535 /\ 500 <= 65535 /\
  SFleb (Spec.fma_norm 64 1023 500) (Spec.fma_norm 64 1023 65535) = true.
Proof.
  assert (L : Spec.levels 64 1023)
    by (unfold Spec.levels, int_range, INT_MIN, INT_MAX, UINT16_MAX; lia).
  assert (Ha : u16_range 500) by (unfold u16_range, UINT16_MAX; lia).
  assert (Hb : u16_range 65535) by (unfold u16_range, UINT16_MAX; lia).
  assert (Hab : 500 <= 65535) by lia.
  split; [exact L|]. split; [exact Ha|]. split; [exact Hb|]. split; [exact Hab|].
  exact (proj1 (normalization_monotone 64 1023 500 65535 L Ha Hb Hab)).
Defined.

(** C9.  The output clamp [fminf(fmaxf(v, 0.0f), 1.0f)] is idempotent on
    every binary32 value: zeros of either sign, finite values, both
    infinities and NaN. *)
Theorem clamp_idempotent (v : Binary32.float) :
  clamp01 (clamp01 v) = clamp01 v.
Proof. apply Clamp.clamp01_idem. Qed.

(** C10.  The clamp maps every binary32 value into [0, 1]: NaN and
    [-infinity] go to [+0], [+infinity] goes to 1.  Hence every value any
    of the three kernels stores, in any thread of any launch and for any
    parameters (degenerate levels included), lies in [0, 1]. *)
Theorem clamp_total_range :
  (forall v : Binary32.float, Spec.in_unit (clamp01 v)) /\
  clamp01 Binary32.nan = Binary32.pzero /\
  clamp01 Binary32.ninf = Binary32.pzero /\
  clamp01 Binary32.pinf = Binary32.one /\
  (forall (buf : list Z) (p : params Binary32.float) (gx gy : Z),
     Forall (fun s => Spec.in_unit (snd s))
       (launch (Color.apply_color_pipeline buf p) gx gy) /\
     Forall (fun s => Spec.in_unit (snd s))
       (launch (Fma.debayer16_to_xyz buf p) gx gy) /\
     Forall (fun s => Spec.in_unit (snd s))
       (launch (Plain.debayer16_to_xyz buf p) gx gy)).
Proof.
  split; [exact Clamp.clamp01_range|].
  split; [reflexivity|]. split; [reflexivity|]. split; [reflexivity|].
  intros buf p gx gy. repeat split;
    (eapply Forall_impl; [|intros s; apply Range.clamped_in_unit]);
    apply Range.launch_clamped; intros x y;
    [apply Range.color_stores_clamped | apply Range.fma_stores_clamped
    | apply Range.plain_stores_clamped].
Qed.

(* ===================================================================== *)
(** * Lists of stores, buffers and grids *)
(* ===================================================================== *)

Module Lists.
Section Lists.

Context {A B : Type}.

Lemma map_flat_map {C : Type} (g : B -> C) (f : A -> list B) (l : list A) :
  map g (flat_map f l) = flat_map (fun a => map g (f a)) l.
Proof.
  induction l as [|a l IH]; [reflexivity|].
  simpl. now rewrite map_app, IH.
Qed.

Lemma elem_of_flat_map (f : A -> list B) (l : list A) (b : B) :
  elem_of b (flat_map f l) <-> exists a, elem_of a l /\ elem_of b (f a).
Proof.
  rewrite list_elem_of_In, in_flat_map.
  split; intros (a & Ha & Hb); exists a; split;
    try apply list_elem_of_In; auto; now apply list_elem_of_In.
Qed.

Lemma NoDup_flat_map (f : A -> list B) (l : list A) :
  NoDup l ->
  (forall a, elem_of a l -> NoDup (f a)) ->
  (forall a a' b, elem_of a l -> elem_of a' l ->
                  elem_of b (f a) -> elem_of b (f a') -> a = a') ->
  NoDup (flat_map f l).
Proof.
  induction 1 as [|a l Hni Hnd IH]; intros Hf Hinj; simpl; [constructor|].
  apply NoDup_app. split; [|split].
  - apply Hf. now left.
  - intros b Hb Hb'. apply elem_of_flat_map in Hb' as (a' & Ha' & Hb').
    assert (a = a') by (eapply Hinj; eauto; [now left|now right]).
    subst a'. contradiction.
  - apply IH.
    + intros a' Ha'. apply Hf. now right.
    + intros a1 a2 b H1 H2. apply Hinj; now right.
Qed.

Lemma flat_map_all_nil (f : A -> list B) (l : list A) :
  (forall a, elem_of a l -> f a = []) -> flat_map f l = [].
Proof.
  induction l as [|a l IH]; intros Hn; [reflexivity|].
  simpl. rewrite Hn by (now left). apply IH. intros a' Ha'. apply Hn. now right.
Qed.

Lemma flat_map_ext_elem (f g : A -> list B) (l : list A) :
  (forall a, elem_of a l -> f a = g a) -> flat_map f l = flat_map g l.
Proof.
  induction l as [|a l IH]; intros He; [reflexivity|].
  simpl. rewrite He by (now left). f_equal. apply IH.
  intros a' Ha'. apply He. now right.
Qed.

End Lists.
End Lists.

Module Buffer.
Section Buffer.

Context {F : Type}.

Lemma run_stores_cons (out : gmap Z F) (s : store F) (log : list (store F)) :
  run_stores out (s :: log) = run_stores (<[fst s := snd s]> out) log.
Proof. reflexivity. Qed.

Lemma run_stores_app (out : gmap Z F) (l1 l2 : list (store F)) :
  run_stores out (l1 ++ l2) = run_stores (run_stores out l1) l2.
Proof. unfold run_stores. apply fold_left_app. Qed.

(** A location that is not among the keys of a log keeps its content. *)
Lemma run_stores_notin (i : Z) (log : list (store F)) (out : gmap Z F) :
  ~ elem_of i (map fst log) -> run_stores out log !! i = out !! i.
Proof.
  revert out. induction log as [|s log IH]; intros out Hn; [reflexivity|].
  rewrite run_stores_cons, IH.
  - apply lookup_insert_ne. intros E. apply Hn. simpl. rewrite E. now left.
  - intros Hi. apply Hn. simpl. now right.
Qed.

(** With pairwise distinct keys, the value stored at a key is the one the
    buffer holds afterwards. *)
Lemma run_stores_lookup (i : Z) (v : F) (log : list (store F)) (out : gmap Z F) :
  NoDup (map fst log) -> elem_of (i, v) log ->
  run_stores out log !! i = Some v.
Proof.
  revert out. induction log as [|s log IH]; intros out Hnd Hin.
  - inversion Hin.
  - simpl in Hnd. apply NoDup_cons in Hnd as [Hni Hnd].
    rewrite run_stores_cons.
    apply elem_of_cons in Hin as [E|Hin].
    + subst s. simpl in *. rewrite run_stores_notin by assumption.
      apply lookup_insert_eq.
    + now apply IH.
Qed.

(** With pairwise distinct keys the order of the stores is irrelevant. *)
Lemma run_stores_perm (l1 l2 : list (store F)) :
  Permutation l1 l2 ->
  forall out : gmap Z F, NoDup (map fst l1) -> run_stores out l1 = run_stores out l2.
Proof.
  induction 1 as [|s l1 l2 HP IH|s t l|l1 l2 l3 HP1 IH1 HP2 IH2]; intros out Hnd.
  - reflexivity.
  - rewrite !run_stores_cons. apply IH.
    simpl in Hnd. now apply NoDup_cons in Hnd as [_ Hnd].
  - rewrite !run_stores_cons. f_equal.
    simpl in Hnd. apply NoDup_cons in Hnd as [Hni _].
    apply insert_insert_ne. intros E. apply Hni. rewrite E. now left.
  - rewrite IH1 by assumption. apply IH2.
    assert (HPm : Permutation (map fst l1) (map fst l2))
      by now apply Permutation_map.
    now rewrite <- HPm.
Qed.

Lemma writes_to_notin (i : Z) (log : list (store F)) :
  ~ elem_of i (map fst log) -> writes_to i log = 0%nat.
Proof.
  induction log as [|s log IH]; intros Hn; [reflexivity|].
  rewrite Stores.writes_to_cons.
  destruct (decide (fst s = i)) as [E|N].
  - exfalso. apply Hn. simpl. rewrite E. now left.
  - rewrite IH; [reflexivity|]. intros Hi. apply Hn. simpl. now right.
Qed.

Lemma writes_to_once (i : Z) (log : list (store F)) :
  NoDup (map fst log) -> elem_of i (map fst log) -> writes_to i log = 1%nat.
Proof.
  induction log as [|s log IH]; intros Hnd Hin; [inversion Hin|].
  simpl in Hnd, Hin. apply NoDup_cons in Hnd as [Hni Hnd].
  rewrite Stores.writes_to_cons.
  destruct (decide (fst s = i)) as [E|N].
  - subst i. now rewrite writes_to_notin.
  - apply elem_of_cons in Hin as [E|Hin]; [congruence|].
    now rewrite IH.
Qed.

End Buffer.
End Buffer.

Module GridFacts.
Section GridFacts.

Context {F : Type}.

Import Lists Buffer.

Lemma in_imageb_spec (w h x y : Z) :
  Grid.in_imageb w h x y = true <-> (0 <= x < w /\ 0 <= y < h).
Proof. unfold Grid.in_imageb. lia. Qed.

(** The locations of a pixel of the image lie inside the buffer, and
    determine the pixel. *)
Lemma pixel_locations_bounds (w h x y i : Z) :
  0 <= x < w -> 0 <= y < h -> elem_of i (Grid.pixel_locations w x y) ->
  exists c, 0 <= c < 3 /\ i = (y * w + x) * 3 + c /\ 0 <= i < 3 * (w * h).
Proof.
  intros Hx Hy Hi. unfold Grid.pixel_locations in Hi.
  assert (B : 0 <= y * w + x < w * h) by nia.
  repeat (apply elem_of_cons in Hi as [->|Hi]);
    [exists 0|exists 1|exists 2|inversion Hi]; lia.
Qed.

Lemma pixel_locations_NoDup (w x y : Z) : NoDup (Grid.pixel_locations w x y).
Proof.
  unfold Grid.pixel_locations.
  repeat (apply NoDup_cons; split;
          [rewrite ?elem_of_cons, ?elem_of_nil; lia|]).
  constructor.
Qed.

Lemma location_pixel (w h i : Z) :
  0 < w -> 0 <= i < 3 * (w * h) ->
  exists x y c, 0 <= x < w /\ 0 <= y < h /\ 0 <= c < 3 /\
                i = (y * w + x) * 3 + c.
Proof.
  intros Hw Hi.
  exists ((i / 3) mod w), ((i / 3) / w), (i mod 3).
  pose proof (Z.mod_pos_bound i 3 ltac:(lia)).
  pose proof (Z.mod_pos_bound (i / 3) w ltac:(lia)).
  pose proof (Z.div_mod i 3 ltac:(lia)).
  pose proof (Z.div_mod (i / 3) w ltac:(lia)).
  assert (0 <= i / 3 < w * h).
  { split; [apply Z.div_pos; lia|apply Z.div_lt_upper_bound; lia]. }
  assert (0 <= i / 3 / w < h).
  { split; [apply Z.div_pos; lia|apply Z.div_lt_upper_bound; lia]. }
  repeat split; try lia.
Qed.

Section Counting.

Variable kernel : Z -> Z -> list (store F).
Variables w h : Z.
Variable sel : Z -> Z -> bool.
Hypothesis sel_in_image :
  forall x y, sel x y = true -> 0 <= x < w /\ 0 <= y < h.
Hypothesis kernel_locations :
  forall x y, 0 <= x -> 0 <= y ->
    map fst (kernel x y) = if sel x y then Grid.pixel_locations w x y else [].

Lemma kernel_off (x y : Z) :
  0 <= x -> 0 <= y -> sel x y = false -> kernel x y = [].
Proof.
  intros Hx Hy E. pose proof (kernel_locations x y Hx Hy) as K.
  rewrite E in K. destruct (kernel x y); [reflexivity|discriminate].
Qed.

Lemma launch_elem (gx gy : Z) (s : store F) :
  elem_of s (launch kernel gx gy) <->
  exists x y, 0 <= x < gx /\ 0 <= y < gy /\ elem_of s (kernel x y).
Proof.
  unfold launch. rewrite elem_of_flat_map. split.
  - intros (y & Hy & Hs). apply elem_of_flat_map in Hs as (x & Hx & Hs).
    apply elem_of_seqZ in Hx, Hy. exists x, y. repeat split; auto; lia.
  - intros (x & y & Hx & Hy & Hs). exists y. split; [apply elem_of_seqZ; lia|].
    apply elem_of_flat_map. exists x. split; [apply elem_of_seqZ; lia|exact Hs].
Qed.

Lemma launch_keys (gx gy : Z) :
  map fst (launch kernel gx gy) =
  flat_map (fun y =>
    flat_map (fun x => if sel x y then Grid.pixel_locations w x y else [])
      (seqZ 0 gx)) (seqZ 0 gy).
Proof.
  unfold launch. rewrite map_flat_map.
  apply flat_map_ext_elem. intros y Hy. rewrite map_flat_map.
  apply flat_map_ext_elem. intros x Hx.
  apply elem_of_seqZ in Hx, Hy. apply kernel_locations; lia.
Qed.

Lemma launch_key (gx gy i : Z) :
  elem_of i (map fst (launch kernel gx gy)) <->
  exists x y, 0 <= x < gx /\ 0 <= y < gy /\ sel x y = true /\
              elem_of i (Grid.pixel_locations w x y).
Proof.
  rewrite launch_keys, elem_of_flat_map. split.
  - intros (y & Hy & Hi). apply elem_of_flat_map in Hi as (x & Hx & Hi).
    apply elem_of_seqZ in Hx, Hy. exists x, y.
    destruct (sel x y); [|inversion Hi]. repeat split; auto; lia.
  - intros (x & y & Hx & Hy & Hs & Hi). exists y.
    split; [apply elem_of_seqZ; lia|].
    apply elem_of_flat_map. exists x. split; [apply elem_of_seqZ; lia|].
    now rewrite Hs.
Qed.

(** No two stores of a launch hit the same location. *)
Lemma launch_NoDup (gx gy : Z) : NoDup (map fst (launch kernel gx gy)).
Proof.
  rewrite launch_keys.
  apply NoDup_flat_map; [apply NoDup_seqZ| |].
  - intros y _. apply NoDup_flat_map; [apply NoDup_seqZ| |].
    + intros x _. destruct (sel x y); [apply pixel_locations_NoDup|constructor].
    + intros x x' i _ _ Hi Hi'.
      destruct (sel x y) eqn:S; [|inversion Hi].
      destruct (sel x' y) eqn:S'; [|inversion Hi'].
      destruct (sel_in_image _ _ S) as [Hx Hy].
      destruct (sel_in_image _ _ S') as [Hx' _].
      destruct (pixel_locations_bounds w h x y i Hx Hy Hi) as (c & Hc & E & _).
      destruct (pixel_locations_bounds w h x' y i Hx' Hy Hi') as (c' & Hc' & E' & _).
      rewrite E in E'.
      now destruct (Border.offset_inj w x y c x' y c' Hx Hx' Hc Hc' E') as (-> & _).
  - intros y y' i _ _ Hi Hi'.
    apply elem_of_flat_map in Hi as (x & _ & Hi).
    apply elem_of_flat_map in Hi' as (x' & _ & Hi').
    destruct (sel x y) eqn:S; [|inversion Hi].
    destruct (sel x' y') eqn:S'; [|inversion Hi'].
    destruct (sel_in_image _ _ S) as [Hx Hy].
    destruct (sel_in_image _ _ S') as [Hx' Hy'].
    destruct (pixel_locations_bounds w h x y i Hx Hy Hi) as (c & Hc & E & _).
    destruct (pixel_locations_bounds w h x' y' i Hx' Hy' Hi') as (c' & Hc' & E' & _).
    rewrite E in E'.
    now destruct (Border.offset_inj w x y c x' y' c' Hx Hx' Hc Hc' E') as (_ & -> & _).
Qed.

(** Every store of a launch lands inside the buffer. *)
Lemma launch_in_bounds (gx gy i : Z) :
  elem_of i (map fst (launch kernel gx gy)) -> 0 <= i < 3 * (w * h).
Proof.
  intros Hi. apply launch_key in Hi as (x & y & _ & _ & S & Hi).
  destruct (sel_in_image _ _ S) as [Hx Hy].
  now destruct (pixel_locations_bounds w h x y i Hx Hy Hi) as (c & _ & _ & B).
Qed.

(** Threads outside the image do nothing: a grid larger than the image
    performs the stores of the grid that fits it. *)
Lemma launch_grid (gx gy : Z) :
  0 <= w <= gx -> 0 <= h <= gy -> launch kernel gx gy = launch kernel w h.
Proof.
  intros Hgx Hgy. unfold launch.
  replace gy with (h + (gy - h)) by lia.
  rewrite seqZ_app, flat_map_app by lia.
  rewrite (flat_map_all_nil _ (seqZ (0 + h) (gy - h))).
  - rewrite app_nil_r. apply flat_map_ext_elem. intros y Hy.
    apply elem_of_seqZ in Hy.
    replace gx with (w + (gx - w)) by lia.
    rewrite seqZ_app, flat_map_app by lia.
    rewrite (flat_map_all_nil _ (seqZ (0 + w) (gx - w))); [apply app_nil_r|].
    intros x Hx. apply elem_of_seqZ in Hx. apply kernel_off; try lia.
    destruct (sel x y) eqn:S; [|reflexivity].
    apply sel_in_image in S. lia.
  - intros y Hy. apply elem_of_seqZ in Hy. apply flat_map_all_nil.
    intros x Hx. apply elem_of_seqZ in Hx. apply kernel_off; try lia.
    destruct (sel x y) eqn:S; [|reflexivity].
    apply sel_in_image in S. lia.
Qed.

End Counting.

End GridFacts.
End GridFacts.

Module KernelGrid.
Section KernelGrid.

Context {F : Type} `{FloatOps F}.

Import Lists Buffer GridFacts.

Lemma interiorb_in_image (w h x y : Z) :
  Spec.interiorb w h x y = true -> 0 <= x < w /\ 0 <= y < h.
Proof. unfold Spec.interiorb. lia. Qed.

Lemma in_imageb_in_image (w h x y : Z) :
  Grid.in_imageb w h x y = true -> 0 <= x < w /\ 0 <= y < h.
Proof. apply in_imageb_spec. Qed.

Lemma fma_locations (inp : list Z) (p : params F) (x y : Z) :
  Spec.sized (width p) (height p) -> 0 <= x -> 0 <= y ->
  map fst (Fma.debayer16_to_xyz inp p x y) =
  if Spec.interiorb (width p) (height p) x y
  then Grid.pixel_locations (width p) x y else [].
Proof. intros Hs _ _. now rewrite Border.fma_offsets. Qed.

Lemma plain_locations (inp : list Z) (p : params F) (x y : Z) :
  Spec.sized (width p) (height p) -> 0 <= x -> 0 <= y ->
  map fst (Plain.debayer16_to_xyz inp p x y) =
  if Spec.interiorb (width p) (height p) x y
  then Grid.pixel_locations (width p) x y else [].
Proof. intros Hs _ _. now rewrite Border.plain_offsets. Qed.

Lemma color_locations (rgb_in : list Z) (p : params F) (x y : Z) :
  Spec.sized (width p) (height p) -> 0 <= x -> 0 <= y ->
  map fst (Color.apply_color_pipeline rgb_in p x y) =
  if Grid.in_imageb (width p) (height p) x y
  then Grid.pixel_locations (width p) x y else [].
Proof.
  intros Hs Hx Hy.
  destruct (Grid.in_imageb (width p) (height p) x y) eqn:E.
  - apply in_imageb_spec in E as [Hx' Hy'].
    rewrite Pipeline.color_steps by assumption.
    unfold Spec.stores_at.
    now destruct (Spec.color_transform _ _) as [[r g] b].
  - unfold Color.apply_color_pipeline.
    replace ((x >=? width p) || (y >=? height p)) with true; [reflexivity|].
    unfold Grid.in_imageb in E. lia.
Qed.

Lemma stores_at_elem (idx c : Z) (t : F * F * F) :
  0 <= c < 3 -> elem_of (idx + c, Grid.channel c t) (Spec.stores_at idx t).
Proof.
  intros Hc. destruct t as [[r g] b]. unfold Spec.stores_at, Grid.channel.
  assert (Cs : c = 0 \/ c = 1 \/ c = 2) by lia.
  destruct Cs as [-> | [-> | ->]]; simpl; rewrite ?Z.add_0_r;
    repeat first [now left | right].
Qed.

End KernelGrid.
End KernelGrid.



Module Stencil.
Section Stencil.

Context {F : Type} `{FloatOps F}.

Import IntFacts.

Lemma sized_addressable (w h : Z) : Spec.sized w h -> Spec.addressable w h.
Proof. unfold Spec.sized, Spec.addressable. intros (Hw & Hh & Hs). nia. Qed.

Lemma window_in_bounds (w h x y : Z) (c : Z * Z) :
  Spec.interior w h x y -> elem_of c (Grid.window x y) ->
  0 <= fst c < w /\ 0 <= snd c < h /\ 0 <= fst c + snd c * w < w * h.
Proof.
  intros [Hx Hy] Hc. unfold Grid.window in Hc.
  repeat (apply elem_of_cons in Hc as [->|Hc]); try (inversion Hc); simpl; nia.
Qed.

Lemma PIX_sample (inp : list Z) (w h a b : Z) :
  Spec.addressable w h -> 0 <= a < w -> 0 <= b < h ->
  PIX inp a b w = Grid.sample w inp (a, b).
Proof.
  intros (Hw & Hh & Hs) Ha Hb. unfold PIX, Grid.sample. simpl.
  unfold INT_MAX in Hs.
  rewrite imul_id by (unfold int_range, INT_MIN, INT_MAX; nia).
  rewrite iadd_id by (unfold int_range, INT_MIN, INT_MAX; nia).
  reflexivity.
Qed.

(** The value a rule rebuilds depends on the samples of the window only. *)
Lemma reconstruct_window (mean2 : F -> F -> F) (mean4 : F -> F -> F -> F -> F)
    (n : Z -> F) (inp inp' : list Z) (w h x y x' y' : Z) (r : Spec.rule) :
  Spec.addressable w h ->
  Spec.interior w h x y -> Spec.interior w h x' y' ->
  Grid.same_window w inp inp' x y x' y' ->
  Spec.reconstruct mean2 mean4 (fun c => n (PIX inp (fst c) (snd c) w)) r x y =
  Spec.reconstruct mean2 mean4 (fun c => n (PIX inp' (fst c) (snd c) w)) r x' y'.
Proof.
  intros Ha [Hx Hy] [Hx' Hy'] W.
  unfold Grid.same_window, Grid.window in W. simpl in W.
  injection W as W1 W2 W3 W4 W5 W6 W7 W8 W9.
  destruct r; unfold Spec.reconstruct; simpl;
    rewrite !(PIX_sample _ w h) by (auto; lia);
    unfold Grid.sample in *; simpl in *; congruence.
Qed.

Lemma demosaic_cam_window (inp inp' : list Z) (p : params F) (x y x' y' : Z) :
  Spec.sized (width p) (height p) ->
  Spec.interior (width p) (height p) x y ->
  Spec.interior (width p) (height p) x' y' ->
  Z.odd x = Z.odd x' -> Z.odd y = Z.odd y' ->
  Grid.same_window (width p) inp inp' x y x' y' ->
  Spec.demosaic_cam inp p x y = Spec.demosaic_cam inp' p x' y'.
Proof.
  intros Hs Hi Hi' Ox Oy W. apply sized_addressable in Hs.
  unfold Spec.demosaic_cam.
  rewrite !(Parity.fma_get_red_rule _ _ (height p)),
          !(Parity.fma_get_green_rule _ _ (height p)),
          !(Parity.fma_get_blue_rule _ _ (height p)) by assumption.
  rewrite <- Ox, <- Oy. unfold Spec.fma_sample.
  now rewrite !(reconstruct_window _ _
                  (fun v => Fma.normalize_pixel v (black_level p) (Spec.inv_range p))
                  inp inp' _ (height p) x y x' y').
Qed.

Lemma plain_cam_window (inp inp' : list Z) (p : params F) (x y x' y' : Z) :
  Spec.sized (width p) (height p) ->
  Spec.interior (width p) (height p) x y ->
  Spec.interior (width p) (height p) x' y' ->
  Z.odd x = Z.odd x' -> Z.odd y = Z.odd y' ->
  Grid.same_window (width p) inp inp' x y x' y' ->
  Spec.plain_cam inp p x y = Spec.plain_cam inp' p x' y'.
Proof.
  intros Hs Hi Hi' Ox Oy W. apply sized_addressable in Hs.
  unfold Spec.plain_cam. cbv zeta.
  rewrite !(Parity.plain_get_red_rule _ _ (height p)),
          !(Parity.plain_get_green_rule _ _ (height p)),
          !(Parity.plain_get_blue_rule _ _ (height p)) by assumption.
  rewrite <- Ox, <- Oy. unfold Spec.plain_sample.
  now rewrite !(reconstruct_window _ _
                  (fun v => Plain.normalize (black_level p)
                              (f_of_int (isub (white_level p) (black_level p))) v)
                  inp inp' _ (height p) x y x' y').
Qed.

Lemma stores_at_values (idx : Z) (t : F * F * F) :
  map snd (Spec.stores_at idx t) =
  [Grid.channel 0 t; Grid.channel 1 t; Grid.channel 2 t].
Proof. now destruct t as [[r g] b]. Qed.

Lemma color_cam_raw (rgb rgb' : list Z) (p : params F) (x y x' y' : Z) :
  Grid.raw_triple (width p) rgb x y = Grid.raw_triple (width p) rgb' x' y' ->
  Spec.color_cam rgb p x y = Spec.color_cam rgb' p x' y'.
Proof.
  unfold Grid.raw_triple. simpl. rewrite !Z.add_0_r.
  intros E. injection E as E0 E1 E2.
  unfold Spec.color_cam. cbv zeta. now rewrite E0, E1, E2.
Qed.

End Stencil.
End Stencil.

Module Degenerate.

Import RoundDefs Round IntFacts Normalize.

Lemma mul_pinf_nonpos (x : float) :
  nonpos_or_nan x -> nonpos_or_nan (Binary32.mul x Binary32.pinf).
Proof. destruct x as [[]|[]| |[] m e]; simpl; intros H; try contradiction; exact I. Qed.

Lemma val_sub (black val : Z) :
  int_range black -> UINT16_MAX - INT_MAX <= black -> u16_range val ->
  isub val black = val - black /\ isub black black = 0 /\
  - INT_MAX <= val - black <= INT_MAX.
Proof.
  unfold u16_range, int_range, INT_MIN, INT_MAX, UINT16_MAX.
  intros Hb Hl Hv.
  rewrite !isub_id by (unfold int_range, INT_MIN, INT_MAX; lia).
  rewrite Z.sub_diag. lia.
Qed.

Lemma fma_norm_zero_range (black val : Z) :
  int_range black -> UINT16_MAX - INT_MAX <= black -> u16_range val ->
  Spec.fma_norm black black val =
  if val <=? black then Binary32.pzero else Binary32.pinf.
Proof.
  intros Hb Hl Hv. destruct (val_sub black val Hb Hl Hv) as (E1 & E2 & R).
  rewrite fma_norm_eq, E1, E2.
  change (Binary32.div (S754_finite false 8388608 (-23)) (Binary32.of_int 0))
    with Binary32.pinf.
  destruct (Z.leb_spec val black) as [Le|Gt].
  - apply fmaxf_nonpos, mul_pinf_nonpos.
    destruct (Z.eq_dec val black) as [->|Ne].
    + rewrite Z.sub_diag. exact I.
    + apply of_int_neg. lia.
  - destruct (of_int_normal (val - black) ltac:(lia)) as (m & e & -> & _).
    reflexivity.
Qed.

Lemma plain_norm_zero_range (black val : Z) :
  int_range black -> UINT16_MAX - INT_MAX <= black -> u16_range val ->
  Spec.plain_norm black black val =
  if val <=? black then Binary32.nan else Binary32.pinf.
Proof.
  intros Hb Hl Hv. destruct (val_sub black val Hb Hl Hv) as (E1 & E2 & R).
  rewrite plain_norm_eq, E1, E2.
  destruct (Z.leb_spec val black) as [Le|Gt].
  - destruct (Z.ltb_spec (val - black) 0) as [Lt|Ge]; [reflexivity|].
    replace (val - black) with 0 by lia. reflexivity.
  - replace (val - black <? 0) with false by lia.
    destruct (of_int_normal (val - black) ltac:(lia)) as (m & e & -> & _).
    reflexivity.
Qed.

End Degenerate.

Module UnitRange.

Import RoundDefs Round IntFacts Normalize.

(** The rounded integer is within half a unit of the fraction. *)
Lemma rne_error (N D : Z) : 0 < D -> 2 * Z.abs (rne N D * D - N) <= D.
Proof.
  intros HD. destruct (rne_cases N D HD) as (Hr & H1 & H2 & H3).
  cbv zeta in *. set (q := N / D) in *.
  destruct (Z.lt_trichotomy (2 * (N - q * D)) D) as [L|[E|G]].
  - rewrite (H1 L). lia.
  - rewrite (H3 E). destruct (Z.even q); lia.
  - rewrite (H2 G). lia.
Qed.

(** The order of two positive floats, read at any common exponent. *)
Lemma fle_finite (m1 m2 : positive) (e1 e2 c : Z) :
  c <= e1 -> c <= e2 ->
  (fle (S754_finite false m1 e1) (S754_finite false m2 e2) <->
   Zpos m1 * 2 ^ (e1 - c) <= Zpos m2 * 2 ^ (e2 - c)).
Proof.
  intros H1 H2. simpl. set (d := Z.min e1 e2).
  assert (Hd : c <= d) by (unfold d; lia).
  replace (e1 - c) with ((e1 - d) + (d - c)) by lia.
  replace (e2 - c) with ((e2 - d) + (d - c)) by lia.
  rewrite !pow_split by (unfold d; lia).
  assert (P : 0 < 2 ^ (d - c)) by (apply Z.pow_pos_nonneg; lia).
  rewrite !Z.mul_assoc. split; intros L.
  - apply Z.mul_le_mono_nonneg_r; lia.
  - apply Z.mul_le_mono_pos_r in L; auto.
Qed.

Lemma fle_trans (x y z : spec_float) : fle x y -> fle y z -> fle x z.
Proof.
  destruct x as [sx|[]| |[] mx ex], y as [sy|[]| |[] my ey],
           z as [sz|[]| |[] mz ez]; simpl; try tauto.
  intros L1 L2.
  set (c := Z.min ex (Z.min ey ez)).
  apply (fle_finite mx my ex ey c) in L1; try (unfold c; lia).
  apply (fle_finite my mz ey ez c) in L2; try (unfold c; lia).
  apply (fle_finite mx mz ex ez c); try (unfold c; lia). lia.
Qed.

Lemma one_packed : packed false 8388608 (-23) = Binary32.one.
Proof. reflexivity. Qed.

(** A normal float divided by itself is one. *)
Lemma div_self (m : positive) (e : Z) :
  2 ^ (prec - 1) <= Zpos m < 2 ^ prec ->
  Binary32.div (S754_finite false m e) (S754_finite false m e) = Binary32.one.
Proof.
  intros B.
  destruct (div_packed false false m m e e B B ltac:(lia)) as (-> & _).
  simpl xorb.
  assert (Q : Zpos m * 2 ^ 24 / Zpos m = 2 ^ 24).
  { rewrite Z.mul_comm. apply Z.div_mul. lia. }
  rewrite Q. unfold round_exp. rewrite fexp_eq.
  change (Zdigits2 (2 ^ 24)) with 25.
  replace (Z.max (e - e - 24) (Z.max (25 + (e - e - 24) - 24) (-149)))
    with (-23) by lia.
  replace (-23 - (e - e - 24)) with 1 by lia.
  replace (Zpos m * 2 ^ 24) with (8388608 * (Zpos m * 2 ^ 1)) by (simpl; lia).
  rewrite rne_exact by lia. reflexivity.
Qed.

(** A normal float of the range of [int] times its rounded reciprocal is
    one, or the float just below one. *)
Lemma mul_reciprocal (mr : positive) (er : Z) :
  2 ^ (prec - 1) <= Zpos mr < 2 ^ prec -> -23 <= er <= 8 ->
  let x := Binary32.mul (S754_finite false mr er)
             (Binary32.div (S754_finite false 8388608 (-23))
                (S754_finite false mr er)) in
  x = Binary32.one \/ x = S754_finite false 16777215 (-24).
Proof.
  intros B He. cbv zeta.
  pose proof (proj1 (bounds_23_24 mr) B) as B'.
  destruct (div_packed false false 8388608 mr (-23) er) as (Ed & Wd & End & _);
    [apply PowerOfTwo.bounds_pow23|exact B|lia|].
  simpl xorb in Ed. rewrite Ed. clear Ed.
  set (N := Zpos 8388608 * 2 ^ 24) in *. set (e' := -23 - er - 24) in *.
  assert (HN : N = 2 ^ 47) by reflexivity.
  assert (Q : 8388608 <= N / Zpos mr <= 16777216).
  { split.
    - apply Z.div_le_lower_bound; [lia|]. rewrite HN. lia.
    - apply Z.div_le_upper_bound; [lia|]. rewrite HN. lia. }
  rewrite (round_exp_enough _ _ End), fexp_eq in *.
  set (dg := Zdigits2 (N / Zpos mr)) in *.
  assert (Dg : dg = 24 \/ dg = 25).
  { assert (24 <= dg) by (apply Zdigits2_ge; simpl; lia).
    assert (dg <= 25) by (apply Zdigits2_le; simpl; lia). lia. }
  replace (Z.max (dg + e' - 24) (-149)) with (dg + e' - 24) in * by lia.
  set (K := dg + e' - 24 - e') in *.
  set (n := rne N (Zpos mr * 2 ^ K)) in *.
  (* the reciprocal, times the range, is within 2^23 of 2^47 *)
  assert (A : 2 ^ 47 - 2 ^ 23 < n * Zpos mr * 2 ^ K < 2 ^ 47 + 2 ^ 23).
  { destruct Dg as [D24|D25].
    - assert (K0 : K = 0) by (unfold K; lia).
      pose proof (rne_error N (Zpos mr * 2 ^ K) ltac:(rewrite K0; simpl; lia)) as R.
      fold n in R. rewrite K0 in *. rewrite Z.mul_1_r in *. rewrite HN in R. lia.
    - assert (K1 : K = 1) by (unfold K; lia).
      assert (M : Zpos mr = 8388608).
      { assert (16777216 <= N / Zpos mr).
        { pose proof (Zdigits2_bounds (N / Zpos mr) ltac:(lia)) as Bd.
          fold dg in Bd. rewrite D25 in Bd. simpl in Bd. lia. }
        assert (16777216 * Zpos mr <= N).
        { pose proof (Z.mul_div_le N (Zpos mr) ltac:(lia)). nia. }
        rewrite HN in *. lia. }
      unfold n. rewrite K1, M.
      replace N with (8388608 * (8388608 * 2 ^ 1)) by (rewrite HN; reflexivity).
      rewrite rne_exact by lia. simpl. lia. }
  destruct (packed_normal false n (dg + e' - 24) Wd) as (mi & ei & -> & Bi & Lei & Vi);
    [unfold emin, e'; lia|unfold emax, prec, Binary32.emax, Binary32.prec, e'; lia|].
  assert (Vr : valid_binary prec emax (S754_finite false mr er) = true).
  { apply (normal_is_valid (-23) 8); [lia|lia|]. exists mr, er; auto. }
  assert (Vi' : valid_binary prec emax (S754_finite false mi ei) = true).
  { apply (normal_is_valid (-56) (-21)); [lia|lia|]. exists mi, ei.
    unfold e' in Lei. repeat split; try apply Bi; lia. }
  destruct (mul_packed false false mr mi er ei Vr Vi') as [-> Wm].
  simpl xorb.
  pose proof (mul_enough_digits _ _ _ _ _ _ Vr Vi') as Enm.
  rewrite (round_exp_enough _ _ Enm), fexp_eq in *.
  set (P := Zpos (mr * mi)) in *.
  set (j := ei - (dg + e' - 24)) in *.
  assert (Hj : 0 <= j <= 1) by (unfold j; lia).
  assert (HK : 0 <= K <= 1) by (unfold K; lia).
  assert (HP : P * 2 ^ (j + K) = n * Zpos mr * 2 ^ K).
  { unfold P. rewrite Pos2Z.inj_mul, pow_split, <- Vi by lia. fold j. ring. }
  set (s := j + K) in *.
  assert (Hs : 0 <= s <= 2) by (unfold s; lia).
  assert (Ds : Zdigits2 (P * 2 ^ s) = Zdigits2 P + s)
    by (apply Zdigits2_shift; unfold P; lia).
  assert (Ee : er + ei = s - 47) by (unfold s, j, K, e'; lia).
  rewrite Ee in *.
  destruct (Z.le_gt_cases (2 ^ 47) (P * 2 ^ s)) as [Ge|Lt].
  - (* the product is at least one: it rounds down to one *)
    left.
    assert (D48 : Zdigits2 (P * 2 ^ s) = 48).
    { apply Zdigits2_unique; [|lia]. rewrite HP. simpl in *. lia. }
    replace (Z.max (Zdigits2 P + (s - 47) - 24) (-149)) with (-23) by lia.
    replace (-23 - (s - 47)) with (24 - s) by lia.
    rewrite <- (rne_scale P (2 ^ (24 - s)) (2 ^ s))
      by (apply Z.pow_pos_nonneg; lia).
    rewrite <- pow_split by lia. replace (24 - s + s) with 24 by lia.
    destruct (rne_cases (P * 2 ^ s) (2 ^ 24) ltac:(lia)) as (Hr & H1 & _).
    cbv zeta in *.
    assert (Eq : P * 2 ^ s / 2 ^ 24 = 8388608).
    { symmetry. apply (Z.div_unique _ _ _ (P * 2 ^ s - 2 ^ 47)).
      - left. rewrite HP. simpl in *. lia.
      - simpl. lia. }
    rewrite Eq in *. rewrite H1; [reflexivity|].
    rewrite HP. simpl in *. lia.
  - (* the product is below one *)
    assert (D47 : Zdigits2 (P * 2 ^ s) = 47).
    { apply Zdigits2_unique; [|lia]. rewrite HP in *. simpl in *. lia. }
    replace (Z.max (Zdigits2 P + (s - 47) - 24) (-149)) with (-24) by lia.
    replace (-24 - (s - 47)) with (23 - s) by lia.
    rewrite <- (rne_scale P (2 ^ (23 - s)) (2 ^ s))
      by (apply Z.pow_pos_nonneg; lia).
    rewrite <- pow_split by lia. replace (23 - s + s) with 23 by lia.
    pose proof (rne_bounds (P * 2 ^ s) (2 ^ 23) ltac:(lia)) as Rb.
    assert (Eq : P * 2 ^ s / 2 ^ 23 = 16777215).
    { symmetry. apply (Z.div_unique _ _ _ (P * 2 ^ s - 16777215 * 2 ^ 23)).
      - left. rewrite HP in *. simpl in *. lia.
      - simpl. lia. }
    rewrite Eq in Rb.
    assert (Cs : rne (P * 2 ^ s) (2 ^ 23) = 16777215 \/
                 rne (P * 2 ^ s) (2 ^ 23) = 16777216) by lia.
    destruct Cs as [-> | ->]; [right|left]; reflexivity.
Qed.


Lemma one_valid : valid_binary prec emax Binary32.one = true.
Proof. reflexivity. Qed.

Lemma fma_norm_white (black white : Z) :
  Spec.levels black white -> u16_range white ->
  Spec.fma_norm black white white = Binary32.one \/
  Spec.fma_norm black white white = S754_finite false 16777215 (-24).
Proof.
  intros L Hw. pose proof L as (_ & _ & Hlt & _).
  destruct (fma_norm_above black white white L Hw Hlt) as [-> _].
  destruct (levels_sub black white white L Hw) as (_ & _ & Hr & _).
  destruct (of_int_normal (white - black) Hr) as (mr & er & -> & Br & Her).
  now apply mul_reciprocal.
Qed.

Lemma fma_norm_le_one (black white val : Z) :
  Spec.levels black white -> u16_range val -> val <= white ->
  SFleb (Spec.fma_norm black white val) Binary32.one = true.
Proof.
  intros L Hv Hle.
  destruct (Z.le_gt_cases val black) as [Le|Gt].
  - now rewrite (fma_norm_below black white val L Hv Le).
  - destruct (fma_norm_above black white val L Hv Gt) as [-> _].
    destruct (levels_sub black white val L Hv) as (_ & _ & Hr & Hm).
    pose proof (of_int_mono (val - black) (white - black) ltac:(lia)) as M.
    pose proof (reciprocal_normal (white - black) Hr) as Ri.
    destruct (of_int_normal (white - black) Hr) as (mr & er & Eqr & Br & Her).
    destruct (of_int_normal (val - black) ltac:(lia)) as (ma & ea & Eqa & Ba & Hea).
    rewrite Eqa, Eqr in *.
    pose proof (mul_reciprocal mr er Br Her) as R. cbv zeta in R.
    destruct Ri as (mi & ei & Eqi & Bi & Hei). rewrite Eqi in *.
    assert (Va : valid_binary prec emax (S754_finite false ma ea) = true).
    { apply (normal_is_valid (-23) 8); [lia|lia|]. exists ma, ea; auto. }
    assert (Vr : valid_binary prec emax (S754_finite false mr er) = true).
    { apply (normal_is_valid (-23) 8); [lia|lia|]. exists mr, er; auto. }
    assert (Vi : valid_binary prec emax (S754_finite false mi ei) = true).
    { apply (normal_is_valid (-55) (-22)); [lia|lia|]. exists mi, ei; auto. }
    apply fle_SFleb.
    + destruct (mul_packed false false ma mi ea ei Va Vi) as [-> W].
      now apply packed_valid.
    + exact one_valid.
    + eapply fle_trans; [now apply (mul_mono ma mr mi ea er ei)|].
      destruct R as [-> | ->]; rewrite ?Clamp.one_eq; compute; discriminate.
Qed.

Lemma plain_norm_white (black white : Z) :
  Spec.levels black white -> u16_range white ->
  Spec.plain_norm black white white = Binary32.one.
Proof.
  intros L Hw. pose proof L as (_ & _ & Hlt & _).
  destruct (plain_norm_above black white white L Hw Hlt) as [-> _].
  destruct (levels_sub black white white L Hw) as (_ & _ & Hr & _).
  destruct (of_int_normal (white - black) Hr) as (mr & er & -> & Br & Her).
  now apply div_self.
Qed.

Lemma plain_norm_le_one (black white val : Z) :
  Spec.levels black white -> u16_range val -> val <= white ->
  SFleb (Spec.plain_norm black white val) Binary32.one = true.
Proof.
  intros L Hv Hle.
  destruct (Z.le_gt_cases val black) as [Le|Gt].
  - now rewrite (plain_norm_below black white val L Hv Le).
  - destruct (plain_norm_above black white val L Hv Gt) as [-> _].
    destruct (levels_sub black white val L Hv) as (_ & _ & Hr & Hm).
    pose proof (of_int_mono (val - black) (white - black) ltac:(lia)) as M.
    destruct (of_int_normal (white - black) Hr) as (mr & er & Eqr & Br & Her).
    destruct (of_int_normal (val - black) ltac:(lia)) as (ma & ea & Eqa & Ba & Hea).
    rewrite Eqa, Eqr in *.
    rewrite <- (div_self mr er Br).
    apply fle_SFleb.
    + destruct (div_packed false false ma mr ea er Ba Br ltac:(lia)) as (-> & W & _).
      now apply packed_valid.
    + rewrite div_self by exact Br. exact one_valid.
    + apply div_mono; auto; lia.
Qed.

Lemma plain_norm_ge_one (black white val : Z) :
  Spec.levels black white -> u16_range val -> white <= val ->
  SFleb Binary32.one (Spec.plain_norm black white val) = true.
Proof.
  intros L Hv Hle. pose proof L as (_ & _ & Hlt & _).
  destruct (plain_norm_above black white val L Hv ltac:(lia)) as [-> _].
  destruct (levels_sub black white val L Hv) as (_ & _ & Hr & Hm).
  pose proof (of_int_mono (white - black) (val - black) ltac:(lia)) as M.
  destruct (of_int_normal (white - black) Hr) as (mr & er & Eqr & Br & Her).
  destruct (of_int_normal (val - black) ltac:(lia)) as (ma & ea & Eqa & Ba & Hea).
  rewrite Eqa, Eqr in *.
  rewrite <- (div_self mr er Br).
  apply fle_SFleb.
  + rewrite div_self by exact Br. exact one_valid.
  + destruct (div_packed false false ma mr ea er Ba Br ltac:(lia)) as (-> & W & _).
    now apply packed_valid.
  + apply div_mono; auto; lia.
Qed.

Lemma norm_nonneg (black white val : Z) :
  Spec.levels black white -> u16_range val ->
  SFleb Binary32.pzero (Spec.fma_norm black white val) = true /\
  SFleb Binary32.pzero (Spec.plain_norm black white val) = true.
Proof.
  intros L Hv. destruct (Z.le_gt_cases val black) as [Le|Gt].
  - now rewrite fma_norm_below, plain_norm_below.
  - destruct (fma_norm_above black white val L Hv Gt) as (_ & m & e & -> & _).
    destruct (plain_norm_above black white val L Hv Gt) as (_ & m' & e' & -> & _).
    split; reflexivity.
Qed.

End UnitRange.

Module Dark.

Import RoundDefs Round IntFacts Normalize Stencil.

Lemma reconstruct_dark (mean2 : float -> float -> float)
    (mean4 : float -> float -> float -> float -> float)
    (n : Z -> float) (inp : list Z) (w h black x y : Z) (r : Spec.rule) :
  Spec.addressable w h -> Spec.interior w h x y ->
  Grid.dark_window w black inp x y ->
  (forall v, u16_range v -> v <= black -> n v = Binary32.pzero) ->
  mean2 Binary32.pzero Binary32.pzero = Binary32.pzero ->
  mean4 Binary32.pzero Binary32.pzero Binary32.pzero Binary32.pzero
    = Binary32.pzero ->
  Spec.reconstruct mean2 mean4 (fun c => n (PIX inp (fst c) (snd c) w)) r x y
  = Binary32.pzero.
Proof.
  intros Ha [Hx Hy] D Hn M2 M4.
  unfold Grid.dark_window, Grid.window in D.
  repeat (apply Forall_cons in D as [[? ?] D]).
  destruct r; unfold Spec.reconstruct; simpl;
    rewrite !(PIX_sample _ w h) by (auto; lia);
    rewrite !Hn by assumption; auto.
Qed.

Lemma demosaic_cam_dark (inp : list Z) (p : params float) (x y : Z) :
  Spec.sized (width p) (height p) ->
  Spec.interior (width p) (height p) x y ->
  Spec.levels (black_level p) (white_level p) ->
  Grid.dark_window (width p) (black_level p) inp x y ->
  Spec.demosaic_cam inp p x y =
  (Binary32.mul Binary32.pzero (wb_r p), Binary32.mul Binary32.pzero (wb_g p),
   Binary32.mul Binary32.pzero (wb_b p)).
Proof.
  intros Hs Hi L D. apply sized_addressable in Hs.
  unfold Spec.demosaic_cam.
  rewrite (Parity.fma_get_red_rule _ _ (height p)),
          (Parity.fma_get_green_rule _ _ (height p)),
          (Parity.fma_get_blue_rule _ _ (height p)) by assumption.
  unfold Spec.fma_sample.
  rewrite !(reconstruct_dark _ _
              (fun v => Fma.normalize_pixel v (black_level p) (Spec.inv_range p))
              inp _ (height p) (black_level p) x y); auto.
  all: intros v Hv Hle;
    exact (fma_norm_below (black_level p) (white_level p) v L Hv Hle).
Qed.

Lemma plain_cam_dark (inp : list Z) (p : params float) (x y : Z) :
  Spec.sized (width p) (height p) ->
  Spec.interior (width p) (height p) x y ->
  Spec.levels (black_level p) (white_level p) ->
  Grid.dark_window (width p) (black_level p) inp x y ->
  Spec.plain_cam inp p x y =
  (Binary32.mul Binary32.pzero (wb_r p), Binary32.mul Binary32.pzero (wb_g p),
   Binary32.mul Binary32.pzero (wb_b p)).
Proof.
  intros Hs Hi L D. apply sized_addressable in Hs.
  unfold Spec.plain_cam. cbv zeta.
  rewrite (Parity.plain_get_red_rule _ _ (height p)),
          (Parity.plain_get_green_rule _ _ (height p)),
          (Parity.plain_get_blue_rule _ _ (height p)) by assumption.
  unfold Spec.plain_sample.
  rewrite !(reconstruct_dark _ _
              (fun v => Plain.normalize (black_level p)
                          (f_of_int (isub (white_level p) (black_level p))) v)
              inp _ (height p) (black_level p) x y); auto.
  all: intros v Hv Hle;
    exact (plain_norm_below (black_level p) (white_level p) v L Hv Hle).
Qed.

End Dark.

(* ===================================================================== *)
(** * How close the normalisation comes to the quotient *)
(* ===================================================================== *)

Module Accuracy.

Import RoundDefs Round IntFacts Normalize.

(** Rounding a fraction that is at least [2 ^ 23] moves it by at most
    [2 ^ -24] of its value. *)
Lemma rne_relative (N D : Z) :
  0 < D -> 2 ^ 23 * D <= N -> 2 ^ 24 * Z.abs (rne N D * D - N) <= N.
Proof.
  intros HD HN. destruct (rne_cases N D HD) as (Hr & H1 & H2 & H3).
  cbv zeta in *. set (q := N / D) in *.
  change (2 ^ 24) with 16777216. change (2 ^ 23) with 8388608 in HN.
  destruct (Z.lt_trichotomy (2 * (N - q * D)) D) as [L|[E|G]].
  - rewrite (H1 L). lia.
  - rewrite (H3 E). destruct (Z.even q); lia.
  - rewrite (H2 G). lia.
Qed.

(** An [int] below [2 ^ 24] converts without rounding. *)
Lemma of_int_exact (v : Z) :
  1 <= v < 2 ^ 24 ->
  exists (m : positive) (a : Z),
    Binary32.of_int v = S754_finite false m (- a) /\
    2 ^ (prec - 1) <= Zpos m < 2 ^ prec /\ 0 <= a <= 23 /\
    Zpos m = v * 2 ^ a.
Proof.
  intros [Hv Hmax]. destruct v as [|p|p]; try lia.
  unfold Binary32.of_int, binary_normalize.
  destruct (binary_round_packed false p 0) as (mz & ez & Pz & Lz & Vz & En & E & W).
  change Binary32.prec with prec. change Binary32.emax with emax. rewrite E.
  assert (D : Zdigits2 mz + ez = Zdigits2 (Zpos p)).
  { rewrite Vz, Zdigits2_shift by lia. lia. }
  assert (Dp : 1 <= Zdigits2 (Z.pos p) <= 24).
  { split; [simpl; lia|]. apply Zdigits2_le; lia. }
  pose proof (Zdigits2_bounds (Zpos p) ltac:(lia)) as Bd.
  pose proof En as [_ En'].
  rewrite (round_exp_enough _ _ En) in *. rewrite D, fexp_eq in *.
  set (d := Zdigits2 (Zpos p)) in *.
  replace (Z.max (d - 24) (-149)) with (d - 24) in * by lia.
  clearbody d.
  set (a := 24 - d). assert (Ea : a = 24 - d) by reflexivity. clearbody a.
  assert (Ha : 0 <= a <= 23) by lia.
  assert (Hn : mz = Zpos p * 2 ^ a * 2 ^ (d - 24 - ez)).
  { rewrite Vz, <- Z.mul_assoc, <- pow_split by lia.
    f_equal. f_equal. lia. }
  rewrite Hn, rne_exact by (apply Z.pow_pos_nonneg; lia).
  assert (B : 2 ^ (d - 1 + a) <= Zpos p * 2 ^ a < 2 ^ (d + a)).
  { rewrite !pow_split by lia.
    assert (0 < 2 ^ a) by (apply Z.pow_pos_nonneg; lia).
    split; [apply Z.mul_le_mono_nonneg_r|apply Z.mul_lt_mono_pos_r]; lia. }
  replace (d - 1 + a) with 23 in B by lia.
  replace (d + a) with 24 in B by lia.
  destruct (Zpos p * 2 ^ a) as [|n|n] eqn:En2; try lia.
  exists n, a. replace (- a) with (d - 24) by lia.
  split; [|split; [exact B|split; [exact Ha|now symmetry]]].
  unfold packed. rewrite pow_prec.
  replace (Zpos n <? 16777216) with true by (simpl in B; lia).
  replace (d - 24 <=? emax - prec) with true
    by (unfold emax, prec, Binary32.emax, Binary32.prec; lia).
  reflexivity.
Qed.

Lemma pow_pos (k : Z) : 0 <= k -> 0 < 2 ^ k.
Proof. intros. apply Z.pow_pos_nonneg; lia. Qed.

(** The quotient of two normal mantissas, shifted by 24 digits, has 24 or
    25 digits; rounding it to 24 moves it by at most [2 ^ -24] of its
    value. *)
Lemma div_round (mx my : positive) :
  2 ^ (prec - 1) <= Zpos mx < 2 ^ prec ->
  2 ^ (prec - 1) <= Zpos my < 2 ^ prec ->
  let N := Zpos mx * 2 ^ 24 in
  let K := Zdigits2 (N / Zpos my) - 24 in
  0 <= K <= 1 /\
  2 ^ 24 * Z.abs (rne N (Zpos my * 2 ^ K) * (Zpos my * 2 ^ K) - N) <= N.
Proof.
  intros Bx By. cbv zeta.
  apply (proj1 (bounds_23_24 _)) in Bx. apply (proj1 (bounds_23_24 _)) in By.
  set (N := Zpos mx * 2 ^ 24).
  assert (Q : 8388608 <= N / Zpos my < 33554432).
  { split.
    - apply Z.div_le_lower_bound; unfold N; lia.
    - apply Z.div_lt_upper_bound; unfold N; lia. }
  set (dg := Zdigits2 (N / Zpos my)).
  assert (Dg : 24 <= dg <= 25).
  { split; [apply Zdigits2_ge; simpl; lia|apply Zdigits2_le; simpl; lia]. }
  split; [lia|].
  pose proof (Zdigits2_bounds (N / Zpos my) ltac:(lia)) as [Bd _]. fold dg in Bd.
  pose proof (Z.mul_div_le N (Zpos my) ltac:(lia)) as Md.
  apply rne_relative.
  - assert (0 < 2 ^ (dg - 24)) by (apply pow_pos; lia). lia.
  - replace (dg - 1) with (23 + (dg - 24)) in Bd by lia.
    rewrite pow_split in Bd by lia.
    assert (0 <= 2 ^ (dg - 24)) by (apply Z.pow_nonneg; lia).
    nia.
Qed.

(** The plain quotient of two converted integers is the correctly rounded
    quotient: within [2 ^ -24] of it. *)
Lemma div_within (v r : Z) :
  1 <= v < 2 ^ 24 -> 1 <= r < 2 ^ 24 ->
  Value.within 1 (Binary32.div (Binary32.of_int v) (Binary32.of_int r)) v r.
Proof.
  intros Hv Hr.
  destruct (of_int_exact v Hv) as (ma & a & -> & Ba & Ha & Ema).
  destruct (of_int_exact r Hr) as (mr & b & -> & Br & Hb & Emr).
  destruct (div_packed false false ma mr (- a) (- b) Ba Br ltac:(lia))
    as (-> & W & En & _).
  destruct (div_round ma mr Ba Br) as [HK Rel]. cbv zeta in Rel.
  simpl xorb.
  set (N := Zpos ma * 2 ^ 24) in *.
  rewrite (round_exp_enough _ _ En), fexp_eq in *.
  set (K := Zdigits2 (N / Zpos mr) - 24) in *.
  replace (Z.max (Zdigits2 (N / Zpos mr) + (- a - - b - 24) - 24) (-149))
    with (K + b - a - 24) in * by (unfold K; lia).
  replace (K + b - a - 24 - (- a - - b - 24)) with K in * by lia.
  set (n := rne N (Zpos mr * 2 ^ K)) in *.
  clearbody K n.
  destruct (packed_normal false n (K + b - a - 24) W) as (m' & e' & -> & B' & Le & Vn);
    [unfold emin; lia|unfold emax, prec, Binary32.emax, Binary32.prec; lia|].
  unfold Value.within. split; [lia|].
  assert (Pa : 0 < 2 ^ a) by (apply pow_pos; lia).
  assert (HT : 2 ^ (e' + 64) * 2 ^ a =
               2 ^ (e' - (K + b - a - 24)) * (2 ^ K * 2 ^ b * 2 ^ 40)).
  { rewrite <- !pow_split by lia. f_equal. lia. }
  assert (Key : (Zpos m' * 2 ^ (e' + 64) * r - v * 2 ^ 64) * 2 ^ a =
                2 ^ 40 * (n * (Zpos mr * 2 ^ K) - N)).
  { replace ((Zpos m' * 2 ^ (e' + 64) * r - v * 2 ^ 64) * 2 ^ a)
      with (Zpos m' * r * (2 ^ (e' + 64) * 2 ^ a) - v * 2 ^ a * 2 ^ 64) by ring.
    rewrite HT. unfold N. rewrite Ema, Emr, <- Vn.
    change (2 ^ 64) with (2 ^ 40 * 2 ^ 24). ring. }
  apply (Z.mul_le_mono_pos_r _ _ (2 ^ a) Pa).
  rewrite <- Z.mul_assoc, <- (Z.abs_eq (2 ^ a)) at 1 by lia.
  rewrite <- Z.abs_mul, Key, Z.abs_mul, (Z.abs_eq (2 ^ 40)) by lia.
  replace (1 * (v * 2 ^ 64) * 2 ^ a) with (2 ^ 40 * N)
    by (unfold N; rewrite Ema; change (2 ^ 64) with (2 ^ 40 * 2 ^ 24); ring).
  rewrite Z.mul_assoc, (Z.mul_comm (2 ^ 24)), <- Z.mul_assoc.
  apply Z.mul_le_mono_nonneg_l; [lia|exact Rel].
Qed.

(** The product of two normal mantissas has 47 or 48 digits; rounding it
    to 24 moves it by at most [2 ^ -24] of its value. *)
Lemma mul_round (mx my : positive) :
  2 ^ (prec - 1) <= Zpos mx < 2 ^ prec ->
  2 ^ (prec - 1) <= Zpos my < 2 ^ prec ->
  let P := Zpos (mx * my) in
  let K := Zdigits2 P - 24 in
  23 <= K <= 24 /\
  2 ^ 24 * Z.abs (rne P (2 ^ K) * 2 ^ K - P) <= P.
Proof.
  intros Bx By. cbv zeta.
  apply (proj1 (bounds_23_24 _)) in Bx. apply (proj1 (bounds_23_24 _)) in By.
  set (P := Zpos (mx * my)).
  assert (HP : 8388608 * 8388608 <= P < 16777216 * 16777216).
  { unfold P. rewrite Pos2Z.inj_mul. split.
    - apply Z.mul_le_mono_nonneg; lia.
    - apply Z.mul_lt_mono_nonneg; lia. }
  set (dg := Zdigits2 P).
  assert (Dg : 47 <= dg <= 48).
  { split; [apply Zdigits2_ge; simpl; lia|apply Zdigits2_le; simpl; lia]. }
  split; [lia|].
  pose proof (Zdigits2_bounds P ltac:(lia)) as [Bd _]. fold dg in Bd.
  apply rne_relative.
  - apply pow_pos. lia.
  - rewrite <- pow_split by lia. now replace (23 + (dg - 24)) with (dg - 1) by lia.
Qed.

(** Multiplying a converted integer by the rounded reciprocal of another
    gives their quotient to within [3 * 2 ^ -24]. *)
Lemma mul_reciprocal_within (v r : Z) :
  1 <= v < 2 ^ 24 -> 1 <= r < 2 ^ 24 ->
  Value.within 3
    (Binary32.mul (Binary32.of_int v)
       (Binary32.div (S754_finite false 8388608 (-23)) (Binary32.of_int r))) v r.
Proof.
  intros Hv Hr.
  destruct (of_int_exact v Hv) as (ma & a & -> & Ba & Ha & Ema).
  destruct (of_int_exact r Hr) as (mr & b & -> & Br & Hb & Emr).
  (* the reciprocal *)
  destruct (div_packed false false 8388608 mr (-23) (- b)
              PowerOfTwo.bounds_pow23 Br ltac:(lia)) as (-> & W1 & En1 & _).
  destruct (div_round 8388608 mr PowerOfTwo.bounds_pow23 Br) as [HK1 Rel1].
  cbv zeta in Rel1. simpl xorb.
  change (Zpos 8388608 * 2 ^ 24) with (2 ^ 47) in *.
  rewrite (round_exp_enough _ _ En1), fexp_eq in *.
  set (K1 := Zdigits2 (2 ^ 47 / Zpos mr) - 24) in *.
  replace (Z.max (Zdigits2 (2 ^ 47 / Zpos mr) + (-23 - - b - 24) - 24) (-149))
    with (K1 + b - 47) in * by (unfold K1; lia).
  replace (K1 + b - 47 - (-23 - - b - 24)) with K1 in * by lia.
  set (n1 := rne (2 ^ 47) (Zpos mr * 2 ^ K1)) in *.
  clearbody K1 n1.
  destruct (packed_normal false n1 (K1 + b - 47) W1) as (mi & ei & -> & Bi & Lei & Vi);
    [unfold emin; lia|unfold emax, prec, Binary32.emax, Binary32.prec; lia|].
  (* the product *)
  assert (Va : valid_binary prec emax (S754_finite false ma (- a)) = true).
  { apply (normal_is_valid (-23) 0); [lia|lia|]. exists ma, (- a).
    repeat split; try apply Ba; lia. }
  assert (Vi' : valid_binary prec emax (S754_finite false mi ei) = true).
  { apply (normal_is_valid (-47) (-22)); [lia|lia|]. exists mi, ei.
    repeat split; try apply Bi; lia. }
  destruct (mul_packed false false ma mi (- a) ei Va Vi') as [-> W2].
  pose proof (mul_enough_digits _ _ _ _ _ _ Va Vi') as En2.
  destruct (mul_round ma mi Ba Bi) as [HK2 Rel2]. cbv zeta in Rel2.
  simpl xorb.
  set (P := Zpos (ma * mi)) in *.
  rewrite (round_exp_enough _ _ En2), fexp_eq in *.
  set (K2 := Zdigits2 P - 24) in *.
  replace (Z.max (Zdigits2 P + (- a + ei) - 24) (-149))
    with (K2 - a + ei) in * by (unfold K2; lia).
  replace (K2 - a + ei - (- a + ei)) with K2 in * by lia.
  set (n2 := rne P (2 ^ K2)) in *.
  assert (EP : P = Zpos ma * Zpos mi) by (unfold P; apply Pos2Z.inj_mul).
  clearbody K2 n2 P.
  destruct (packed_normal false n2 (K2 - a + ei) W2) as (m' & e' & -> & B' & Le & Vn);
    [unfold emin; lia|unfold emax, prec, Binary32.emax, Binary32.prec; lia|].
  unfold Value.within. split; [lia|].
  set (j := ei - (K1 + b - 47)) in *.
  assert (Hj : 0 <= j <= 1) by (unfold j; lia).
  set (X := n1 * (Zpos mr * 2 ^ K1)) in *.
  set (Y := n2 * 2 ^ K2) in *.
  assert (Pa : 0 < 2 ^ a * Zpos mi) by (assert (0 < 2 ^ a) by (apply pow_pos; lia); lia).
  (* the error, through the two roundings *)
  assert (HT : 2 ^ (e' + 64) * 2 ^ a =
               2 ^ (e' - (K2 - a + ei)) * (2 ^ K2 * 2 ^ K1 * 2 ^ b * 2 ^ j * 2 ^ 17)).
  { rewrite <- !pow_split by lia. f_equal. unfold j. lia. }
  assert (Key : (Zpos m' * 2 ^ (e' + 64) * r - v * 2 ^ 64) * (2 ^ a * Zpos mi) =
                2 ^ 17 * (Y * X - 2 ^ 47 * P)).
  { replace ((Zpos m' * 2 ^ (e' + 64) * r - v * 2 ^ 64) * (2 ^ a * Zpos mi))
      with (Zpos m' * r * Zpos mi * (2 ^ (e' + 64) * 2 ^ a)
            - v * 2 ^ a * Zpos mi * 2 ^ 64) by ring.
    rewrite HT. unfold X, Y. rewrite EP, Ema, Emr, <- Vn, <- Vi. fold j.
    change (2 ^ 64) with (2 ^ 17 * 2 ^ 47). ring. }
  assert (Err : 2 ^ 24 * Z.abs (Y * X - 2 ^ 47 * P) <= 3 * (2 ^ 47 * P)).
  { replace (Y * X - 2 ^ 47 * P) with ((Y - P) * X + P * (X - 2 ^ 47)) by ring.
    assert (HX : 0 <= X <= 2 ^ 47 + 2 ^ 23).
    { change (2 ^ 24) with 16777216 in Rel1.
      change (2 ^ 47) with 140737488355328 in *. change (2 ^ 23) with 8388608. lia. }
    assert (HP0 : 0 <= P) by lia.
    pose proof (Z.abs_triangle ((Y - P) * X) (P * (X - 2 ^ 47))) as Tr.
    rewrite !Z.abs_mul, (Z.abs_eq X), (Z.abs_eq P) in Tr by lia.
    assert (S1 : 2 ^ 24 * (Z.abs (Y - P) * X) <= P * X).
    { rewrite Z.mul_assoc. apply Z.mul_le_mono_nonneg_r; [lia|exact Rel2]. }
    assert (S2 : 2 ^ 24 * (P * Z.abs (X - 2 ^ 47)) <= P * 2 ^ 47).
    { rewrite Z.mul_assoc, (Z.mul_comm (2 ^ 24)), <- Z.mul_assoc.
      apply Z.mul_le_mono_nonneg_l; [lia|exact Rel1]. }
    assert (S3 : P * X <= P * (2 ^ 47 + 2 ^ 23))
      by (apply Z.mul_le_mono_nonneg_l; lia).
    change (2 ^ 24) with 16777216 in *.
    change (2 ^ 47) with 140737488355328 in *. change (2 ^ 23) with 8388608 in *.
    lia. }
  apply (Z.mul_le_mono_pos_r _ _ (2 ^ a * Zpos mi) Pa).
  rewrite <- Z.mul_assoc, <- (Z.abs_eq (2 ^ a * Zpos mi)) at 1 by lia.
  rewrite <- Z.abs_mul, Key, Z.abs_mul, (Z.abs_eq (2 ^ 17)) by lia.
  replace (3 * (v * 2 ^ 64) * (2 ^ a * Zpos mi)) with (2 ^ 17 * (3 * (2 ^ 47 * P)))
    by (rewrite EP, Ema; change (2 ^ 64) with (2 ^ 17 * 2 ^ 47); ring).
  rewrite Z.mul_assoc, (Z.mul_comm (2 ^ 24)), <- Z.mul_assoc.
  apply Z.mul_le_mono_nonneg_l; [lia|exact Err].
Qed.

Lemma within_Q (k : Z) (x : spec_float) (N : Z) (D : positive) :
  Value.within k x N (Zpos D) -> 0 <= N ->
  (Qabs (Value.B2Q x - (N # D)) <= (k # 16777216) * (N # D))%Q.
Proof.
  destruct x as [s|s| |[] m e]; simpl; try tauto.
  intros [He H] HN. change (2 ^ 24) with 16777216 in H.
  destruct (Z.leb_spec 0 e) as [Le|Lt].
  - unfold Qle, Qminus, Qplus, Qopp, Qabs, Qmult, inject_Z. simpl Qnum. simpl Qden.
    rewrite Pos.mul_1_l, !Pos2Z.inj_mul. rewrite Z.mul_1_r.
    assert (P64 : 0 < 2 ^ 64) by reflexivity.
    assert (E : Zpos m * 2 ^ (e + 64) * Zpos D - N * 2 ^ 64 =
                2 ^ 64 * (Zpos m * 2 ^ e * Zpos D + - N)).
    { rewrite pow_split by lia. ring. }
    rewrite E, Z.abs_mul, (Z.abs_eq (2 ^ 64)) in H by lia.
    assert (H' : 16777216 * Z.abs (Zpos m * 2 ^ e * Zpos D + - N) <= k * N).
    { apply (Z.mul_le_mono_pos_l _ _ (2 ^ 64) P64).
      replace (2 ^ 64 * (k * N)) with (k * (N * 2 ^ 64)) by ring.
      rewrite <- H. ring_simplify. lia. }
    replace (Z.abs (Zpos m * 2 ^ e * Zpos D + - N) * (16777216 * Zpos D))
      with (16777216 * Z.abs (Zpos m * 2 ^ e * Zpos D + - N) * Zpos D) by ring.
    apply Z.mul_le_mono_nonneg_r; [lia|exact H'].
  - assert (Pe : 0 < 2 ^ (- e)) by (apply pow_pos; lia).
    assert (Pe' : 0 < 2 ^ (e + 64)) by (apply pow_pos; lia).
    unfold Qle, Qminus, Qplus, Qopp, Qabs, Qmult. simpl Qnum. simpl Qden.
    rewrite !Pos2Z.inj_mul, Z2Pos.id by exact Pe.
    assert (E64 : 2 ^ 64 = 2 ^ (e + 64) * 2 ^ (- e)).
    { rewrite <- pow_split by lia. f_equal. lia. }
    assert (E : Zpos m * 2 ^ (e + 64) * Zpos D - N * 2 ^ 64 =
                2 ^ (e + 64) * (Zpos m * Zpos D + - N * 2 ^ (- e))).
    { rewrite E64. ring. }
    rewrite E, Z.abs_mul, (Z.abs_eq (2 ^ (e + 64))) in H by lia.
    assert (H' : 16777216 * Z.abs (Zpos m * Zpos D + - N * 2 ^ (- e))
                 <= k * N * 2 ^ (- e)).
    { apply (Z.mul_le_mono_pos_l _ _ (2 ^ (e + 64)) Pe').
      replace (2 ^ (e + 64) * (k * N * 2 ^ (- e))) with (k * (N * 2 ^ 64))
        by (rewrite E64; ring).
      rewrite <- H. ring_simplify. lia. }
    replace (Z.abs (Zpos m * Zpos D + - N * 2 ^ (- e)) * (16777216 * Zpos D))
      with (16777216 * Z.abs (Zpos m * Zpos D + - N * 2 ^ (- e)) * Zpos D) by ring.
    replace (k * N * (2 ^ (- e) * Zpos D)) with (k * N * 2 ^ (- e) * Zpos D) by ring.
    apply Z.mul_le_mono_nonneg_r; [lia|exact H'].
Qed.

(** The quotient the helpers approximate is the value of the helper read
    over the rationals. *)
Lemma exact_value (black white val : Z) :
  Spec.levels black white -> u16_range val -> black < val ->
  @Spec.fma_norm Qc _ black white val =
  Q2Qc ((val - black) # Z.to_pos (white - black)).
Proof.
  intros L Hv Hlt.
  destruct (levels_sub black white val L Hv) as (E1 & E2 & Hr & Hm).
  unfold Spec.fma_norm. rewrite E2, ExactFacts.normalize_agree by lia.
  unfold Plain.normalize. rewrite E1.
  replace (val - black <? 0) with false by lia.
  cbn -[Exact.lit]. apply Qc_is_canon.
  unfold Exact.of_int. simpl.
  rewrite !Qred_correct.
  destruct (white - black) as [|r|r] eqn:Er; try lia.
  simpl Z.to_pos. unfold Qeq, Qmult, Qinv, inject_Z. simpl. lia.
Qed.

End Accuracy.

Module Separation.

Import RoundDefs Round IntFacts Normalize.

(** Two positive finite floats in order are equal or strictly in order. *)
Lemma leb_neq_ltb (m1 m2 : positive) (e1 e2 : Z) :
  SFleb (S754_finite false m1 e1) (S754_finite false m2 e2) = true ->
  S754_finite false m1 e1 <> S754_finite false m2 e2 ->
  SFltb (S754_finite false m1 e1) (S754_finite false m2 e2) = true.
Proof.
  intros L N. apply ClampOrder.leb_pos in L. apply ClampOrder.ltb_pos.
  destruct L as [L|[-> L]]; [now left|right]. split; [reflexivity|].
  assert (Zpos m1 <> Zpos m2) by congruence. lia.
Qed.

(** Values within [3 * 2 ^ -24] of two fractions [va / r < vb / r] with
    [vb < 2 ^ 21] are distinct. *)
Lemma separated (x y : Q) (va vb : Z) (r : positive) :
  (Qabs (x - (va # r)) <= (3 # 16777216) * (va # r))%Q ->
  (Qabs (y - (vb # r)) <= (3 # 16777216) * (vb # r))%Q ->
  0 < va < vb -> vb < 2 ^ 21 ->
  (x < y)%Q.
Proof.
  intros Hx Hy Hv Hb.
  apply Qabs_Qle_condition in Hx, Hy.
  set (t := (1 # r)%Q).
  assert (Ht : (0 < t)%Q) by reflexivity.
  assert (Ea : (va # r == inject_Z va * t)%Q).
  { unfold t, Qeq, Qmult, inject_Z. simpl. lia. }
  assert (Eb : (vb # r == inject_Z vb * t)%Q).
  { unfold t, Qeq, Qmult, inject_Z. simpl. lia. }
  rewrite Ea in Hx. rewrite Eb in Hy.
  assert (Ia : (inject_Z va + 1 <= inject_Z vb)%Q).
  { change 1%Q with (inject_Z 1). rewrite <- inject_Z_plus, <- Zle_Qle. lia. }
  assert (Ib : (inject_Z vb <= 2097152)%Q).
  { change 2097152%Q with (inject_Z 2097152). rewrite <- Zle_Qle. simpl in Hb. lia. }
  assert (I0 : (0 < inject_Z va)%Q).
  { change 0%Q with (inject_Z 0). rewrite <- Zlt_Qlt. lia. }
  set (A := inject_Z va) in *. set (B := inject_Z vb) in *.
  assert (M1 : ((A + 1) * t <= B * t)%Q)
    by (apply Qmult_le_compat_r; [exact Ia|now apply Qlt_le_weak]).
  assert (M2 : (B * t <= 2097152 * t)%Q)
    by (apply Qmult_le_compat_r; [exact Ib|now apply Qlt_le_weak]).
  clearbody A B t. lra.
Qed.

Lemma within_weaken (x : spec_float) (N D : Z) :
  0 <= N -> Value.within 1 x N D -> Value.within 3 x N D.
Proof.
  intros HN. destruct x as [s|s| |[] m e]; simpl; try tauto.
  intros [He H]. split; [exact He|]. change (2 ^ 64) with 18446744073709551616 in *.
  lia.
Qed.

(** Two normal floats within [3 * 2 ^ -24] of [va / r < vb / r] are
    strictly in order as soon as they are in order. *)
Lemma strictly_ordered (x y : spec_float) (va vb r : Z) :
  normal (-55) 11 x -> normal (-55) 11 y ->
  Value.within 3 x va r -> Value.within 3 y vb r ->
  0 < r -> 0 < va < vb -> vb < 2 ^ 21 ->
  SFleb x y = true -> SFltb x y = true.
Proof.
  intros (mx & ex & -> & _) (my & ey & -> & _) Wx Wy Hr Hv Hb L.
  apply leb_neq_ltb; [exact L|].
  intros E.
  destruct r as [|r|r]; try lia.
  apply Accuracy.within_Q in Wx, Wy; try lia.
  pose proof (separated _ _ va vb r Wx Wy Hv Hb) as S.
  rewrite E in S. exact (Qlt_irrefl _ S).
Qed.

End Separation.

(* ===================================================================== *)
(** * Sums and means of equal floats *)
(* ===================================================================== *)

Module FlatField.

Import RoundDefs Round IntFacts Normalize.

(** Aligning a mantissa to a smaller exponent shifts it left. *)
Lemma shl_align_value (m : positive) (e c : Z) :
  c <= e -> Zpos (fst (shl_align m e c)) = Zpos m * 2 ^ (e - c).
Proof.
  intros H. unfold shl_align. destruct (c - e) as [|d|d] eqn:K; try lia.
  - replace (e - c) with 0 by lia. simpl. lia.
  - simpl. rewrite iter_xO. f_equal. f_equal. lia.
Qed.

(** The sum of two positive floats, when it has at least 24 digits at the
    smaller exponent: the exact sum, rounded once. *)
Lemma add_packed (mx my : positive) (ex ey : Z) :
  let ez := Z.min ex ey in
  let S := Zpos mx * 2 ^ (ex - ez) + Zpos my * 2 ^ (ey - ez) in
  24 <= Zdigits2 S ->
  let E := Z.max (Zdigits2 S + ez - 24) (-149) in
  Binary32.add (S754_finite false mx ex) (S754_finite false my ey) =
    packed false (rne S (2 ^ (E - ez))) E /\
  wellpacked (rne S (2 ^ (E - ez))) E.
Proof.
  cbv zeta. intros Hd.
  set (ez := Z.min ex ey) in *.
  unfold Binary32.add, SFadd. fold ez. simpl cond_Zopp.
  rewrite !shl_align_value by (unfold ez; lia).
  set (S := Zpos mx * 2 ^ (ex - ez) + Zpos my * 2 ^ (ey - ez)) in *.
  assert (HS : 0 < S).
  { assert (0 < 2 ^ (ex - ez)) by (apply Z.pow_pos_nonneg; unfold ez; lia).
    assert (0 < 2 ^ (ey - ez)) by (apply Z.pow_pos_nonneg; unfold ez; lia).
    unfold S. nia. }
  destruct S as [|s|s] eqn:ES; try lia.
  unfold binary_normalize.
  destruct (binary_round_packed false s ez) as (mz & fz & Pz & Lz & Vz & En & E & W).
  change Binary32.prec with prec. change Binary32.emax with emax. rewrite E.
  assert (D : Zdigits2 mz + fz = Zdigits2 (Zpos s) + ez).
  { rewrite Vz, Zdigits2_shift by lia. lia. }
  rewrite (round_exp_enough _ _ En) in *. rewrite D, fexp_eq in *.
  set (E' := Z.max (Zdigits2 (Zpos s) + ez - 24) (-149)) in *.
  assert (HE : ez <= E') by (unfold E'; lia).
  assert (R : rne mz (2 ^ (E' - fz)) = rne (Zpos s) (2 ^ (E' - ez))).
  { rewrite Vz. replace (E' - fz) with ((E' - ez) + (ez - fz)) by lia.
    rewrite pow_split by lia.
    apply rne_scale; apply Z.pow_pos_nonneg; lia. }
  rewrite R in *. auto.
Qed.

Lemma even_double (j : Z) : Z.even (2 * j) = true.
Proof. now rewrite Z.even_mul. Qed.

Lemma even_double_pred (j : Z) : Z.even (2 * j - 1) = false.
Proof.
  replace (2 * j - 1) with (Z.succ (2 * (j - 1))) by lia.
  rewrite Z.even_succ, Z.odd_mul. reflexivity.
Qed.

(** Adding a 24-digit mantissa to three times itself, rounded to 24 digits,
    and rounding again gives four times the mantissa exactly. *)
Lemma flat_sum_core (m : Z) :
  2 ^ 23 <= m < 2 ^ 24 ->
  let K := Zdigits2 (3 * m) - 24 in
  let n := rne (3 * m) (2 ^ K) in
  1 <= K <= 2 /\
  Zdigits2 (n * 2 ^ K + m) = 26 /\ rne (n * 2 ^ K + m) (2 ^ 2) = m.
Proof.
  intros Hm. cbv zeta. change (2 ^ 23) with 8388608 in Hm.
  change (2 ^ 24) with 16777216 in Hm.
  assert (Dg : 25 <= Zdigits2 (3 * m) <= 26).
  { split; [apply Zdigits2_ge; simpl; lia|apply Zdigits2_le; simpl; lia]. }
  pose proof (Zdigits2_bounds (3 * m) ltac:(lia)) as Bd.
  set (K := Zdigits2 (3 * m) - 24) in *.
  assert (HK : K = 1 \/ K = 2) by lia.
  split; [lia|].
  replace (Zdigits2 (3 * m)) with (K + 24) in Bd by (unfold K; lia).
  clearbody K.
  change (2 ^ 2) with 4.
  destruct HK as [-> | ->].
  - (* one digit dropped *)
    change (2 ^ 1) with 2. simpl in Bd.
    destruct (rne_cases (3 * m) 2 ltac:(lia)) as (Hr & H1 & H2 & H3).
    cbv zeta in *. set (q := 3 * m / 2) in *. set (n := rne (3 * m) 2) in *.
    assert (Hn : n * 2 = 3 * m \/
                 ((n * 2 = 3 * m - 1 \/ n * 2 = 3 * m + 1) /\ 8388608 < m)).
    { destruct (Z.eq_dec (3 * m - q * 2) 0) as [Z0|NZ].
      - left. rewrite H1 by lia. lia.
      - right. assert (E : 2 * (3 * m - q * 2) = 2) by lia.
        split; [|lia]. rewrite (H3 E). destruct (Z.even q); lia. }
    clearbody n. clear H1 H2 H3 Hr.
    split.
    + apply Zdigits2_unique; [|lia]. simpl. lia.
    + destruct (rne_cases (n * 2 + m) 4 ltac:(lia)) as (Hr & H1 & H2 & _).
      cbv zeta in *. set (q' := (n * 2 + m) / 4) in *.
      destruct Hn as [E|[[E|E] _]].
      * rewrite H1; lia.
      * rewrite H2; lia.
      * rewrite H1; lia.
  - (* two digits dropped *)
    change (2 ^ 2) with 4. simpl in Bd.
    destruct (rne_cases (3 * m) 4 ltac:(lia)) as (Hr & H1 & H2 & H3).
    cbv zeta in *. set (q := 3 * m / 4) in *. set (n := rne (3 * m) 4) in *.
    assert (Hn : (-1 <= n * 4 - 3 * m <= 1) \/
                 ((n * 4 = 3 * m - 2 \/ n * 4 = 3 * m + 2) /\ exists j, m = 2 * j)).
    { destruct (Z.lt_trichotomy (2 * (3 * m - q * 4)) 4) as [L|[E|G]].
      - left. rewrite (H1 L). lia.
      - right. split.
        + rewrite (H3 E). destruct (Z.even q); lia.
        + exists (2 * q + 1 - m). lia.
      - left. rewrite (H2 G). lia. }
    clearbody n. clear H1 H2 H3 Hr.
    split.
    + apply Zdigits2_unique; [|lia]. simpl. destruct Hn as [?|[[?|?] _]]; lia.
    + destruct (rne_cases (n * 4 + m) 4 ltac:(lia)) as (Hr & H1 & H2 & H3).
      cbv zeta in *. set (q' := (n * 4 + m) / 4) in *.
      destruct Hn as [E|[[E|E] [j Ej]]].
      * destruct (Z.lt_trichotomy (2 * (n * 4 + m - q' * 4)) 4) as [L|[T|G]].
        -- rewrite (H1 L). lia.
        -- exfalso. lia.
        -- rewrite (H2 G). lia.
      * assert (T : 2 * (n * 4 + m - q' * 4) = 4) by lia.
        rewrite (H3 T).
        assert (Q : q' = 2 * j - 1) by lia.
        rewrite Q, even_double_pred. lia.
      * assert (T : 2 * (n * 4 + m - q' * 4) = 4) by lia.
        rewrite (H3 T).
        assert (Q : q' = 2 * j) by lia.
        rewrite Q, even_double. lia.
Qed.

Lemma packed_normal_mantissa (m : positive) (e : Z) :
  2 ^ (prec - 1) <= Zpos m < 2 ^ prec -> e <= 104 ->
  packed false (Zpos m) e = S754_finite false m e.
Proof.
  intros B He. apply PowerOfTwo.packed_small; [apply B|].
  unfold emax, prec, Binary32.emax, Binary32.prec. lia.
Qed.

(** A normal float added to itself: the exponent moves by one. *)
Lemma add_self (m : positive) (e : Z) :
  2 ^ (prec - 1) <= Zpos m < 2 ^ prec -> -100 <= e <= 100 ->
  Binary32.add (S754_finite false m e) (S754_finite false m e)
  = S754_finite false m (e + 1).
Proof.
  intros B He. pose proof (proj1 (bounds_23_24 m) B) as B'.
  pose proof (add_packed m m e e) as A. cbv zeta in A.
  rewrite Z.min_id, Z.sub_diag, Z.mul_1_r in A.
  replace (Zpos m + Zpos m) with (Zpos m * 2 ^ 1) in A by (simpl; lia).
  rewrite Zdigits2_shift, (normal_digits m B) in A by lia.
  destruct (A ltac:(lia)) as [-> _].
  replace (Z.max (24 + 1 + e - 24) (-149)) with (e + 1) by lia.
  replace (e + 1 - e) with 1 by lia.
  rewrite rne_exact by (simpl; lia).
  apply packed_normal_mantissa; [exact B|lia].
Qed.

(** Four equal normal floats, added left to right: the exponent moves by
    two, with no rounding error left. *)
Lemma add_four (m : positive) (e : Z) :
  2 ^ (prec - 1) <= Zpos m < 2 ^ prec -> -100 <= e <= 100 ->
  let x := S754_finite false m e in
  Binary32.add (Binary32.add (Binary32.add x x) x) x
  = S754_finite false m (e + 2).
Proof.
  intros B He. cbv zeta. pose proof (proj1 (bounds_23_24 m) B) as B'.
  rewrite (add_self m e B He).
  destruct (flat_sum_core (Zpos m) ltac:(simpl; lia)) as (HK & D4 & R4).
  cbv zeta in *.
  (* the third term *)
  pose proof (add_packed m m (e + 1) e) as A3. cbv zeta in A3.
  replace (Z.min (e + 1) e) with e in A3 by lia.
  replace (e + 1 - e) with 1 in A3 by lia. rewrite Z.sub_diag, Z.mul_1_r in A3.
  replace (Zpos m * 2 ^ 1 + Zpos m) with (3 * Zpos m) in A3 by (simpl; lia).
  set (K := Zdigits2 (3 * Zpos m) - 24) in *.
  replace (Z.max (Zdigits2 (3 * Zpos m) + e - 24) (-149)) with (e + K) in A3
    by (unfold K; lia).
  replace (e + K - e) with K in A3 by lia.
  destruct (A3 ltac:(unfold K in HK; lia)) as [-> W3].
  set (n := rne (3 * Zpos m) (2 ^ K)) in *. clearbody n K.
  destruct (packed_normal false n (e + K) W3) as (m3 & e3 & -> & B3 & Le3 & V3);
    [unfold emin; lia|unfold emax, prec, Binary32.emax, Binary32.prec; lia|].
  (* the fourth term *)
  pose proof (add_packed m3 m e3 e) as A4. cbv zeta in A4.
  replace (Z.min e3 e) with e in A4 by lia.
  rewrite Z.sub_diag, Z.mul_1_r in A4.
  assert (E3 : Zpos m3 * 2 ^ (e3 - e) = n * 2 ^ K).
  { rewrite <- V3. replace (e3 - e) with ((e3 - (e + K)) + K) by lia.
    rewrite pow_split by lia. ring. }
  rewrite E3, D4 in A4.
  replace (Z.max (26 + e - 24) (-149)) with (e + 2) in A4 by lia.
  replace (e + 2 - e) with 2 in A4 by lia.
  destruct (A4 ltac:(lia)) as [-> _].
  rewrite R4. apply packed_normal_mantissa; [exact B|lia].
Qed.

(** Scaling by an exact power of two, for the exponents the sums take. *)
Lemma mul_pow2_wide (m : positive) (e k : Z) :
  2 ^ (prec - 1) <= Zpos m < 2 ^ prec -> -100 <= e <= 100 -> 0 <= k <= 2 ->
  Binary32.mul (S754_finite false m e) (S754_finite false 8388608 (- k - 23))
  = S754_finite false m (e - k).
Proof.
  intros B He Hk.
  assert (Vm : valid_binary prec emax (S754_finite false m e) = true).
  { apply (normal_is_valid (-100) 100); [lia|lia|]. exists m, e; auto. }
  assert (Vp : valid_binary prec emax (S754_finite false 8388608 (- k - 23)) = true).
  { apply (normal_is_valid (-53) (-23)); [lia|lia|].
    exists 8388608%positive, (- k - 23).
    repeat split; try apply PowerOfTwo.bounds_pow23; lia. }
  destruct (mul_packed false false m 8388608 e (- k - 23) Vm Vp) as [-> _].
  simpl xorb.
  assert (P : Zpos (m * 8388608) = Zpos m * 2 ^ 23) by (rewrite Pos2Z.inj_mul; reflexivity).
  assert (Dg : Zdigits2 (Zpos (m * 8388608)) = 47).
  { rewrite P, Zdigits2_shift, (normal_digits m B) by lia. reflexivity. }
  unfold round_exp. rewrite Dg, fexp_eq.
  replace (Z.max (e + (- k - 23)) (Z.max (47 + (e + (- k - 23)) - 24) (-149)))
    with (e - k) by lia.
  replace (e - k - (e + (- k - 23))) with 23 by lia.
  rewrite P, rne_exact by lia.
  apply packed_normal_mantissa; [exact B|lia].
Qed.

Lemma div_pow2_wide (m : positive) (e k : Z) :
  2 ^ (prec - 1) <= Zpos m < 2 ^ prec -> -100 <= e <= 100 -> 0 <= k <= 2 ->
  Binary32.div (S754_finite false m e) (S754_finite false 8388608 (k - 23))
  = S754_finite false m (e - k).
Proof.
  intros B He Hk.
  destruct (div_packed false false m 8388608 e (k - 23)) as (-> & _);
    [exact B|exact PowerOfTwo.bounds_pow23|lia|].
  simpl xorb.
  assert (Q : Zpos m * 2 ^ 24 / Zpos 8388608 = 2 * Zpos m).
  { replace (Zpos m * 2 ^ 24) with (2 * Zpos m * Zpos 8388608) by (simpl; lia).
    apply Z.div_mul. lia. }
  rewrite Q.
  assert (Dg : Zdigits2 (2 * Zpos m) = 25).
  { replace (2 * Zpos m) with (Zpos m * 2 ^ 1) by (simpl; lia).
    rewrite Zdigits2_shift, (normal_digits m B) by lia. reflexivity. }
  unfold round_exp. rewrite Dg, fexp_eq.
  replace (Z.max (e - (k - 23) - 24) (Z.max (25 + (e - (k - 23) - 24) - 24) (-149)))
    with (e - k) by lia.
  replace (e - k - (e - (k - 23) - 24)) with 1 by lia.
  replace (Zpos 8388608 * 2 ^ 1) with (2 ^ 24) by reflexivity.
  rewrite rne_exact by lia.
  apply packed_normal_mantissa; [exact B|lia].
Qed.

(** The mean of equal values is the value, in both variants: for zero and
    for every normal float a normalisation can return. *)
Lemma means_of_equal (n : Binary32.float) :
  n = Binary32.pzero \/ normal (-55) 11 n ->
  Spec.fma_mean2 n n = n /\ Spec.fma_mean4 n n n n = n /\
  Spec.plain_mean2 n n = n /\ Spec.plain_mean4 n n n n = n.
Proof.
  intros [->|(m & e & -> & B & He)]; [repeat split; reflexivity|].
  unfold Spec.fma_mean2, Spec.fma_mean4, Spec.plain_mean2, Spec.plain_mean4.
  cbn [f_add f_mul f_div f_lit binary32_ops].
  destruct Clamp.literal_values as (-> & -> & -> & -> & _).
  rewrite (add_four m e B ltac:(lia)), (add_self m e B ltac:(lia)).
  pose proof (mul_pow2_wide m (e + 1) 1 B ltac:(lia) ltac:(lia)) as M2.
  pose proof (mul_pow2_wide m (e + 2) 2 B ltac:(lia) ltac:(lia)) as M4.
  pose proof (div_pow2_wide m (e + 1) 1 B ltac:(lia) ltac:(lia)) as D2.
  pose proof (div_pow2_wide m (e + 2) 2 B ltac:(lia) ltac:(lia)) as D4.
  change (- (1) - 23) with (-24) in M2. change (- (2) - 23) with (-25) in M4.
  change (1 - 23) with (-22) in D2. change (2 - 23) with (-21) in D4.
  rewrite M2, M4, D2, D4.
  replace (e + 1 - 1) with e by lia. replace (e + 2 - 2) with e by lia.
  repeat split.
Qed.

Lemma reconstruct_flat (mean2 : float -> float -> float)
    (mean4 : float -> float -> float -> float -> float)
    (n : Z -> float) (inp : list Z) (w h x y s : Z) (r : Spec.rule) :
  Spec.addressable w h -> Spec.interior w h x y ->
  Grid.flat_window w inp x y s ->
  mean2 (n s) (n s) = n s -> mean4 (n s) (n s) (n s) (n s) = n s ->
  Spec.reconstruct mean2 mean4 (fun c => n (PIX inp (fst c) (snd c) w)) r x y
  = n s.
Proof.
  intros Ha [Hx Hy] D M2 M4.
  unfold Grid.flat_window, Grid.window in D.
  repeat (apply Forall_cons in D as [? D]).
  destruct r; unfold Spec.reconstruct; simpl;
    rewrite !(Stencil.PIX_sample _ w h) by (auto; lia);
    repeat match goal with E : Grid.sample _ _ _ = s |- _ => rewrite E; clear E end;
    auto.
Qed.

Lemma norm_zero_or_normal (black white s : Z) :
  Spec.levels black white -> u16_range s ->
  (Spec.fma_norm black white s = Binary32.pzero \/
   normal (-55) 11 (Spec.fma_norm black white s)) /\
  (Spec.plain_norm black white s = Binary32.pzero \/
   normal (-55) 11 (Spec.plain_norm black white s)).
Proof.
  intros L Hs. destruct (Z.le_gt_cases s black) as [Le|Gt].
  - split; left; [now apply fma_norm_below|now apply plain_norm_below].
  - split; right; [now apply fma_norm_above|now apply plain_norm_above].
Qed.

Lemma demosaic_cam_flat (inp : list Z) (p : params float) (x y s : Z) :
  Spec.sized (width p) (height p) ->
  Spec.interior (width p) (height p) x y ->
  Spec.levels (black_level p) (white_level p) -> u16_range s ->
  Grid.flat_window (width p) inp x y s ->
  let n := Spec.fma_norm (black_level p) (white_level p) s in
  Spec.demosaic_cam inp p x y =
  (Binary32.mul n (wb_r p), Binary32.mul n (wb_g p), Binary32.mul n (wb_b p)).
Proof.
  intros Hs Hi L Hu D n. apply Stencil.sized_addressable in Hs.
  destruct (norm_zero_or_normal _ _ s L Hu) as [Z _].
  destruct (means_of_equal _ Z) as (M2 & M4 & _).
  unfold Spec.demosaic_cam.
  rewrite (Parity.fma_get_red_rule _ _ (height p)),
          (Parity.fma_get_green_rule _ _ (height p)),
          (Parity.fma_get_blue_rule _ _ (height p)) by assumption.
  unfold Spec.fma_sample.
  now rewrite !(reconstruct_flat _ _
                  (fun v => Fma.normalize_pixel v (black_level p) (Spec.inv_range p))
                  inp _ (height p) x y s).
Qed.

Lemma plain_cam_flat (inp : list Z) (p : params float) (x y s : Z) :
  Spec.sized (width p) (height p) ->
  Spec.interior (width p) (height p) x y ->
  Spec.levels (black_level p) (white_level p) -> u16_range s ->
  Grid.flat_window (width p) inp x y s ->
  let n := Spec.plain_norm (black_level p) (white_level p) s in
  Spec.plain_cam inp p x y =
  (Binary32.mul n (wb_r p), Binary32.mul n (wb_g p), Binary32.mul n (wb_b p)).
Proof.
  intros Hs Hi L Hu D n. apply Stencil.sized_addressable in Hs.
  destruct (norm_zero_or_normal _ _ s L Hu) as [_ Z].
  destruct (means_of_equal _ Z) as (_ & _ & M2 & M4).
  unfold Spec.plain_cam. cbv zeta.
  rewrite (Parity.plain_get_red_rule _ _ (height p)),
          (Parity.plain_get_green_rule _ _ (height p)),
          (Parity.plain_get_blue_rule _ _ (height p)) by assumption.
  unfold Spec.plain_sample.
  now rewrite !(reconstruct_flat _ _
                  (fun v => Plain.normalize (black_level p)
                              (f_of_int (isub (white_level p) (black_level p))) v)
                  inp _ (height p) x y s).
Qed.

End FlatField.

Module SameDemosaic.

Import RoundDefs Round IntFacts Normalize.

(* Zero, or a positive normal float with exponent between [lo] and [hi]. *)
#[local] Abbreviation zero_or_normal lo hi x := (x = Binary32.pzero \/ normal lo hi x).

Lemma zero_or_normal_weaken (lo hi hi' : Z) (x : float) :
  hi <= hi' -> zero_or_normal lo hi x -> zero_or_normal lo hi' x.
Proof.
  intros H [->|(m & e & -> & B & He)]; [now left|right].
  exists m, e. repeat split; try apply B; lia.
Qed.

(** The sum of two such floats is again one: the exponent grows by at most
    two. *)
Lemma add_zero_or_normal (lo hi : Z) (x y : float) :
  -100 <= lo -> hi <= 90 ->
  zero_or_normal lo hi x -> zero_or_normal lo hi y ->
  zero_or_normal lo (hi + 2) (Binary32.add x y).
Proof.
  intros Hlo Hhi [->|(mx & ex & -> & Bx & Hex)] [->|(my & ey & -> & By & Hey)].
  - now left.
  - right. exists my, ey. repeat split; try apply By; lia.
  - right. exists mx, ex. repeat split; try apply Bx; lia.
  - right.
    pose proof (proj1 (bounds_23_24 mx) Bx) as Bx'.
    pose proof (proj1 (bounds_23_24 my) By) as By'.
    pose proof (FlatField.add_packed mx my ex ey) as A. cbv zeta in A.
    set (ez := Z.min ex ey) in *. set (M := Z.max ex ey).
    set (S := Zpos mx * 2 ^ (ex - ez) + Zpos my * 2 ^ (ey - ez)) in *.
    assert (Px : 0 < 2 ^ (ex - ez)) by (apply Z.pow_pos_nonneg; unfold ez; lia).
    assert (Py : 0 < 2 ^ (ey - ez)) by (apply Z.pow_pos_nonneg; unfold ez; lia).
    assert (PM : 2 ^ (ex - ez) <= 2 ^ (M - ez) /\ 2 ^ (ey - ez) <= 2 ^ (M - ez) /\
                 (2 ^ (ex - ez) = 2 ^ (M - ez) \/ 2 ^ (ey - ez) = 2 ^ (M - ez))).
    { split; [|split].
      - apply Z.pow_le_mono_r; unfold M, ez; lia.
      - apply Z.pow_le_mono_r; unfold M, ez; lia.
      - destruct (Z.le_ge_cases ex ey); [right|left]; f_equal; unfold M; lia. }
    assert (Lo : 8388608 * 2 ^ (M - ez) <= S) by (unfold S; nia).
    assert (Hi : S < 2 * (16777216 * 2 ^ (M - ez))) by (unfold S; nia).
    assert (HM : 0 <= M - ez) by (unfold M, ez; lia).
    assert (Dlo : 24 + (M - ez) <= Zdigits2 S).
    { apply Zdigits2_ge; [lia|].
      replace (24 + (M - ez) - 1) with (23 + (M - ez)) by lia.
      rewrite pow_split by lia. exact Lo. }
    assert (Dhi : Zdigits2 S <= 25 + (M - ez)).
    { apply Zdigits2_le; [lia|lia|].
      rewrite pow_split by lia. change (2 ^ 25) with (2 * 16777216). lia. }
    destruct (A ltac:(lia)) as [-> W].
    set (E := Z.max (Zdigits2 S + ez - 24) (-149)) in *.
    assert (HE : M <= E <= M + 1) by (unfold E, M in *; lia).
    destruct (packed_normal false _ E W) as (m' & e' & -> & B' & Le & _);
      [unfold emin, M in *; lia
      |unfold emax, prec, Binary32.emax, Binary32.prec, M in *; lia|].
    exists m', e'. repeat split; try apply B'; unfold M in *; lia.
Qed.

(** Halving and quartering such a float: multiplying by [0.5f] or
    [0.25f] is dividing by [2.0f] or [4.0f]. *)
Lemma scale_agree (x : float) :
  zero_or_normal (-100) 100 x ->
  Binary32.mul x (Binary32.lit 5 10) = Binary32.div x (Binary32.lit 2 1) /\
  Binary32.mul x (Binary32.lit 25 100) = Binary32.div x (Binary32.lit 4 1).
Proof.
  destruct Clamp.literal_values as (-> & -> & -> & -> & _).
  intros [->|(m & e & -> & B & He)]; [split; reflexivity|].
  pose proof (FlatField.mul_pow2_wide m e 1 B He ltac:(lia)) as M2.
  pose proof (FlatField.mul_pow2_wide m e 2 B He ltac:(lia)) as M4.
  pose proof (FlatField.div_pow2_wide m e 1 B He ltac:(lia)) as D2.
  pose proof (FlatField.div_pow2_wide m e 2 B He ltac:(lia)) as D4.
  change (- (1) - 23) with (-24) in M2. change (- (2) - 23) with (-25) in M4.
  change (1 - 23) with (-22) in D2. change (2 - 23) with (-21) in D4.
  now rewrite M2, M4, D2, D4.
Qed.

Lemma means_agree (a b c d : float) :
  zero_or_normal (-55) 11 a -> zero_or_normal (-55) 11 b ->
  zero_or_normal (-55) 11 c -> zero_or_normal (-55) 11 d ->
  Spec.fma_mean2 a b = Spec.plain_mean2 a b /\
  Spec.fma_mean4 a b c d = Spec.plain_mean4 a b c d.
Proof.
  intros Za Zb Zc Zd.
  unfold Spec.fma_mean2, Spec.fma_mean4, Spec.plain_mean2, Spec.plain_mean4.
  cbn [f_add f_mul f_div f_lit binary32_ops].
  pose proof (add_zero_or_normal (-55) 11 a b ltac:(lia) ltac:(lia) Za Zb) as Z2.
  pose proof (add_zero_or_normal (-55) 13 _ c ltac:(lia) ltac:(lia) Z2
                (zero_or_normal_weaken (-55) 11 13 c ltac:(lia) Zc)) as Z3.
  pose proof (add_zero_or_normal (-55) 15 _ d ltac:(lia) ltac:(lia) Z3
                (zero_or_normal_weaken (-55) 11 15 d ltac:(lia) Zd)) as Z4.
  simpl Z.add in *.
  split.
  - apply scale_agree.
    destruct Z2 as [->|(m & e & -> & B & He)]; [now left|right].
    exists m, e. repeat split; try apply B; lia.
  - apply scale_agree.
    destruct Z4 as [->|(m & e & -> & B & He)]; [now left|right].
    exists m, e. repeat split; try apply B; lia.
Qed.

(** With a power-of-two range, the two variants rebuild the same value
    from any window of 16-bit samples. *)
Lemma reconstruct_same (inp : list Z) (w h black white k x y : Z) (r : Spec.rule) :
  Spec.addressable w h -> Spec.interior w h x y ->
  Spec.levels black white -> white - black = 2 ^ k ->
  Grid.valid_window w inp x y ->
  Spec.reconstruct Spec.fma_mean2 Spec.fma_mean4
    (fun c => @Spec.fma_norm float _ black white (PIX inp (fst c) (snd c) w)) r x y =
  Spec.reconstruct Spec.plain_mean2 Spec.plain_mean4
    (fun c => @Spec.plain_norm float _ black white (PIX inp (fst c) (snd c) w)) r x y.
Proof.
  intros Ha [Hx Hy] L Hk D.
  unfold Grid.valid_window, Grid.window in D.
  repeat (apply Forall_cons in D as [? D]).
  assert (N : forall c, u16_range (Grid.sample w inp c) ->
            @Spec.fma_norm float _ black white (Grid.sample w inp c) =
              Spec.plain_norm black white (Grid.sample w inp c) /\
            zero_or_normal (-55) 11
              (@Spec.plain_norm float _ black white (Grid.sample w inp c))).
  { intros c Hc. split.
    - now apply (PowerOfTwo.norm_agree _ _ _ k).
    - apply (FlatField.norm_zero_or_normal _ _ _ L Hc). }
  destruct r; unfold Spec.reconstruct; cbn [Spec.neighbours fst snd];
    rewrite !(Stencil.PIX_sample _ w h) by (auto; lia);
    repeat match goal with
           | U : u16_range (Grid.sample w inp ?c) |- _ =>
               let E := fresh "E" in let Z := fresh "Z" in
               destruct (N c U) as [E Z]; rewrite ?E; clear U E
           end;
    first [ reflexivity
          | match goal with
            | |- Spec.fma_mean2 ?a ?b = _ =>
                apply (proj1 (means_agree a b a b ltac:(assumption)
                                ltac:(assumption) ltac:(assumption) ltac:(assumption)))
            | |- Spec.fma_mean4 ?a ?b ?c ?d = _ =>
                apply (proj2 (means_agree a b c d ltac:(assumption)
                                ltac:(assumption) ltac:(assumption) ltac:(assumption)))
            end ].
Qed.

Lemma channels_same (inp : list Z) (w h black white k x y : Z) :
  Spec.addressable w h -> Spec.interior w h x y ->
  Spec.levels black white -> white - black = 2 ^ k ->
  Grid.valid_window w inp x y ->
  let inv := Binary32.div (Binary32.lit 1 1) (Binary32.of_int (isub white black)) in
  let range := Binary32.of_int (isub white black) in
  Fma.get_red inp x y w black inv = Plain.get_red inp x y w black range /\
  Fma.get_green inp x y w black inv = Plain.get_green inp x y w black range /\
  Fma.get_blue inp x y w black inv = Plain.get_blue inp x y w black range.
Proof.
  intros Ha Hi L Hk D inv range.
  rewrite (Parity.fma_get_red_rule _ _ h), (Parity.fma_get_green_rule _ _ h),
          (Parity.fma_get_blue_rule _ _ h), (Parity.plain_get_red_rule _ _ h),
          (Parity.plain_get_green_rule _ _ h), (Parity.plain_get_blue_rule _ _ h)
    by assumption.
  pose proof (fun r => reconstruct_same inp w h black white k x y r Ha Hi L Hk D) as R.
  repeat split; apply R.
Qed.

End SameDemosaic.

(* ===================================================================== *)
(** * Further properties of the kernels *)
(* ===================================================================== *)

(** X1.  In a launch of [apply_color_pipeline] whose grid covers the image,
    every location of the output buffer of [3 * width * height] floats is
    stored to exactly once, and no location outside it is stored to. *)
Theorem color_launch_covers_buffer {F : Type} `{FloatOps F}
    (rgb_in : list Z) (p : params F) (gx gy i : Z) :
  Spec.sized (width p) (height p) -> width p <= gx -> height p <= gy ->
  writes_to i (launch (Color.apply_color_pipeline rgb_in p) gx gy) =
  if decide (0 <= i < 3 * (width p * height p)) then 1%nat else 0%nat.
Proof.
  intros Hs Hgx Hgy.
  pose proof (fun x y => KernelGrid.color_locations rgb_in p x y Hs) as K.
  pose proof (KernelGrid.in_imageb_in_image (width p) (height p)) as S.
  destruct (decide (0 <= i < 3 * (width p * height p))) as [B|B].
  - apply Buffer.writes_to_once; [now apply (GridFacts.launch_NoDup _ _ _ _ S K)|].
    apply (GridFacts.launch_key _ _ _ K).
    destruct Hs as (Hw & Hh & _).
    destruct (GridFacts.location_pixel (width p) (height p) i Hw B)
      as (x & y & c & Hx & Hy & Hc & ->).
    exists x, y. repeat split; try lia.
    + apply GridFacts.in_imageb_spec. lia.
    + unfold Grid.pixel_locations.
      assert (Cs : c = 0 \/ c = 1 \/ c = 2) by lia.
      destruct Cs as [-> | [-> | ->]]; rewrite ?Z.add_0_r;
        repeat first [now left | right].
  - apply Buffer.writes_to_notin. intros Hi. apply B.
    now apply (GridFacts.launch_in_bounds _ _ _ _ S K) in Hi.
Qed.

Lemma color_launch_covers_buffer_witness :
  Spec.sized 3 3 /\
  writes_to 26
    (launch (Color.apply_color_pipeline Examples.rgb_3x3 Examples.params_3x3) 4 4)
  = 1%nat.
Proof.
  assert (Hs : Spec.sized 3 3) by (unfold Spec.sized, INT_MAX; lia).
  split; [exact Hs|].
  refine (color_launch_covers_buffer Examples.rgb_3x3 Examples.params_3x3 4 4 26
            Hs _ _); simpl; lia.
Defined.

(** X2.  Every store of a launch of [debayer16_to_xyz] (either variant,
    any grid) hits one of the three locations of an interior pixel, hence a
    location inside the output buffer. *)
Theorem debayer_stores_interior_only {F : Type} `{FloatOps F}
    (inp : list Z) (p : params F) (gx gy : Z) (s : store F) :
  Spec.sized (width p) (height p) ->
  elem_of s (launch (Fma.debayer16_to_xyz inp p) gx gy) \/
  elem_of s (launch (Plain.debayer16_to_xyz inp p) gx gy) ->
  (exists x y c, Spec.interior (width p) (height p) x y /\ 0 <= c < 3 /\
                 fst s = (y * width p + x) * 3 + c) /\
  0 <= fst s < 3 * (width p * height p).
Proof.
  intros Hs Hin.
  assert (K : elem_of (fst s) (map fst (launch (Fma.debayer16_to_xyz inp p) gx gy)) \/
              elem_of (fst s) (map fst (launch (Plain.debayer16_to_xyz inp p) gx gy))).
  { destruct Hin as [Hin|Hin]; [left|right];
      apply list_elem_of_fmap; exists s; auto. }
  assert (L : exists x y, Spec.interiorb (width p) (height p) x y = true /\
                          elem_of (fst s) (Grid.pixel_locations (width p) x y)).
  { destruct K as [K|K].
    - apply (GridFacts.launch_key _ _ _
               (fun x y => KernelGrid.fma_locations inp p x y Hs)) in K
        as (x & y & _ & _ & S & Hi). eauto.
    - apply (GridFacts.launch_key _ _ _
               (fun x y => KernelGrid.plain_locations inp p x y Hs)) in K
        as (x & y & _ & _ & S & Hi). eauto. }
  destruct L as (x & y & S & Hi).
  destruct (KernelGrid.interiorb_in_image _ _ _ _ S) as [Hx Hy].
  destruct (GridFacts.pixel_locations_bounds _ (height p) _ _ _ Hx Hy Hi)
    as (c & Hc & E & B).
  split; [|exact B].
  exists x, y, c. repeat split; auto; now apply Border.interiorb_spec in S as [? ?].
Qed.

Lemma debayer_stores_interior_only_witness :
  Spec.sized 3 3 /\
  elem_of (13, S754_zero false)
    (launch (Fma.debayer16_to_xyz Examples.mosaic_3x3 Examples.params_3x3) 4 4) /\
  0 <= 13 < 3 * (3 * 3).
Proof.
  assert (Hs : Spec.sized 3 3) by (unfold Spec.sized, INT_MAX; lia).
  assert (Hin : elem_of (13, S754_zero false)
                  (launch (Fma.debayer16_to_xyz Examples.mosaic_3x3
                             Examples.params_3x3) 4 4)).
  { vm_compute. right. left. }
  split; [exact Hs|]. split; [exact Hin|].
  exact (proj2 (debayer_stores_interior_only Examples.mosaic_3x3 Examples.params_3x3
                  4 4 (13, S754_zero false) Hs (or_introl Hin))).
Defined.

(** X3.  No two threads of a launch store to the same location, so the
    output buffer does not depend on the order in which the stores of the
    launch are performed. *)
Theorem launch_order_irrelevant {F : Type} `{FloatOps F}
    (inp rgb_in : list Z) (p : params F) (gx gy : Z)
    (kernel : Z -> Z -> list (store F)) :
  Spec.sized (width p) (height p) ->
  In kernel [ Fma.debayer16_to_xyz inp p; Plain.debayer16_to_xyz inp p;
              Color.apply_color_pipeline rgb_in p ] ->
  NoDup (map fst (launch kernel gx gy)) /\
  forall (log : list (store F)) (out : gmap Z F),
    Permutation (launch kernel gx gy) log ->
    run_stores out log = run_stores out (launch kernel gx gy).
Proof.
  intros Hs Hk.
  assert (Hnd : NoDup (map fst (launch kernel gx gy))).
  { destruct Hk as [<-|[<-|[<-|[]]]].
    - apply (GridFacts.launch_NoDup _ _ _ _ (KernelGrid.interiorb_in_image _ _)
               (fun x y => KernelGrid.fma_locations inp p x y Hs)).
    - apply (GridFacts.launch_NoDup _ _ _ _ (KernelGrid.interiorb_in_image _ _)
               (fun x y => KernelGrid.plain_locations inp p x y Hs)).
    - apply (GridFacts.launch_NoDup _ _ _ _ (KernelGrid.in_imageb_in_image _ _)
               (fun x y => KernelGrid.color_locations rgb_in p x y Hs)). }
  split; [exact Hnd|].
  intros log out HP. symmetry. now apply Buffer.run_stores_perm.
Qed.

Lemma launch_order_irrelevant_witness :
  Spec.sized 3 3 /\
  run_stores empty
    (rev (launch (Color.apply_color_pipeline Examples.rgb_3x3 Examples.params_3x3) 3 3))
  = run_stores empty
      (launch (Color.apply_color_pipeline Examples.rgb_3x3 Examples.params_3x3) 3 3).
Proof.
  assert (Hs : Spec.sized 3 3) by (unfold Spec.sized, INT_MAX; lia).
  split; [exact Hs|].
  refine (proj2 (launch_order_irrelevant Examples.mosaic_3x3 Examples.rgb_3x3
                   Examples.params_3x3 3 3 _ Hs _) _ empty (Permutation_rev _)).
  right. right. left. reflexivity.
Defined.

(** X4.  After a launch whose grid covers the image the output buffer
    holds, at each of the three locations of an interior pixel, the
    corresponding component of the colour transform of the triple the
    demosaic rebuilds there (whatever the buffer held before); after a
    launch of [apply_color_pipeline] the same is true at every pixel of the
    image, for the normalised, white-balanced raw triple. *)
Theorem launch_result {F : Type} `{FloatOps F}
    (inp rgb_in : list Z) (p : params F) (gx gy x y c : Z) (out : gmap Z F) :
  Spec.sized (width p) (height p) ->
  width p <= gx -> height p <= gy -> 0 <= c < 3 ->
  let i := (y * width p + x) * 3 + c in
  (Spec.interior (width p) (height p) x y ->
   run_stores out (launch (Fma.debayer16_to_xyz inp p) gx gy) !! i =
     Some (Grid.channel c
             (Spec.color_transform (cam_to_xyz p) (Spec.demosaic_cam inp p x y))) /\
   run_stores out (launch (Plain.debayer16_to_xyz inp p) gx gy) !! i =
     Some (Grid.channel c
             (Spec.plain_color_transform (cam_to_xyz p) (Spec.plain_cam inp p x y)))) /\
  (0 <= x < width p -> 0 <= y < height p ->
   run_stores out (launch (Color.apply_color_pipeline rgb_in p) gx gy) !! i =
     Some (Grid.channel c
             (Spec.color_transform (cam_to_xyz p) (Spec.color_cam rgb_in p x y)))).
Proof.
  intros Hs Hgx Hgy Hc i. split.
  - intros Hi. pose proof Hi as [Hx Hy]. split.
    + apply Buffer.run_stores_lookup.
      * apply (GridFacts.launch_NoDup _ _ _ _ (KernelGrid.interiorb_in_image _ _)
                 (fun x y => KernelGrid.fma_locations inp p x y Hs)).
      * apply GridFacts.launch_elem. exists x, y. split; [lia|]. split; [lia|].
        rewrite Pipeline.debayer_steps by assumption.
        now apply KernelGrid.stores_at_elem.
    + apply Buffer.run_stores_lookup.
      * apply (GridFacts.launch_NoDup _ _ _ _ (KernelGrid.interiorb_in_image _ _)
                 (fun x y => KernelGrid.plain_locations inp p x y Hs)).
      * apply GridFacts.launch_elem. exists x, y. split; [lia|]. split; [lia|].
        rewrite Pipeline.plain_steps by assumption.
        now apply KernelGrid.stores_at_elem.
  - intros Hx Hy. apply Buffer.run_stores_lookup.
    + apply (GridFacts.launch_NoDup _ _ _ _ (KernelGrid.in_imageb_in_image _ _)
               (fun x y => KernelGrid.color_locations rgb_in p x y Hs)).
    + apply GridFacts.launch_elem. exists x, y. split; [lia|]. split; [lia|].
      rewrite Pipeline.color_steps by assumption.
      now apply KernelGrid.stores_at_elem.
Qed.

Lemma launch_result_witness :
  Spec.sized 3 3 /\ Spec.interior 3 3 1 1 /\
  run_stores empty
    (launch (Fma.debayer16_to_xyz Examples.mosaic_3x3 Examples.params_3x3) 4 4)
    !! 14 =
  Some (Grid.channel 2
          (Spec.color_transform Examples.identity_matrix
             (Spec.demosaic_cam Examples.mosaic_3x3 Examples.params_3x3 1 1))).
Proof.
  assert (Hs : Spec.sized 3 3) by (unfold Spec.sized, INT_MAX; lia).
  assert (Hi : Spec.interior 3 3 1 1) by (unfold Spec.interior; lia).
  split; [exact Hs|]. split; [exact Hi|].
  refine (proj1 (proj1 (launch_result Examples.mosaic_3x3 Examples.rgb_3x3
                          Examples.params_3x3 4 4 1 1 2 empty Hs _ _ _) Hi));
    simpl; lia.
Defined.

(** X5.  Threads outside the image return at once, so a grid rounded up to
    whole blocks performs exactly the stores of the grid that fits the
    image, for each of the three kernels. *)
Theorem launch_independent_of_grid {F : Type} `{FloatOps F}
    (inp rgb_in : list Z) (p : params F) (gx gy : Z) :
  Spec.sized (width p) (height p) -> width p <= gx -> height p <= gy ->
  launch (Fma.debayer16_to_xyz inp p) gx gy =
    launch (Fma.debayer16_to_xyz inp p) (width p) (height p) /\
  launch (Plain.debayer16_to_xyz inp p) gx gy =
    launch (Plain.debayer16_to_xyz inp p) (width p) (height p) /\
  launch (Color.apply_color_pipeline rgb_in p) gx gy =
    launch (Color.apply_color_pipeline rgb_in p) (width p) (height p).
Proof.
  intros Hs Hgx Hgy. pose proof Hs as (Hw & Hh & _).
  repeat split.
  - apply (GridFacts.launch_grid _ _ _ _ (KernelGrid.interiorb_in_image _ _)
             (fun x y => KernelGrid.fma_locations inp p x y Hs)); lia.
  - apply (GridFacts.launch_grid _ _ _ _ (KernelGrid.interiorb_in_image _ _)
             (fun x y => KernelGrid.plain_locations inp p x y Hs)); lia.
  - apply (GridFacts.launch_grid _ _ _ _ (KernelGrid.in_imageb_in_image _ _)
             (fun x y => KernelGrid.color_locations rgb_in p x y Hs)); lia.
Qed.

Lemma launch_independent_of_grid_witness :
  Spec.sized 3 3 /\
  launch (Fma.debayer16_to_xyz Examples.mosaic_3x3 Examples.params_3x3) 16 16 =
  launch (Fma.debayer16_to_xyz Examples.mosaic_3x3 Examples.params_3x3) 3 3.
Proof.
  assert (Hs : Spec.sized 3 3) by (unfold Spec.sized, INT_MAX; lia).
  split; [exact Hs|].
  refine (proj1 (launch_independent_of_grid Examples.mosaic_3x3 Examples.rgb_3x3
                   Examples.params_3x3 16 16 Hs _ _)); simpl; lia.
Defined.

(** X6.  [debayer16_to_xyz] is a 3x3 stencil with the period of the Bayer
    pattern: the window of an interior pixel lies inside the mosaic, and
    the values stored at two interior pixels of the same parities whose
    windows show the same samples are equal (for both variants).  In
    particular the stores at a pixel depend on no sample outside its
    window. *)
Theorem debayer_is_a_stencil {F : Type} `{FloatOps F}
    (inp inp' : list Z) (p : params F) (x y x' y' : Z) :
  Spec.sized (width p) (height p) ->
  Spec.interior (width p) (height p) x y ->
  Spec.interior (width p) (height p) x' y' ->
  Forall (fun c => 0 <= fst c + snd c * width p < width p * height p)
    (Grid.window x y) /\
  (Z.odd x = Z.odd x' -> Z.odd y = Z.odd y' ->
   Grid.same_window (width p) inp inp' x y x' y' ->
   map snd (Fma.debayer16_to_xyz inp p x y) =
     map snd (Fma.debayer16_to_xyz inp' p x' y') /\
   map snd (Plain.debayer16_to_xyz inp p x y) =
     map snd (Plain.debayer16_to_xyz inp' p x' y')) /\
  (Grid.same_window (width p) inp inp' x y x y ->
   Fma.debayer16_to_xyz inp p x y = Fma.debayer16_to_xyz inp' p x y /\
   Plain.debayer16_to_xyz inp p x y = Plain.debayer16_to_xyz inp' p x y).
Proof.
  intros Hs Hi Hi'. split; [|split].
  - apply Forall_forall. intros c Hc.
    now apply (Stencil.window_in_bounds _ (height p) x y).
  - intros Ox Oy W.
    rewrite !Pipeline.debayer_steps, !Pipeline.plain_steps by assumption.
    rewrite !Stencil.stores_at_values.
    now rewrite (Stencil.demosaic_cam_window inp inp' p x y x' y'),
                (Stencil.plain_cam_window inp inp' p x y x' y').
  - intros W.
    rewrite !Pipeline.debayer_steps, !Pipeline.plain_steps by assumption.
    now rewrite (Stencil.demosaic_cam_window inp inp' p x y x y),
                (Stencil.plain_cam_window inp inp' p x y x y).
Qed.

Lemma debayer_is_a_stencil_witness :
  Spec.sized 5 5 /\ Spec.interior 5 5 1 1 /\ Spec.interior 5 5 3 3 /\
  map snd (Fma.debayer16_to_xyz Examples.mosaic_5x5 Examples.params_5x5 1 1) =
  map snd (Fma.debayer16_to_xyz Examples.mosaic_5x5 Examples.params_5x5 3 3).
Proof.
  assert (Hs : Spec.sized 5 5) by (unfold Spec.sized, INT_MAX; lia).
  assert (Hi : Spec.interior 5 5 1 1) by (unfold Spec.interior; lia).
  assert (Hi' : Spec.interior 5 5 3 3) by (unfold Spec.interior; lia).
  split; [exact Hs|]. split; [exact Hi|]. split; [exact Hi'|].
  exact (proj1 (proj1 (proj2 (debayer_is_a_stencil Examples.mosaic_5x5
           Examples.mosaic_5x5 Examples.params_5x5 1 1 3 3 Hs Hi Hi'))
           eq_refl eq_refl eq_refl)).
Defined.

(** X7.  [apply_color_pipeline] is a pointwise operator: the three values
    stored for a pixel of the image are a function of the three raw values
    of that pixel (and of the parameters) alone, and those are read inside
    the input buffer. *)
Theorem color_pipeline_is_pointwise {F : Type} `{FloatOps F}
    (rgb rgb' : list Z) (p : params F) (x y x' y' : Z) :
  Spec.sized (width p) (height p) ->
  0 <= x < width p -> 0 <= y < height p ->
  0 <= x' < width p -> 0 <= y' < height p ->
  (0 <= (y * width p + x) * 3 /\
   (y * width p + x) * 3 + 2 < 3 * (width p * height p)) /\
  (Grid.raw_triple (width p) rgb x y = Grid.raw_triple (width p) rgb' x' y' ->
   map snd (Color.apply_color_pipeline rgb p x y) =
   map snd (Color.apply_color_pipeline rgb' p x' y')).
Proof.
  intros Hs Hx Hy Hx' Hy'. split; [nia|].
  intros E. rewrite !Pipeline.color_steps, !Stencil.stores_at_values by assumption.
  now rewrite (Stencil.color_cam_raw rgb rgb' p x y x' y').
Qed.

Lemma color_pipeline_is_pointwise_witness :
  Spec.sized 3 3 /\
  map snd (Color.apply_color_pipeline Examples.rgb_3x3 Examples.params_3x3 0 0) =
  map snd (Color.apply_color_pipeline Examples.rgb_3x3 Examples.params_3x3 2 2).
Proof.
  assert (Hs : Spec.sized 3 3) by (unfold Spec.sized, INT_MAX; lia).
  split; [exact Hs|].
  refine (proj2 (color_pipeline_is_pointwise Examples.rgb_3x3 Examples.rgb_3x3
                   Examples.params_3x3 0 0 2 2 Hs _ _ _ _) eq_refl); simpl; lia.
Defined.

(** X8.  For calibrated levels, both normalisation helpers send every
    sample up to the white level into [0, 1].  The plain helper sends the
    white level to exactly 1 and every sample above it to at least 1; the
    helper that multiplies by the reciprocal sends the white level to 1 or
    to the float just below 1 ([16777215 * 2^-24]). *)
Theorem normalized_in_unit_interval (black white val : Z) :
  Spec.levels black white -> u16_range val ->
  (val <= white ->
   Spec.in_unit (Spec.fma_norm black white val) /\
   Spec.in_unit (Spec.plain_norm black white val)) /\
  (white <= val ->
   SFleb Binary32.one (Spec.plain_norm black white val) = true) /\
  (val = white ->
   @Spec.plain_norm Binary32.float _ black white val = Binary32.one /\
   (@Spec.fma_norm Binary32.float _ black white val = Binary32.one \/
    @Spec.fma_norm Binary32.float _ black white val
      = S754_finite false 16777215 (-24))).
Proof.
  intros L Hv. destruct (UnitRange.norm_nonneg black white val L Hv) as [NF NP].
  split; [|split].
  - intros Hle. split; split; auto.
    + now apply UnitRange.fma_norm_le_one.
    + now apply UnitRange.plain_norm_le_one.
  - intros Hge. now apply UnitRange.plain_norm_ge_one.
  - intros ->. split;
      [now apply UnitRange.plain_norm_white|now apply UnitRange.fma_norm_white].
Qed.

Lemma normalized_in_unit_interval_witness :
  Spec.levels 0 41 /\ u16_range 41 /\
  @Spec.plain_norm Binary32.float _ 0 41 41 = Binary32.one /\
  (@Spec.fma_norm Binary32.float _ 0 41 41 = Binary32.one \/
   @Spec.fma_norm Binary32.float _ 0 41 41 = S754_finite false 16777215 (-24)).
Proof.
  assert (L : Spec.levels 0 41)
    by (unfold Spec.levels, int_range, INT_MIN, INT_MAX, UINT16_MAX; lia).
  assert (Hv : u16_range 41) by (unfold u16_range, UINT16_MAX; lia).
  split; [exact L|]. split; [exact Hv|].
  exact (proj2 (proj2 (normalized_in_unit_interval 0 41 41 L Hv)) eq_refl).
Defined.

(** X9.  With [white_level = black_level] the reciprocal of the range is
    [+infinity].  [normalize_pixel] then returns [+0] for a sample at or
    below the black level (the product is a NaN or [-infinity], which
    [fmaxf] replaces by zero) and [+infinity] above it; the plain lambda,
    which has no [fmaxf], returns a NaN at or below the black level (it
    divides zero by zero) and [+infinity] above it.  Whatever its
    arguments, [normalize_pixel] returns neither a NaN nor a value below
    zero. *)
Theorem normalization_with_zero_range (black val : Z) :
  int_range black -> UINT16_MAX - INT_MAX <= black -> u16_range val ->
  Binary32.div Binary32.one (Binary32.of_int (isub black black)) = Binary32.pinf /\
  (val <= black ->
   @Spec.fma_norm Binary32.float _ black black val = Binary32.pzero /\
   @Spec.plain_norm Binary32.float _ black black val = Binary32.nan) /\
  (black < val ->
   @Spec.fma_norm Binary32.float _ black black val = Binary32.pinf /\
   @Spec.plain_norm Binary32.float _ black black val = Binary32.pinf) /\
  (forall (b : Z) (inv : Binary32.float),
     Binary32.is_nan (Fma.normalize_pixel val b inv) = false /\
     SFleb Binary32.pzero (Fma.normalize_pixel val b inv) = true).
Proof.
  intros Hb Hl Hv.
  pose proof (Degenerate.fma_norm_zero_range black val Hb Hl Hv) as EF.
  pose proof (Degenerate.plain_norm_zero_range black val Hb Hl Hv) as EP.
  split; [|split; [|split]].
  - destruct (Degenerate.val_sub black val Hb Hl Hv) as (_ & -> & _). reflexivity.
  - intros Le. replace (val <=? black) with true in * by lia. auto.
  - intros Gt. replace (val <=? black) with false in * by lia. auto.
  - intros b inv. rewrite Normalize.fma_normalize_eq. split.
    + apply Clamp.fmaxf_zero_not_nan.
    + apply Clamp.fmaxf_zero_nonneg.
Qed.

Lemma normalization_with_zero_range_witness :
  int_range 64 /\ UINT16_MAX - INT_MAX <= 64 /\ u16_range 64 /\
  @Spec.fma_norm Binary32.float _ 64 64 64 = Binary32.pzero /\
  @Spec.plain_norm Binary32.float _ 64 64 64 = Binary32.nan.
Proof.
  assert (Hb : int_range 64) by (unfold int_range, INT_MIN, INT_MAX; lia).
  assert (Hl : UINT16_MAX - INT_MAX <= 64) by (unfold UINT16_MAX, INT_MAX; lia).
  assert (Hv : u16_range 64) by (unfold u16_range, UINT16_MAX; lia).
  assert (Hle : 64 <= 64) by lia.
  split; [exact Hb|]. split; [exact Hl|]. split; [exact Hv|].
  exact (proj1 (proj2 (normalization_with_zero_range 64 64 Hb Hl Hv)) Hle).
Defined.

(** X10.  The output clamp saturates and preserves order: it returns 1 on
    every value that is at least 1, [+0] on every value that is at most 0,
    the value itself strictly between, and it is monotone. *)
Theorem clamp_saturates_and_is_monotone (v w : Binary32.float) :
  (SFleb Binary32.one v = true -> clamp01 v = Binary32.one) /\
  (SFleb v Binary32.pzero = true -> clamp01 v = Binary32.pzero) /\
  (SFltb Binary32.pzero v = true -> SFleb v Binary32.one = true -> clamp01 v = v) /\
  (SFleb v w = true -> SFleb (clamp01 v) (clamp01 w) = true).
Proof.
  split; [|split; [|split]].
  - intros L. rewrite Clamp.one_eq in *.
    destruct v as [[]|[]| |[] m e]; try discriminate L; [reflexivity|].
    rewrite ClampOrder.clamp01_pos, Clamp.one_eq.
    destruct (SFltb _ _) eqn:K; [reflexivity|].
    apply Clamp.ltb_false_leb in K; auto.
    apply ClampOrder.leb_pos in L, K.
    assert (e = -23 /\ Zpos m = 8388608) as [-> Em] by lia.
    injection Em as ->. reflexivity.
  - intros L. apply ClampOrder.clamp01_nonpos.
    destruct v as [[]|[]| |[] m e]; try discriminate L; exact I.
  - intros L0 L1. apply Clamp.clamp01_fixed; auto.
    + now apply Clamp.ltb_leb.
    + intros ->. discriminate L0.
  - apply ClampOrder.clamp01_mono.
Qed.

Lemma clamp_saturates_and_is_monotone_witness :
  SFleb (S754_finite false 8388608 (-24)) (S754_finite false 14680064 (-22)) = true /\
  SFleb (clamp01 (S754_finite false 8388608 (-24)))
        (clamp01 (S754_finite false 14680064 (-22))) = true.
Proof.
  assert (L : SFleb (S754_finite false 8388608 (-24))
                    (S754_finite false 14680064 (-22)) = true) by reflexivity.
  split; [exact L|].
  exact (proj2 (proj2 (proj2 (clamp_saturates_and_is_monotone
           (S754_finite false 8388608 (-24)) (S754_finite false 14680064 (-22))))) L).
Defined.

(** X11.  A dark window gives an output that no longer depends on the
    samples: when every sample of the window of an interior pixel is at or
    below the black level, both variants rebuild the camera triple
    [(0 * wb_r, 0 * wb_g, 0 * wb_b)] and store its colour transform, which
    is then fixed by the gains and the matrix alone. *)
Theorem dark_window_output
    (inp : list Z) (p : params Binary32.float) (x y : Z) :
  Spec.sized (width p) (height p) ->
  Spec.interior (width p) (height p) x y ->
  Spec.levels (black_level p) (white_level p) ->
  Grid.dark_window (width p) (black_level p) inp x y ->
  let dark := (Binary32.mul Binary32.pzero (wb_r p),
               Binary32.mul Binary32.pzero (wb_g p),
               Binary32.mul Binary32.pzero (wb_b p)) in
  Fma.debayer16_to_xyz inp p x y =
    Spec.stores_at ((y * width p + x) * 3)
      (Spec.color_transform (cam_to_xyz p) dark) /\
  Plain.debayer16_to_xyz inp p x y =
    Spec.stores_at ((y * width p + x) * 3)
      (Spec.plain_color_transform (cam_to_xyz p) dark).
Proof.
  intros Hs Hi L D dark. split.
  - rewrite Pipeline.debayer_steps by assumption.
    now rewrite Dark.demosaic_cam_dark.
  - rewrite Pipeline.plain_steps by assumption.
    now rewrite Dark.plain_cam_dark.
Qed.

Lemma dark_window_output_witness :
  Spec.sized 5 5 /\ Spec.interior 5 5 2 2 /\ Spec.levels 300 65535 /\
  Grid.dark_window 5 300 Examples.mosaic_5x5 2 2 /\
  Fma.debayer16_to_xyz Examples.mosaic_5x5 Examples.params_5x5_dark 2 2 =
    [ (36, S754_zero false); (37, S754_zero false); (38, S754_zero false) ].
Proof.
  assert (Hs : Spec.sized 5 5) by (unfold Spec.sized, INT_MAX; lia).
  assert (Hi : Spec.interior 5 5 2 2) by (unfold Spec.interior; lia).
  assert (L : Spec.levels 300 65535)
    by (unfold Spec.levels, int_range, INT_MIN, INT_MAX, UINT16_MAX; lia).
  assert (D : Grid.dark_window 5 300 Examples.mosaic_5x5 2 2).
  { unfold Grid.dark_window, Grid.window, u16_range.
    repeat (constructor; [split; [split|]; vm_compute; discriminate|]).
    constructor. }
  split; [exact Hs|]. split; [exact Hi|]. split; [exact L|]. split; [exact D|].
  exact (proj1 (dark_window_output Examples.mosaic_5x5 Examples.params_5x5_dark
                  2 2 Hs Hi L D)).
Defined.

(** X12.  How close the normalisation comes to the quotient.  For calibrated
    levels and a sample above the black level, with differences below
    [2 ^ 24] (so that they convert to [float] exactly), the value the plain
    helper returns is within [2 ^ -24], relative, of
    [(sample - black) / (white - black)] (it is the correctly rounded
    quotient), and the value [normalize_pixel] returns with the reciprocal
    is within [3 * 2 ^ -24] of it.  The quotient is what the helper
    computes when it is read over the rationals. *)
Theorem normalization_accuracy (black white val : Z) :
  Spec.levels black white -> u16_range val -> black < val ->
  white - black < 2 ^ 24 -> val - black < 2 ^ 24 ->
  let q := ((val - black) # Z.to_pos (white - black))%Q in
  (Qabs (Value.B2Q (Spec.fma_norm black white val) - q) <= (3 # 16777216) * q)%Q /\
  (Qabs (Value.B2Q (Spec.plain_norm black white val) - q) <= (1 # 16777216) * q)%Q /\
  @Spec.fma_norm Qc _ black white val = Q2Qc q.
Proof.
  intros L Hv Hlt Hr24 Hv24 q.
  destruct (Normalize.levels_sub black white val L Hv) as (_ & _ & Hr & _).
  destruct (Normalize.fma_norm_above black white val L Hv Hlt) as [-> _].
  destruct (Normalize.plain_norm_above black white val L Hv Hlt) as [-> _].
  assert (D : Zpos (Z.to_pos (white - black)) = white - black)
    by (apply Z2Pos.id; lia).
  split; [|split].
  - apply Accuracy.within_Q; [|lia]. rewrite D.
    apply Accuracy.mul_reciprocal_within; lia.
  - apply Accuracy.within_Q; [|lia]. rewrite D.
    apply Accuracy.div_within; lia.
  - now apply Accuracy.exact_value.
Qed.

Lemma normalization_accuracy_witness :
  Spec.levels 0 65535 /\ u16_range 257 /\
  (Qabs (Value.B2Q (Spec.fma_norm 0 65535 257) - (257 # 65535))
   <= (3 # 16777216) * (257 # 65535))%Q.
Proof.
  assert (L : Spec.levels 0 65535)
    by (unfold Spec.levels, int_range, INT_MIN, INT_MAX, UINT16_MAX; lia).
  assert (Hv : u16_range 257) by (unfold u16_range, UINT16_MAX; lia).
  assert (H1 : 0 < 257) by lia.
  assert (H2 : 65535 - 0 < 2 ^ 24) by (simpl; lia).
  assert (H3 : 257 - 0 < 2 ^ 24) by (simpl; lia).
  split; [exact L|]. split; [exact Hv|].
  exact (proj1 (normalization_accuracy 0 65535 257 L Hv H1 H2 H3)).
Defined.

(** X13.  The normalisation keeps distinct samples apart.  For calibrated
    levels with [white - black < 2 ^ 24], two samples [a < b] at or above
    the black level with [b - black < 2 ^ 21] (every 16-bit sample, when the
    black level is not negative) normalise to floats that are strictly in
    order, with either helper: no two sample values collapse. *)
Theorem normalization_strictly_monotone (black white a b : Z) :
  Spec.levels black white -> u16_range a -> u16_range b ->
  black <= a < b -> white - black < 2 ^ 24 -> b - black < 2 ^ 21 ->
  SFltb (Spec.fma_norm black white a) (Spec.fma_norm black white b) = true /\
  SFltb (Spec.plain_norm black white a) (Spec.plain_norm black white b) = true.
Proof.
  intros L Ha Hb Hab Hr Hb21.
  destruct (Normalize.levels_sub black white a L Ha) as (_ & _ & Hr0 & _).
  assert (Hlt : black < b) by lia.
  pose proof (Normalize.fma_norm_above black white b L Hb Hlt) as [Fb Nb].
  pose proof (Normalize.plain_norm_above black white b L Hb Hlt) as [Pb NPb].
  destruct (Z.eq_dec a black) as [->|Ne].
  - rewrite Normalize.fma_norm_below, Normalize.plain_norm_below by (auto; lia).
    destruct Nb as (m & e & -> & _). destruct NPb as (m' & e' & -> & _).
    split; reflexivity.
  - assert (Hlta : black < a) by lia.
    pose proof (Normalize.fma_norm_above black white a L Ha Hlta) as [Fa Na].
    pose proof (Normalize.plain_norm_above black white a L Ha Hlta) as [Pa NPa].
    pose proof (Normalize.fma_norm_mono black white a b L Ha Hb ltac:(lia)) as MF.
    pose proof (Normalize.plain_norm_mono black white a b L Ha Hb ltac:(lia)) as MP.
    assert (H21 : 2 ^ 21 < 2 ^ 24) by reflexivity.
    split.
    + apply (Separation.strictly_ordered _ _ (a - black) (b - black) (white - black));
        auto; try lia.
      * rewrite Fa. apply Accuracy.mul_reciprocal_within; lia.
      * rewrite Fb. apply Accuracy.mul_reciprocal_within; lia.
    + apply (Separation.strictly_ordered _ _ (a - black) (b - black) (white - black));
        auto; try lia.
      * rewrite Pa. apply Separation.within_weaken; [lia|].
        apply Accuracy.div_within; lia.
      * rewrite Pb. apply Separation.within_weaken; [lia|].
        apply Accuracy.div_within; lia.
Qed.

Lemma normalization_strictly_monotone_witness :
  Spec.levels 0 65535 /\ u16_range 65534 /\ u16_range 65535 /\
  SFltb (Spec.fma_norm 0 65535 65534) (Spec.fma_norm 0 65535 65535) = true.
Proof.
  assert (L : Spec.levels 0 65535)
    by (unfold Spec.levels, int_range, INT_MIN, INT_MAX, UINT16_MAX; lia).
  assert (Ha : u16_range 65534) by (unfold u16_range, UINT16_MAX; lia).
  assert (Hb : u16_range 65535) by (unfold u16_range, UINT16_MAX; lia).
  assert (H1 : 0 <= 65534 < 65535) by lia.
  assert (H2 : 65535 - 0 < 2 ^ 24) by (simpl; lia).
  assert (H3 : 65535 - 0 < 2 ^ 21) by (simpl; lia).
  split; [exact L|]. split; [exact Ha|]. split; [exact Hb|].
  exact (proj1 (normalization_strictly_monotone 0 65535 65534 65535 L Ha Hb H1 H2 H3)).
Defined.

(** X14.  An image with fewer than three columns or fewer than three rows
    has no interior pixel: a launch of [debayer16_to_xyz] (either variant)
    on it performs no store at all. *)
Theorem debayer_needs_three_by_three {F : Type} `{FloatOps F}
    (inp : list Z) (p : params F) (gx gy : Z) :
  Spec.sized (width p) (height p) ->
  width p < 3 \/ height p < 3 ->
  launch (Fma.debayer16_to_xyz inp p) gx gy = [] /\
  launch (Plain.debayer16_to_xyz inp p) gx gy = [].
Proof.
  intros Hs Hsmall.
  assert (E : forall x y, Spec.interiorb (width p) (height p) x y = false).
  { intros x y. unfold Spec.interiorb. lia. }
  split; unfold launch; apply Lists.flat_map_all_nil; intros y Hy;
    apply Lists.flat_map_all_nil; intros x Hx;
    apply elem_of_seqZ in Hx, Hy.
  - apply (GridFacts.kernel_off _ _ _
             (fun x y => KernelGrid.fma_locations inp p x y Hs)); auto; lia.
  - apply (GridFacts.kernel_off _ _ _
             (fun x y => KernelGrid.plain_locations inp p x y Hs)); auto; lia.
Qed.

Lemma debayer_needs_three_by_three_witness :
  Spec.sized 2 5 /\
  launch (Fma.debayer16_to_xyz Examples.mosaic_5x5 Examples.params_2x5) 16 16
  = [].
Proof.
  assert (Hs : Spec.sized 2 5) by (unfold Spec.sized, INT_MAX; lia).
  split; [exact Hs|].
  refine (proj1 (debayer_needs_three_by_three Examples.mosaic_5x5
                   Examples.params_2x5 16 16 Hs _)).
  left. simpl. lia.
Defined.

(** X15.  A flat field stays flat.  When the nine samples of the window of an
    interior pixel are equal, every channel is rebuilt as the normalised
    sample itself, whatever the parity of the pixel: in binary32 the means
    of two and of four equal values are exact, although the running sum of
    four rounds on the way.  Both variants then store the colour transform
    of [(n * wb_r, n * wb_g, n * wb_b)], so a uniform mosaic gives a uniform
    image. *)
Theorem flat_window_output
    (inp : list Z) (p : params Binary32.float) (x y s : Z) :
  Spec.sized (width p) (height p) ->
  Spec.interior (width p) (height p) x y ->
  Spec.levels (black_level p) (white_level p) -> u16_range s ->
  Grid.flat_window (width p) inp x y s ->
  let nf := Spec.fma_norm (black_level p) (white_level p) s in
  let np := Spec.plain_norm (black_level p) (white_level p) s in
  Fma.debayer16_to_xyz inp p x y =
    Spec.stores_at ((y * width p + x) * 3)
      (Spec.color_transform (cam_to_xyz p)
         (Binary32.mul nf (wb_r p), Binary32.mul nf (wb_g p),
          Binary32.mul nf (wb_b p))) /\
  Plain.debayer16_to_xyz inp p x y =
    Spec.stores_at ((y * width p + x) * 3)
      (Spec.plain_color_transform (cam_to_xyz p)
         (Binary32.mul np (wb_r p), Binary32.mul np (wb_g p),
          Binary32.mul np (wb_b p))).
Proof.
  intros Hs Hi L Hu D nf np. split.
  - rewrite Pipeline.debayer_steps by assumption.
    now rewrite (FlatField.demosaic_cam_flat inp p x y s).
  - rewrite Pipeline.plain_steps by assumption.
    now rewrite (FlatField.plain_cam_flat inp p x y s).
Qed.

Lemma flat_window_output_witness :
  Spec.sized 5 5 /\ Spec.interior 5 5 1 2 /\ Spec.levels 0 65535 /\
  u16_range 257 /\ Grid.flat_window 5 Examples.mosaic_5x5 1 2 257 /\
  map snd (Fma.debayer16_to_xyz Examples.mosaic_5x5 Examples.params_5x5 1 2) =
  map snd (Fma.debayer16_to_xyz Examples.mosaic_5x5 Examples.params_5x5 2 2).
Proof.
  assert (Hs : Spec.sized 5 5) by (unfold Spec.sized, INT_MAX; lia).
  assert (Hi : Spec.interior 5 5 1 2) by (unfold Spec.interior; lia).
  assert (Hi' : Spec.interior 5 5 2 2) by (unfold Spec.interior; lia).
  assert (L : Spec.levels 0 65535)
    by (unfold Spec.levels, int_range, INT_MIN, INT_MAX, UINT16_MAX; lia).
  assert (Hu : u16_range 257) by (unfold u16_range, UINT16_MAX; lia).
  assert (D : Grid.flat_window 5 Examples.mosaic_5x5 1 2 257)
    by (repeat constructor).
  assert (D' : Grid.flat_window 5 Examples.mosaic_5x5 2 2 257)
    by (repeat constructor).
  split; [exact Hs|]. split; [exact Hi|]. split; [exact L|]. split; [exact Hu|].
  split; [exact D|].
  rewrite (proj1 (flat_window_output Examples.mosaic_5x5 Examples.params_5x5
                    1 2 257 Hs Hi L Hu D)).
  rewrite (proj1 (flat_window_output Examples.mosaic_5x5 Examples.params_5x5
                    2 2 257 Hs Hi' L Hu D')).
  reflexivity.
Defined.

(** X16.  With a sensor range that is a power of two, the Demosaic stages of
    the two variants are bit-identical in binary32: on every window of 16-bit
    samples around an interior pixel, [get_red], [get_green] and [get_blue]
    of the reciprocal-multiply variant return the very floats their plain
    counterparts return.  The reciprocal of the range is then exact, so the
    normalised samples coincide, and halving or quartering a sum by
    [* 0.5f] / [* 0.25f] is the same as [/ 2.0f] / [/ 4.0f]. *)
Theorem power_of_two_range_same_demosaic
    (inp : list Z) (p : params Binary32.float) (x y k : Z) :
  Spec.sized (width p) (height p) ->
  Spec.interior (width p) (height p) x y ->
  Spec.levels (black_level p) (white_level p) ->
  white_level p - black_level p = 2 ^ k ->
  Grid.valid_window (width p) inp x y ->
  let range := Binary32.of_int (isub (white_level p) (black_level p)) in
  Fma.get_red inp x y (width p) (black_level p) (Spec.inv_range p) =
    Plain.get_red inp x y (width p) (black_level p) range /\
  Fma.get_green inp x y (width p) (black_level p) (Spec.inv_range p) =
    Plain.get_green inp x y (width p) (black_level p) range /\
  Fma.get_blue inp x y (width p) (black_level p) (Spec.inv_range p) =
    Plain.get_blue inp x y (width p) (black_level p) range /\
  Spec.demosaic_cam inp p x y = Spec.plain_cam inp p x y.
Proof.
  intros Hs Hi L Hk D range. apply Stencil.sized_addressable in Hs.
  destruct (SameDemosaic.channels_same inp _ _ _ _ k x y Hs Hi L Hk D)
    as (R & G & B).
  change (Binary32.div (Binary32.lit 1 1)
            (Binary32.of_int (isub (white_level p) (black_level p))))
    with (Spec.inv_range p) in R, G, B.
  repeat split; try assumption.
  unfold Spec.demosaic_cam, Spec.plain_cam. cbv zeta.
  now rewrite R, G, B.
Qed.

Lemma power_of_two_range_same_demosaic_witness :
  Spec.sized 3 3 /\ Spec.interior 3 3 1 1 /\ Spec.levels 64 1088 /\
  1088 - 64 = 2 ^ 10 /\ Grid.valid_window 3 Examples.mosaic_3x3 1 1 /\
  Spec.demosaic_cam Examples.mosaic_3x3 Examples.params_3x3 1 1 =
  Spec.plain_cam Examples.mosaic_3x3 Examples.params_3x3 1 1.
Proof.
  assert (Hs : Spec.sized 3 3) by (unfold Spec.sized, INT_MAX; lia).
  assert (Hi : Spec.interior 3 3 1 1) by (unfold Spec.interior; lia).
  assert (L : Spec.levels 64 1088)
    by (unfold Spec.levels, int_range, INT_MIN, INT_MAX, UINT16_MAX; lia).
  assert (Hk : 1088 - 64 = 2 ^ 10) by reflexivity.
  assert (D : Grid.valid_window 3 Examples.mosaic_3x3 1 1)
    by (repeat (constructor; [split; vm_compute; discriminate|]); constructor).
  split; [exact Hs|]. split; [exact Hi|]. split; [exact L|]. split; [exact Hk|].
  split; [exact D|].
  apply (power_of_two_range_same_demosaic Examples.mosaic_3x3 Examples.params_3x3
           1 1 10 Hs Hi L Hk D).
Defined.
